(** * RAMN: secret cipher, account/group store and session launcher

    A shallow embedding of the parts of [RAMN.py] that protect stored
    secrets ([_is_enc], [_enc], [_dec]), keep accounts and groups in the
    SQLite store ([create_table], [migrate_table], [_create_group_from_menu],
    [_delete_group], [_sync_groups_from_tree]) and launch a session
    ([_get_auth_ticket], [_build_roblox_player_uri]).

    Python values are modelled as the interpreter has them: a [str] is a
    sequence of code points, [bytes] a sequence of octets, [None] is
    [option]'s [None].  Library calls the program makes (UTF-8 coding,
    [str.strip], [urllib.parse.quote_plus], decimal [str(int)]) are
    written out; the Fernet cipher, the HTTP server and the operating
    system's clock and random source are interfaces.  Of SQLite the
    model has what the program meets: the implicit transactions of the
    [sqlite3] module, column names that the engine compares without
    regard to case, AUTOINCREMENT ids up to the largest rowid, and the
    UNIQUE constraint on group names.

    Further parts cover the other methods that write to the store
    ([_move_selected_to_group], [_remove_selected_from_group],
    [_rename_group], [_prompt_set_alias]) and the reader [_get_account],
    the tree [load_accounts] builds, the key file behind the first call
    of [_get_fernet] ([_win_protect], [_win_unprotect]) and the frame of
    the window ([_get_resize_direction], [_resize_window]). *)

From stdpp Require Import base option list gmap strings sorting.
From Stdlib Require Import NArith ZArith Lia String Ascii.

(** ** Python built-ins *)

Module Py.

Local Open Scope N_scope.

(** A Python [str]: its code points, lone surrogates included. *)
Definition str := list N.

(** A Python [bytes] object; every element of a real one is below 256. *)
Definition bytes := list N.

Definition wf_bytes (b : bytes) : Prop := Forall (λ x, x < 256) b.

Definition ascii_only (b : list N) : Prop := Forall (λ x, x < 128) b.

(** An ASCII literal of the source as a [str]. *)
Definition lit (s : string) : str := N_of_ascii <$> list_ascii_of_string s.

(** [bool(val)] for [val : str | None]: false on [None] and on [""]. *)
Definition truthy (val : option str) : bool :=
  match val with
  | Some (_ :: _) => true
  | _ => false
  end.

(** [s.startswith(p)] *)
Fixpoint startswith (s p : str) : bool :=
  match p with
  | [] => true
  | c :: p' =>
    match s with
    | [] => false
    | d :: s' => (c =? d) && startswith s' p'
    end
  end.

Definition is_surrogate (c : N) : bool := (0xD800 <=? c) && (c <=? 0xDFFF).

(** The UTF-8 octets of one code point; [None] is [UnicodeEncodeError]
    (a surrogate, or a value that is no code point). *)
Definition encode_cp (c : N) : option bytes :=
  if c <? 0x80 then Some [c]
  else if c <? 0x800 then Some [0xC0 + c / 64; 0x80 + c mod 64]
  else if c <? 0x10000 then
    if is_surrogate c then None
    else Some [0xE0 + c / 4096; 0x80 + (c / 64) mod 64; 0x80 + c mod 64]
  else if c <? 0x110000 then
    Some [0xF0 + c / 262144; 0x80 + (c / 4096) mod 64;
          0x80 + (c / 64) mod 64; 0x80 + c mod 64]
  else None.

(** [s.encode("utf-8")] *)
Fixpoint encode_utf8 (s : str) : option bytes :=
  match s with
  | [] => Some []
  | c :: s' =>
    b ← encode_cp c;
    r ← encode_utf8 s';
    Some (b ++ r)
  end.

Definition is_cont (b : N) : bool := (0x80 <=? b) && (b <? 0xC0).

(** [b.decode("utf-8")], strict: [None] is [UnicodeDecodeError]
    (stray or missing continuation octets, overlong forms, surrogates,
    values above U+10FFFF). *)
Fixpoint decode_utf8 (b : bytes) : option str :=
  match b with
  | [] => Some []
  | b0 :: r0 =>
    if b0 <? 0x80 then cons b0 <$> decode_utf8 r0
    else if b0 <? 0xC2 then None
    else if b0 <? 0xE0 then
      match r0 with
      | b1 :: r1 =>
        if is_cont b1
        then cons ((b0 - 0xC0) * 64 + (b1 - 0x80)) <$> decode_utf8 r1
        else None
      | _ => None
      end
    else if b0 <? 0xF0 then
      match r0 with
      | b1 :: b2 :: r2 =>
        let c := (b0 - 0xE0) * 4096 + (b1 - 0x80) * 64 + (b2 - 0x80) in
        if is_cont b1 && is_cont b2 && (0x800 <=? c) && negb (is_surrogate c)
        then cons c <$> decode_utf8 r2
        else None
      | _ => None
      end
    else if b0 <? 0xF5 then
      match r0 with
      | b1 :: b2 :: b3 :: r3 =>
        let c := (b0 - 0xF0) * 262144 + (b1 - 0x80) * 4096
                 + (b2 - 0x80) * 64 + (b3 - 0x80) in
        if is_cont b1 && is_cont b2 && is_cont b3
           && (0x10000 <=? c) && (c <? 0x110000)
        then cons c <$> decode_utf8 r3
        else None
      | _ => None
      end
    else None
  end.

(** [str.isspace] on one code point, as [str.strip()] uses it. *)
Definition isspace (c : N) : bool :=
  ((0x09 <=? c) && (c <=? 0x0D)) || ((0x1C <=? c) && (c <=? 0x20))
  || (c =? 0x85) || (c =? 0xA0) || (c =? 0x1680)
  || ((0x2000 <=? c) && (c <=? 0x200A))
  || (c =? 0x2028) || (c =? 0x2029) || (c =? 0x202F) || (c =? 0x205F)
  || (c =? 0x3000).

Fixpoint lstrip (s : str) : str :=
  match s with
  | c :: s' => if isspace c then lstrip s' else s
  | [] => []
  end.

(** [s.strip()] *)
Definition strip (s : str) : str := reverse (lstrip (reverse (lstrip s))).

(** [str(n)] for a non-negative [int]: its decimal digits. *)
Fixpoint digits (d : Decimal.uint) : str :=
  match d with
  | Decimal.Nil => []
  | Decimal.D0 d' => 48 :: digits d'
  | Decimal.D1 d' => 49 :: digits d'
  | Decimal.D2 d' => 50 :: digits d'
  | Decimal.D3 d' => 51 :: digits d'
  | Decimal.D4 d' => 52 :: digits d'
  | Decimal.D5 d' => 53 :: digits d'
  | Decimal.D6 d' => 54 :: digits d'
  | Decimal.D7 d' => 55 :: digits d'
  | Decimal.D8 d' => 56 :: digits d'
  | Decimal.D9 d' => 57 :: digits d'
  end.

Definition str_of_int (n : N) : str := digits (N.to_uint n).

(** ["sep".join(parts)] *)
Fixpoint join (sep : str) (parts : list str) : str :=
  match parts with
  | [] => []
  | [p] => p
  | p :: rest => p ++ sep ++ join sep rest
  end.

(** The characters [urllib.parse.quote] never escapes: ASCII letters,
    digits and [_.-~]. *)
Definition always_safe (b : N) : bool :=
  ((65 <=? b) && (b <=? 90)) || ((97 <=? b) && (b <=? 122))
  || ((48 <=? b) && (b <=? 57))
  || (b =? 95) || (b =? 46) || (b =? 45) || (b =? 126).

Definition hex_digit (n : N) : N := if n <? 10 then 48 + n else 55 + n.

(** One octet under [quote_plus]: kept, turned into [+] (a space), or
    escaped as [%XX] with upper-case hexadecimal digits. *)
Definition quote_octet (b : N) : str :=
  if always_safe b then [b]
  else if b =? 32 then [43]
  else [37; hex_digit (b / 16); hex_digit (b mod 16)].

(** [urllib.parse.quote_plus(s)]; [None] is the [UnicodeEncodeError] of
    its strict UTF-8 encoding step. *)
Definition quote_plus (s : str) : option str :=
  b ← encode_utf8 s; Some (b ≫= quote_octet).

(** The base64 alphabet of [base64.urlsafe_b64encode]: [A-Z], [a-z],
    [0-9], [-] and [_]. *)
Definition b64_char (i : N) : N :=
  if i <? 26 then 65 + i
  else if i <? 52 then 71 + i
  else if i <? 62 then i - 4
  else if i =? 62 then 45
  else 95.

(** [base64.urlsafe_b64encode(b)], padded with [=]. *)
Fixpoint urlsafe_b64encode (b : bytes) : bytes :=
  match b with
  | [] => []
  | [x] => [b64_char (x / 4); b64_char (x mod 4 * 16); 61; 61]
  | [x; y] =>
    [b64_char (x / 4); b64_char (x mod 4 * 16 + y / 16);
     b64_char (y mod 16 * 4); 61]
  | x :: y :: z :: rest =>
    b64_char (x / 4) :: b64_char (x mod 4 * 16 + y / 16)
    :: b64_char (y mod 16 * 4 + z / 64) :: b64_char (z mod 64)
    :: urlsafe_b64encode rest
  end.

(** [struct.pack(">Q", n)]: eight octets, most significant first. *)
Definition be64 (n : N) : bytes :=
  [ n / 2 ^ 56 mod 256; n / 2 ^ 48 mod 256; n / 2 ^ 40 mod 256;
    n / 2 ^ 32 mod 256; n / 2 ^ 24 mod 256; n / 2 ^ 16 mod 256;
    n / 2 ^ 8 mod 256; n mod 256 ].

End Py.

Import Py.

(** A Python value as the program stores it in a tree item or binds it
    to an SQL parameter: [None], an [int] or a [str]. *)
Inductive pyval :=
| PNone
| PInt (z : Z)
| PStr (s : str).

#[global] Instance pyval_eq_dec : EqDecision pyval.
Proof. solve_decision. Defined.

(** The exceptions the modelled code raises or catches. *)
Inductive exn :=
| UnicodeError
| InvalidToken
| IntegrityError
| OperationalError
| ConnectionError
| RuntimeError (msg : string).

#[global] Instance exn_eq_dec : EqDecision exn.
Proof. solve_decision. Defined.

(** ** External interfaces *)

(** [cryptography.fernet.Fernet].  A token is the URL-safe base64 text
    of: the version octet 0x80, the 64-bit big-endian time of
    encryption, and then the IV, the AES-CBC ciphertext and the HMAC.
    These last three are [fernet_sealed k now iv data], given by the
    cipher for a key [k], a clock reading [now] in seconds, the random
    [iv] and the plaintext.  [fernet_decrypt k token] is
    [Fernet(k).decrypt(token)], [None] being [InvalidToken]. *)
Class Fernet := {
  key : Type;
  fernet_sealed : key → N → bytes → bytes → bytes;
  fernet_decrypt : key → bytes → option bytes;
}.

(** [Fernet(k).encrypt(data)] at the clock reading [now] with the random
    [iv]. *)
Definition fernet_encrypt {F : Fernet} (k : key) (now : N) (iv data : bytes)
    : bytes :=
  urlsafe_b64encode (0x80%N :: be64 now ++ fernet_sealed k now iv data).

(** What the cipher promises: decryption inverts encryption under the
    same key. *)
Class FernetSpec (F : Fernet) : Prop := {
  decrypt_encrypt k now iv data :
    wf_bytes data → fernet_decrypt k (fernet_encrypt k now iv data) = Some data;
}.

(** The machine the process runs on: the key that the first call of
    [_get_fernet] ends up with (unwrapped from the key file, migrated from
    the legacy file, freshly generated, or the in-memory fallback), and
    the successive readings of the clock and of the random source. *)
Class Host (F : Fernet) := {
  boot_key : key;
  time_at : nat → N;        (* int(time.time()), seconds *)
  urandom_at : nat → bytes; (* os.urandom(16) *)
  time_ms_at : nat → N;     (* int(time.time() * 1000) *)
  randint_at : nat → N;     (* random.randint(100000, 999999) *)
}.

(** The clock is a present-day one: its readings in seconds stay below
    2^42 (the year 141338). *)
Class HostSpec {F : Fernet} (H : Host F) : Prop := {
  clock_range n : (time_at n < 2 ^ 42)%N;
}.

(** SQLite's column affinity: how a text value bound to the INTEGER
    column [group_id] is stored and compared (numeric-looking text becomes
    a number, other text stays text). *)
Class Sqlite := {
  integer_affinity : str → pyval;
}.

(** ** The SQLite store *)

Module Store.

(** One row of [accounts] without its key [username].  A column the
    table does not have yet reads as NULL. *)
Record account := Account {
  alias : option str;
  profile_path : option str;
  roblosecurity : option str;
  group_id : pyval;
}.

#[global] Instance account_eq_dec : EqDecision account.
Proof. solve_decision. Defined.

Definition with_group (g : pyval) (a : account) : account :=
  Account (alias a) (profile_path a) (roblosecurity a) g.

Definition with_secret (al c : option str) (a : account) : account :=
  Account al (profile_path a) c (group_id a).

(** The rows of a groups table, by [id] (by rowid in the legacy table
    that has no [id] column). *)
Abbreviation group_rows := (gmap Z (option str)).

Record DB := mkDB {
  accounts_cols : list string;   (* PRAGMA table_info(accounts); [] when absent *)
  accounts : gmap str account;   (* by username, the PRIMARY KEY *)
  has_last_played : bool;
  groups_cols : list string;     (* PRAGMA table_info(groups); [] when absent *)
  groups : group_rows;
  groups_seq : Z;                (* AUTOINCREMENT high-water mark *)
  groups_new : option (group_rows * Z);
}.

Definition set_accounts (f : gmap str account → gmap str account) (db : DB) : DB :=
  mkDB (accounts_cols db) (f (accounts db)) (has_last_played db)
       (groups_cols db) (groups db) (groups_seq db) (groups_new db).

Definition set_groups (cols : list string) (rows : group_rows) (seq : Z)
    (db : DB) : DB :=
  mkDB (accounts_cols db) (accounts db) (has_last_played db)
       cols rows seq (groups_new db).

Definition set_groups_new (t : option (group_rows * Z)) (db : DB) : DB :=
  mkDB (accounts_cols db) (accounts db) (has_last_played db)
       (groups_cols db) (groups db) (groups_seq db) t.

(** The statements the program executes. *)
Inductive stmt :=
| CreateAccounts       (* CREATE TABLE IF NOT EXISTS accounts (username TEXT PRIMARY KEY, alias TEXT, profile_path TEXT) *)
| CreateLastPlayed     (* CREATE TABLE IF NOT EXISTS last_played (...) *)
| CreateGroups         (* CREATE TABLE IF NOT EXISTS groups (id INTEGER PRIMARY KEY AUTOINCREMENT, name TEXT UNIQUE) *)
| AddColumn (col : string)   (* ALTER TABLE accounts ADD COLUMN col ... *)
| CreateGroupsNew      (* CREATE TABLE IF NOT EXISTS groups_new (id ..., name TEXT UNIQUE) *)
| CopyDistinctNames    (* INSERT OR IGNORE INTO groups_new(name) SELECT DISTINCT name FROM groups *)
| DropGroups           (* DROP TABLE groups *)
| RenameGroupsNew      (* ALTER TABLE groups_new RENAME TO groups *)
| UpdateSecret (al c : option str) (u : str)  (* UPDATE accounts SET alias=?, roblosecurity=? WHERE username=? *)
| InsertGroup (name : str)   (* INSERT INTO groups(name) VALUES(?) *)
| SetGroup (gid : pyval) (u : str)   (* UPDATE accounts SET group_id=? WHERE username=? *)
| SetGroupNull (u : str)     (* UPDATE accounts SET group_id=NULL WHERE username=? *)
| UngroupMembers (gid : pyval)  (* UPDATE accounts SET group_id=NULL WHERE group_id=? *)
| DeleteGroup (gid : pyval). (* DELETE FROM groups WHERE id=? *)

(** INSERT, UPDATE and DELETE open a transaction implicitly; the other
    statements do not. *)
Definition is_dml (s : stmt) : bool :=
  match s with
  | CopyDistinctNames | UpdateSecret _ _ _ | InsertGroup _
  | SetGroup _ _ | SetGroupNull _ | UngroupMembers _ | DeleteGroup _ => true
  | _ => false
  end.

(** [c in cols], the test the program makes on the names that
    [PRAGMA table_info] returns. *)
Definition has_col (c : string) (cols : list string) : bool :=
  bool_decide (c ∈ cols).

Definition lower_ascii (c : ascii) : ascii :=
  let n := N_of_ascii c in
  if (65 <=? n)%N && (n <=? 90)%N then ascii_of_N (n + 32) else c.

Fixpoint lower (s : string) : string :=
  match s with
  | EmptyString => EmptyString
  | String c s' => String (lower_ascii c) (lower s')
  end.

(** SQLite's own test for a column of that name, which disregards the
    case of ASCII letters. *)
Definition sql_has_col (c : string) (cols : list string) : bool :=
  bool_decide (lower c ∈ lower <$> cols).

#[global] Arguments sql_has_col : simpl never.

(** Some row already carries the name [n] (the UNIQUE constraint on
    [name]; NULL names never collide). *)
Definition name_taken (n : str) (rows : group_rows) : bool :=
  bool_decide (map_Exists (λ _ v, v = Some n) rows).

Definition max_rowid (rows : group_rows) : Z :=
  map_fold (λ k _ m, Z.max k m) 0%Z rows.

(** The id an AUTOINCREMENT table gives its next row: one above the
    largest rowid the table has ever held. *)
Definition next_id (rows : group_rows) (seq : Z) : Z :=
  (Z.max seq (max_rowid rows) + 1)%Z.

(** The largest rowid, 2^63 - 1.  Once an AUTOINCREMENT table has held
    it, no id is left and SQLite refuses every INSERT (SQLITE_FULL). *)
Definition largest_rowid : Z := 9223372036854775807.

Definition rowid_full (rows : group_rows) (seq : Z) : bool :=
  (largest_rowid <=? Z.max seq (max_rowid rows))%Z.

(** The elements of a list without repetitions, each where it occurs
    first. *)
Fixpoint distinct {A} `{EqDecision A} (seen l : list A) : list A :=
  match l with
  | [] => []
  | x :: l' =>
    if decide (x ∈ seen) then distinct seen l' else x :: distinct (x :: seen) l'
  end.

(** [SELECT DISTINCT name FROM groups] by a scan of the table: the rows
    in the order of their rowid, a name that was met before left out
    (NULL is a name like another here). *)
Definition distinct_names (rows : group_rows) : list (option str) :=
  distinct [] (snd <$> merge_sort (λ x y, Is_true (x.1 <=? y.1)%Z) (map_to_list rows)).

(** INSERT OR IGNORE of one name into a (rows, sequence) pair. *)
Definition insert_or_ignore (t : group_rows * Z) (name : option str)
    : group_rows * Z :=
  let '(rows, seq) := t in
  match name with
  | Some n =>
    if name_taken n rows then t
    else let i := next_id rows seq in (<[i := Some n]> rows, i)
  | None => let i := next_id rows seq in (<[i := None]> rows, i)
  end.

Section Apply.
Context {E : Sqlite}.

(** A bound parameter as the INTEGER column sees it. *)
Definition bound (v : pyval) : pyval :=
  match v with
  | PStr s => integer_affinity s
  | _ => v
  end.

(** [col = ?]: NULL equals nothing. *)
Definition sql_eq (col param : pyval) : bool :=
  match param with
  | PNone => false
  | _ => bool_decide (col = bound param)
  end.

Definition ungroup_if (gid : pyval) (a : account) : account :=
  if sql_eq (group_id a) gid then with_group PNone a else a.

Definition id_matches (gid : pyval) (i : Z) : bool := sql_eq (PInt i) gid.

(** The effect of one statement on a database; an [inl] is the
    exception sqlite3 raises and leaves the database as it was. *)
Definition apply (s : stmt) (db : DB) : exn + DB :=
  match s with
  | CreateAccounts =>
    inr (match accounts_cols db with
         | [] => mkDB ["username"; "alias"; "profile_path"] ∅ (has_last_played db)
                      (groups_cols db) (groups db) (groups_seq db) (groups_new db)
         | _ => db
         end)
  | CreateLastPlayed =>
    inr (mkDB (accounts_cols db) (accounts db) true
              (groups_cols db) (groups db) (groups_seq db) (groups_new db))
  | CreateGroups =>
    inr (match groups_cols db with
         | [] => set_groups ["id"; "name"] ∅ 0 db
         | _ => db
         end)
  | AddColumn col =>
    match accounts_cols db with
    | [] => inl OperationalError                 (* no such table *)
    | cols =>
      if sql_has_col col cols then inl OperationalError  (* duplicate column name *)
      else inr (mkDB (cols ++ [col]) (accounts db) (has_last_played db)
                     (groups_cols db) (groups db) (groups_seq db) (groups_new db))
    end
  | CreateGroupsNew =>
    inr (match groups_new db with
         | None => set_groups_new (Some (∅, 0%Z)) db
         | Some _ => db
         end)
  | CopyDistinctNames =>
    match groups_new db, groups_cols db with
    | Some t, _ :: _ =>
      if sql_has_col "name" (groups_cols db)
      then inr (set_groups_new
                  (Some (foldl insert_or_ignore t
                           (distinct_names (groups db)))) db)
      else inl OperationalError
    | _, _ => inl OperationalError
    end
  | DropGroups =>
    match groups_cols db with
    | [] => inl OperationalError
    | _ => inr (set_groups [] ∅ 0 db)
    end
  | RenameGroupsNew =>
    match groups_new db, groups_cols db with
    | Some (rows, seq), [] =>
      inr (set_groups_new None (set_groups ["id"; "name"] rows seq db))
    | _, _ => inl OperationalError
    end
  | UpdateSecret al c u =>
    if sql_has_col "alias" (accounts_cols db) && sql_has_col "roblosecurity" (accounts_cols db)
    then inr (set_accounts (alter (with_secret al c) u) db)
    else inl OperationalError
  | InsertGroup name =>
    if sql_has_col "name" (groups_cols db) then
      if name_taken name (groups db) then inl IntegrityError   (* UNIQUE constraint *)
      else if rowid_full (groups db) (groups_seq db)
      then inl OperationalError                              (* no rowid left *)
      else let i := next_id (groups db) (groups_seq db) in
           inr (set_groups (groups_cols db) (<[i := Some name]> (groups db)) i db)
    else inl OperationalError
  | SetGroup gid u =>
    if sql_has_col "group_id" (accounts_cols db)
    then inr (set_accounts (alter (with_group (bound gid)) u) db)
    else inl OperationalError
  | SetGroupNull u =>
    if sql_has_col "group_id" (accounts_cols db)
    then inr (set_accounts (alter (with_group PNone) u) db)
    else inl OperationalError
  | UngroupMembers gid =>
    if sql_has_col "group_id" (accounts_cols db)
    then inr (set_accounts (fmap (ungroup_if gid)) db)
    else inl OperationalError
  | DeleteGroup gid =>
    if sql_has_col "id" (groups_cols db)
    then inr (set_groups (groups_cols db)
                (filter (λ kv, id_matches gid kv.1 = false) (groups db))
                (groups_seq db) db)
    else inl OperationalError
  end.

End Apply.

End Store.

Import Store.

(** ** The running process *)

(** An HTTP request as [requests.Session.post] sends it, and the part of
    the response the program reads.  Header names of a response are
    looked up case-insensitively; they are kept lower-cased here. *)
Record request := Request {
  req_url : string;
  req_headers : gmap string str;
  req_cookies : gmap string str;
}.

Record response := Response {
  resp_headers : gmap string str;
  resp_cookies : gmap string str;
}.

(** [r.headers.get(name)] *)
Definition header (r : response) (name : string) : option str :=
  resp_headers r !! name.

(** The remote service: its answer to a request given the requests it has
    already received; [None] when no response arrives (the [requests]
    call raises). *)
Class Server := {
  serve : list request → request → option response;
}.

(** A message box shown to the user. *)
Inductive message :=
| MsgWarning (title : string) (text : str).

Module Process.
Section Process.
Context {F : Fernet}.

(** The state of the process: the module global [_FERNET], how many
    times the clock and random source have been read, the connection
    [self.conn] (the database as committed, the open transaction's
    working copy if one is open, every state a commit has made visible
    to other readers, oldest first, and every state the working copy of
    a transaction has been in, oldest first), the requests sent, and
    the message boxes shown. *)
Record world := World {
  _FERNET : option key;
  ticks : nat;
  committed : DB;
  pending : option DB;
  journal : list DB;
  trail : list DB;
  sent : list request;
  shown : list message;
}.

Definition set_fernet (f : option key) (w : world) : world :=
  World f (ticks w) (committed w) (pending w) (journal w) (trail w)
        (sent w) (shown w).

Definition tick (w : world) : world :=
  World (_FERNET w) (S (ticks w)) (committed w) (pending w) (journal w)
        (trail w) (sent w) (shown w).

Definition set_pending (p : option DB) (w : world) : world :=
  World (_FERNET w) (ticks w) (committed w) p (journal w) (trail w)
        (sent w) (shown w).

(** A statement inside a transaction: the working copy takes the state
    [db], which is none that other readers see. *)
Definition stage (db : DB) (w : world) : world :=
  World (_FERNET w) (ticks w) (committed w) (Some db) (journal w)
        (trail w ++ [db]) (sent w) (shown w).

(** The working copy has been through the states [dbs]. *)
Definition staged (dbs : list DB) (w : world) : world :=
  World (_FERNET w) (ticks w) (committed w) (pending w) (journal w)
        (trail w ++ dbs) (sent w) (shown w).

(** A commit: the new state replaces the committed one and becomes
    visible. *)
Definition publish (db : DB) (w : world) : world :=
  World (_FERNET w) (ticks w) db None (journal w ++ [db]) (trail w)
        (sent w) (shown w).

Definition log_request (r : request) (w : world) : world :=
  World (_FERNET w) (ticks w) (committed w) (pending w) (journal w)
        (trail w) (sent w ++ [r]) (shown w).

Definition show (m : message) (w : world) : world :=
  World (_FERNET w) (ticks w) (committed w) (pending w) (journal w)
        (trail w) (sent w) (shown w ++ [m]).

(** What this connection reads: its own uncommitted changes if it has
    any, the committed database otherwise. *)
Definition view (w : world) : DB := default (committed w) (pending w).

(** Computations of the program: they read and change the process state
    and either return a value or raise an exception.  The state changes
    made before an exception stay. *)
Definition M (A : Type) : Type := world → (exn + A) * world.

Definition ret {A} (a : A) : M A := λ w, (inr a, w).

Definition raise {A} (e : exn) : M A := λ w, (inl e, w).

Definition bind {A B} (m : M A) (k : A → M B) : M B := λ w,
  match m w with
  | (inr a, w') => k a w'
  | (inl e, w') => (inl e, w')
  end.

(** [try: m  except Exception: h] *)
Definition try_except {A} (m : M A) (h : exn → M A) : M A := λ w,
  match m w with
  | (inl e, w') => h e w'
  | r => r
  end.

(** [try: m  except cls: h] for one exception class. *)
Definition try_except_only {A} (cls : exn) (m : M A) (h : M A) : M A :=
  try_except m (λ e, if decide (e = cls) then h else raise e).

(** An optional result, [None] raising [e]. *)
Definition lift {A} (e : exn) (o : option A) : M A :=
  match o with
  | Some a => ret a
  | None => raise e
  end.

(** [for x in xs: body(x)] *)
Fixpoint for_ {A} (xs : list A) (body : A → M unit) : M unit :=
  match xs with
  | [] => ret ()
  | x :: xs' => bind (body x) (λ _, for_ xs' body)
  end.

Context {E : Sqlite}.

(** [self.conn.execute(stmt)] for a statement that changes the database.
    INSERT, UPDATE and DELETE open a transaction when none is open; any
    statement run while one is open joins it; a statement of another kind
    run while none is open takes effect (and is visible) at once. *)
Definition execute (s : stmt) : M unit := λ w,
  match apply s (view w) with
  | inl e => (inl e, w)
  | inr db =>
    if is_dml s || bool_decide (is_Some (pending w))
    then (inr (), stage db w)
    else (inr (), publish db w)
  end.

Definition commit (w : world) : world :=
  match pending w with
  | Some db => publish db w
  | None => w
  end.

Definition rollback (w : world) : world := set_pending None w.

(** [with self.conn: body]: commit when the body returns, roll back and
    re-raise when it raises. *)
Definition with_conn {A} (body : M A) : M A := λ w,
  match body w with
  | (inr a, w') => (inr a, commit w')
  | (inl e, w') => (inl e, rollback w')
  end.

(** [PRAGMA table_info(accounts)] and [PRAGMA table_info(groups)]: the
    column names, none for a table that does not exist. *)
Definition table_info_accounts : M (list string) := λ w,
  (inr (accounts_cols (view w)), w).

Definition table_info_groups : M (list string) := λ w,
  (inr (groups_cols (view w)), w).

(** [SELECT username, alias, roblosecurity FROM accounts] *)
Definition select_secrets : M (list (str * option str * option str)) := λ w,
  let db := view w in
  if sql_has_col "username" (accounts_cols db) && sql_has_col "alias" (accounts_cols db)
     && sql_has_col "roblosecurity" (accounts_cols db)
  then (inr ((λ kv, (kv.1, alias kv.2, roblosecurity kv.2))
               <$> map_to_list (accounts db)), w)
  else (inl OperationalError, w).

Definition warning (title : string) (text : str) : M unit := λ w,
  (inr (), show (MsgWarning title text) w).

End Process.
End Process.

Import Process.

#[global] Instance M_ret {F : Fernet} : MRet M := @ret F.
#[global] Instance M_bind {F : Fernet} : MBind M := λ A B k m, bind m k.

(** ** Secret cipher: [_get_fernet], [_is_enc], [_enc], [_dec] *)

Module Cipher.
Section Cipher.
Context {F : Fernet} {H : Host F}.

(** [_get_fernet()]: the cached cipher, or on first use the one built
    from the host's key, which is then cached. *)
Definition _get_fernet : M key := λ w,
  match _FERNET w with
  | Some f => (inr f, w)
  | None => (inr boot_key, set_fernet (Some boot_key) w)
  end.

(** [f.encrypt(data)]: reads the clock and the random source once. *)
Definition encrypt (f : key) (data : bytes) : M bytes := λ w,
  (inr (fernet_encrypt f (time_at (ticks w)) (urandom_at (ticks w)) data),
   tick w).

(** [f.decrypt(token)] *)
Definition decrypt (f : key) (token : bytes) : M bytes :=
  lift InvalidToken (fernet_decrypt f token).

Definition encode (s : str) : M bytes := lift UnicodeError (encode_utf8 s).

Definition decode (b : bytes) : M str := lift UnicodeError (decode_utf8 b).

Definition _is_enc (val : option str) : bool :=
  if negb (truthy val) then false
  else match val with
       | Some s => startswith s (lit "gAAAA")
       | None => false
       end.

Definition _enc (val : option str) : M (option str) :=
  match val with
  | None => mret None
  | Some v =>
    f ← _get_fernet;
    try_except
      (data ← encode v;
       token ← encrypt f data;
       text ← decode token;
       mret (Some text))
      (λ _, mret (Some v))
  end.

Definition _dec (val : option str) : M (option str) :=
  match val with
  | None => mret None
  | Some v =>
    f ← _get_fernet;
    try_except
      (if _is_enc (Some v)
       then token ← encode v;
            data ← decrypt f token;
            text ← decode data;
            mret (Some text)
       else mret (Some v))
      (λ _, mret (Some v))
  end.

End Cipher.
End Cipher.

Import Cipher.

(** ** Account/group store: the manager's database methods *)

(** An item of the accounts tree with the data the program attaches to
    it: a group node carries its group id ([None] for the Ungrouped
    node), an account node its username.  Drag and drop may nest items
    arbitrarily. *)
#[local] Set Warnings "-register-all".
Inductive item :=
| GroupItem (gid : option Z) (kids : list item)
| AccountItem (username : str) (kids : list item).

(** [it.data(0, Qt.UserRole) == "account"] *)
Definition is_account (it : item) : bool :=
  match it with
  | AccountItem _ _ => true
  | GroupItem _ _ => false
  end.

(** [it.data(0, Qt.UserRole + 1)] *)
Definition ident (it : item) : pyval :=
  match it with
  | GroupItem (Some g) _ => PInt g
  | GroupItem None _ => PNone
  | AccountItem u _ => PStr u
  end.

Definition children (it : item) : list item :=
  match it with
  | GroupItem _ kids => kids
  | AccountItem _ kids => kids
  end.

(** What a [ModernInputDialog] returns: accepted with the text of its
    line edit, or dismissed. *)
Inductive dialog_result :=
| Accepted (text : str)
| Rejected.

Module Manager.
Section Manager.
Context {F : Fernet} {H : Host F} {E : Sqlite}.

Definition create_table : M unit :=
  with_conn
    (execute CreateAccounts;;
     execute CreateLastPlayed;;
     execute CreateGroups).

(** The loop of [migrate_table] over the selected rows: the rows whose
    secret changes, with the new secret. *)
Fixpoint collect_updates (rows : list (str * option str * option str))
    : M (list (option str * option str * str)) :=
  match rows with
  | [] => mret []
  | (username, alias, cookie) :: rest =>
    let new_alias := alias in
    new_cookie ← (if truthy cookie && negb (_is_enc cookie)
                  then _enc cookie else mret cookie);
    to_update ← collect_updates rest;
    mret (if bool_decide (new_alias ≠ alias ∨ new_cookie ≠ cookie)
          then (new_alias, new_cookie, username) :: to_update
          else to_update)
  end.

Definition migrate_table : M unit :=
  cols ← table_info_accounts;
  (if has_col "roblosecurity" cols then mret ()
   else with_conn (execute (AddColumn "roblosecurity")));;
  cols ← table_info_accounts;
  (if has_col "group_id" cols then mret ()
   else with_conn (execute (AddColumn "group_id")));;
  try_except_only OperationalError
    (gcols ← table_info_groups;
     if bool_decide (gcols ≠ []) && negb (has_col "id" gcols)
     then with_conn
            (execute CreateGroupsNew;;
             execute CopyDistinctNames;;
             execute DropGroups;;
             execute RenameGroupsNew)
     else mret ())
    (mret ());;
  try_except
    (rows ← select_secrets;
     to_update ← collect_updates rows;
     if bool_decide (to_update ≠ [])
     then with_conn
            (for_ to_update (λ '(a, c, u), execute (UpdateSecret a c u)))
     else mret ())
    (λ _, mret ()).

(** [load_accounts()] rebuilds the tree view from the two tables; of its
    effects only the reads matter here. *)
Definition load_accounts : M unit := λ w,
  let db := view w in
  if sql_has_col "id" (groups_cols db) && sql_has_col "name" (groups_cols db)
     && sql_has_col "username" (accounts_cols db) && sql_has_col "alias" (accounts_cols db)
     && sql_has_col "group_id" (accounts_cols db)
  then (inr (), w)
  else (inl OperationalError, w).

Definition group_exists_text (name : str) : str :=
  lit "A group named '" ++ name ++ lit "' already exists.".

(** [_create_group_from_menu()], given what the dialog returns. *)
Definition _create_group_from_menu (result : dialog_result) : M unit :=
  match result with
  | Accepted text =>
    let name := strip text in
    if truthy (Some name)
    then try_except_only IntegrityError
           (with_conn (execute (InsertGroup name));;
            load_accounts)
           (warning "Group Exists" (group_exists_text name))
    else mret ()
  | Rejected => mret ()
  end.

(** [_delete_group(group_item)]: the moves in the tree view aside, the
    two statements of its transaction. *)
Definition _delete_group (group_item : item) : M unit :=
  let group_id := ident group_item in
  match group_id with
  | PNone => mret ()
  | _ =>
    with_conn
      (execute (UngroupMembers group_id);;
       execute (DeleteGroup group_id))
  end.

(** The [updates] list that [_sync_groups_from_tree] builds from the
    top-level items and their direct children. *)
Definition tree_updates (tree : list item) : list (pyval * str) :=
  group_item ← tree;
  let group_id := ident group_item in
  child ← children group_item;
  match child with
  | AccountItem username _ => [(group_id, username)]
  | GroupItem _ _ => []
  end.

Definition _sync_groups_from_tree (tree : list item) : M unit :=
  let updates := tree_updates tree in
  match updates with
  | [] => mret ()
  | _ =>
    with_conn
      (for_ updates (λ '(gid, uname),
         match gid with
         | PNone => execute (SetGroupNull uname)
         | _ => execute (SetGroup gid uname)
         end))
  end.

End Manager.
End Manager.

(** ** Session launcher *)

Module Launcher.
Section Launcher.
Context {F : Fernet} {S : Server}.

Definition ticket_url : string :=
  "https://auth.roblox.com/v1/authentication-ticket/".

Definition MissingCsrfToken : exn := RuntimeError "Failed to obtain CSRF token".

Definition MissingTicket : exn :=
  RuntimeError "Authentication ticket header missing".

(** [sess.post(url, headers=headers, json={})]: the session's cookies go
    with the request and the cookies of the response join the session. *)
Definition post (cookies : gmap string str) (url : string)
    (headers : gmap string str) : M (response * gmap string str) := λ w,
  let rq := Request url headers cookies in
  match serve (sent w) rq with
  | Some rs => (inr (rs, resp_cookies rs ∪ cookies), log_request rq w)
  | None => (inl ConnectionError, log_request rq w)
  end.

Definition _get_auth_ticket (roblosec place_id : str) : M str :=
  let cookies : gmap string str := {[ ".ROBLOSECURITY" := roblosec ]} in
  let referer := lit "https://www.roblox.com/games/" ++ place_id in
  let headers : gmap string str :=
    <[ "Content-Type" := lit "application/json" ]> {[ "Referer" := referer ]} in
  '(r1, cookies) ← post cookies ticket_url headers;
  let token := header r1 "x-csrf-token" in
  if negb (truthy token) then raise MissingCsrfToken
  else
    let headers := <[ "X-CSRF-TOKEN" := default [] token ]> headers in
    '(r2, cookies) ← post cookies ticket_url headers;
    let ticket := header r2 "rbx-authentication-ticket" in
    if negb (truthy ticket) then raise MissingTicket
    else mret (default [] ticket).

Context {H : Host F}.

(** [int(time.time() * 1000)] and [random.randint(100000, 999999)] as the
    host yields them at the current reading. *)
Definition launch_clock : M (N * N) := λ w,
  (inr (time_ms_at (ticks w), randint_at (ticks w)), tick w).

Definition _build_roblox_player_uri (ticket place_id : str) : M str :=
  '(now_ms, rnd) ← launch_clock;
  let launch_time := str_of_int now_ms in
  let browser_tracker := str_of_int rnd in
  let place_launcher_url :=
    lit "https://assetgame.roblox.com/game/PlaceLauncher.ashx?request=RequestGame&placeId="
    ++ place_id in
  quoted ← lift UnicodeError (quote_plus place_launcher_url);
  let params : list (str * str) :=
    [ (lit "launchmode", lit "play");
      (lit "gameinfo", ticket);
      (lit "launchtime", launch_time);
      (lit "placelauncherurl", quoted);
      (lit "browsertrackerid", browser_tracker);
      (lit "robloxLocale", lit "en_us");
      (lit "gameLocale", lit "en_us");
      (lit "channel", lit "");
      (lit "LaunchExp", lit "InApp") ] in
  let parts := lit "1" :: ((λ kv, kv.1 ++ lit ":" ++ kv.2) <$> params) in
  mret (lit "roblox-player:" ++ join (lit "+") parts).

End Launcher.
End Launcher.

(** ** A small executable environment

    Instances of the interfaces on which the definitions above can be
    run: a stand-in cipher in the token format of Fernet (a checksum
    where the real one has IV, ciphertext and HMAC),
    a host with a present-day clock, a storage engine and a ticket
    server.  The stand-in cipher is not the AES/HMAC construction. *)

Module Sample.

Local Open Scope N_scope.

Definition b64_index (c : N) : option N :=
  if (65 <=? c) && (c <=? 90) then Some (c - 65)
  else if (97 <=? c) && (c <=? 122) then Some (c - 71)
  else if (48 <=? c) && (c <=? 57) then Some (c + 4)
  else if c =? 45 then Some 62
  else if c =? 95 then Some 63
  else None.

(** A strict decoder of padded URL-safe base64. *)
Fixpoint b64decode (t : bytes) : option bytes :=
  match t with
  | [] => Some []
  | c0 :: c1 :: c2 :: c3 :: rest =>
    i0 ← b64_index c0;
    i1 ← b64_index c1;
    if c3 =? 61 then
      match rest with
      | [] =>
        if c2 =? 61 then Some [i0 * 4 + i1 / 16]
        else i2 ← b64_index c2;
             Some [i0 * 4 + i1 / 16; i1 mod 16 * 16 + i2 / 4]
      | _ => None
      end
    else
      i2 ← b64_index c2;
      i3 ← b64_index c3;
      r ← b64decode rest;
      Some (i0 * 4 + i1 / 16 :: i1 mod 16 * 16 + i2 / 4 :: i2 mod 4 * 64 + i3 :: r)
  | _ => None
  end.

Definition checksum (k : N) (data : bytes) : N :=
  (foldr N.add k data) mod 256.

Definition shift (k x : N) : N := (x + k mod 256) mod 256.

Definition unshift (k y : N) : N := (y + 256 - k mod 256) mod 256.

(** In place of IV, ciphertext and HMAC: a checksum and the shifted
    octets. *)
Definition seal (k : N) (now : N) (iv data : bytes) : bytes :=
  checksum k data :: (shift k <$> data).

Definition unseal (k : N) (token : bytes) : option bytes :=
  raw ← b64decode token;
  match raw with
  | version :: rest =>
    if version =? 0x80 then
      match drop 8 rest with
      | tag :: ct =>
        let data := unshift k <$> ct in
        if tag =? checksum k data then Some data else None
      | [] => None
      end
    else None
  | [] => None
  end.

#[global] Instance cipher : Fernet :=
  {| key := N; fernet_sealed := seal; fernet_decrypt := unseal |}.

#[global] Instance host : Host cipher :=
  {| boot_key := 7;
     time_at := λ n, 1762000000 + N.of_nat n mod 86400;
     urandom_at := λ _, [];
     time_ms_at := λ n, 1762000000000 + N.of_nat n mod 86400000;
     randint_at := λ _, 123456 |}.

(** The value of a run of decimal digits. *)
Fixpoint digits_value (acc : Z) (s : str) : option Z :=
  match s with
  | [] => Some acc
  | c :: s' =>
    if (48 <=? c) && (c <=? 57)
    then digits_value (10 * acc + Z.of_N (c - 48))%Z s'
    else None
  end.

(** A decimal integer literal: digits after an optional sign. *)
Definition int_literal (s : str) : option Z :=
  match s with
  | [] => None
  | c :: ds =>
    if c =? 45 then match ds with [] => None | _ => Z.opp <$> digits_value 0 ds end
    else if c =? 43 then match ds with [] => None | _ => digits_value 0 ds end
    else digits_value 0 s
  end.

(** Text bound to [group_id] that reads as a 64-bit decimal integer is
    stored as that integer; other text is kept as text. *)
#[global] Instance engine : Sqlite :=
  {| integer_affinity := λ s,
       match int_literal s with
       | Some z =>
         if ((- 9223372036854775808 <=? z) && (z <=? 9223372036854775807))%Z
         then PInt z else PStr s
       | None => PStr s
       end |}.

(** A ticket server: the first request of a session is answered with an
    anti-forgery token, any later one with a ticket. *)
#[global] Instance ticket_server : Server :=
  {| serve := λ history _,
       match history with
       | [] => Some (Response {[ "x-csrf-token" := lit "tok" ]} ∅)
       | _ => Some (Response {[ "rbx-authentication-ticket" := lit "T1CK" ]} ∅)
       end |}.

(** A server that never hands out the anti-forgery token. *)
Definition silent_server : Server :=
  {| serve := λ _ _, Some (Response ∅ ∅) |}.

(** A migrated store with two groups and three accounts. *)
Definition db0 : DB :=
  mkDB ["username"; "alias"; "profile_path"; "roblosecurity"; "group_id"]
       (<[ lit "alice" := Account (Some (lit "main")) None None (PInt 1) ]>
        (<[ lit "bob" := Account None None None (PInt 1) ]>
         (<[ lit "carol" := Account None None None PNone ]> ∅)))
       true
       ["id"; "name"]
       (<[ 1%Z := Some (lit "Main") ]> (<[ 2%Z := Some (lit "Alts") ]> ∅))
       2
       None.

(** The same store once its groups table has held the largest rowid. *)
Definition full_db : DB :=
  set_groups (groups_cols db0) (groups db0) largest_rowid db0.

(** A store as an earlier release left it: no group column, a groups
    table without ids, one secret still in the clear. *)
Definition legacy_db : DB :=
  mkDB ["username"; "alias"; "profile_path"; "roblosecurity"]
       (<[ lit "alice" := Account None None (Some (lit "secret-token")) PNone ]> ∅)
       true
       ["name"]
       (<[ 1%Z := Some (lit "Main") ]> ∅)
       0
       None.

Definition fresh (db : DB) : world := World None 0 db None [] [] [] [].

(** The tree after [bob] was dragged from Main to Alts and [carol] into
    Main. *)
Definition tree0 : list item :=
  [ GroupItem None [];
    GroupItem (Some 2%Z) [AccountItem (lit "bob") []];
    GroupItem (Some 1%Z) [AccountItem (lit "alice") []; AccountItem (lit "carol") []] ].

(** A tree in which the node of Alts, with [bob] and [carol] under it,
    has been dropped onto the node of Main. *)
Definition nested_tree : list item :=
  [ GroupItem None [];
    GroupItem (Some 1%Z)
      [ AccountItem (lit "alice") [];
        GroupItem (Some 2%Z) [AccountItem (lit "bob") []; AccountItem (lit "carol") []] ] ].

(** The token [_enc] yields for ["secret-token"] in a fresh process, the
    process state after that call, and the token with one character
    altered. *)
Definition good_token : str :=
  Eval vm_compute in
    match (_enc (Some (lit "secret-token")) (fresh db0)).1 with
    | inr (Some t) => t
    | _ => []
    end.

Definition keyed : world := World (Some 7) 1 db0 None [] [] [] [].

Definition corrupted_token : str := <[ 20%nat := 66 ]> good_token.

End Sample.

(** ** Properties of the store that the theorems speak of *)

(** The schema as [create_table] and [migrate_table] leave it. *)
Definition ready (db : DB) : bool :=
  has_col "username" (accounts_cols db) && has_col "alias" (accounts_cols db)
  && has_col "roblosecurity" (accounts_cols db)
  && has_col "group_id" (accounts_cols db)
  && has_col "id" (groups_cols db) && has_col "name" (groups_cols db).

(** The accounts table has the column [c] under this very name or has
    no column of that name at all, whatever the case of its letters. *)
Definition exact_case (c : string) (cols : list string) : Prop :=
  sql_has_col c cols = has_col c cols.

(** No account row references a group that has no row. *)
Definition no_dangling (db : DB) : Prop :=
  ∀ u a, accounts db !! u = Some a →
    group_id a = PNone ∨ ∃ i, group_id a = PInt i ∧ is_Some (groups db !! i).

(** Two account rows that differ at most in [group_id]. *)
Definition same_but_group (a a' : account) : Prop :=
  alias a' = alias a ∧ profile_path a' = profile_path a
  ∧ roblosecurity a' = roblosecurity a.

(** Every username that appears in the tree, at any depth. *)
Fixpoint usernames (it : item) : list str :=
  match it with
  | GroupItem _ kids => flat_map usernames kids
  | AccountItem u kids => u :: flat_map usernames kids
  end.

(** A stored secret that [migrate_table] leaves alone: empty, already in
    token format, or not encodable as UTF-8. *)
Definition settled (c : option str) : bool :=
  negb (truthy c) || _is_enc c
  || bool_decide (from_option encode_utf8 None c = None).

Import Manager Launcher.

(** ** Definitions used to state the results *)

Section Derived.
Context {F : Fernet} {host : Host F} {E : Sqlite} {S : Server}.

(** Statements run one after the other on a database. *)
Fixpoint apply_all (ss : list stmt) (db : DB) : exn + DB :=
  match ss with
  | [] => inr db
  | s :: ss' =>
    match apply s db with
    | inr db' => apply_all ss' db'
    | inl e => inl e
    end
  end.

(** The states the database goes through on the way, one for each
    statement that takes effect. *)
Fixpoint states (ss : list stmt) (db : DB) : list DB :=
  match ss with
  | [] => []
  | s :: ss' =>
    match apply s db with
    | inr db' => db' :: states ss' db'
    | inl _ => []
    end
  end.

(** The statement [_sync_groups_from_tree] runs for one entry of its
    [updates] list, and its effect on the accounts. *)
Definition sync_stmt (p : pyval * str) : stmt :=
  match p.1 with
  | PNone => SetGroupNull p.2
  | g => SetGroup g p.2
  end.

Definition regroup (m : gmap str account) (p : pyval * str) : gmap str account :=
  alter (with_group (bound p.1)) p.2 m.

(** The stages of [migrate_table]. *)
Definition add_column (c : string) : M unit :=
  cols ← table_info_accounts;
  if has_col c cols then mret () else with_conn (execute (AddColumn c)).

Definition rebuild_groups : M unit :=
  try_except_only OperationalError
    (gcols ← table_info_groups;
     if bool_decide (gcols ≠ []) && negb (has_col "id" gcols)
     then with_conn
            (execute CreateGroupsNew;;
             execute CopyDistinctNames;;
             execute DropGroups;;
             execute RenameGroupsNew)
     else mret ())
    (mret ()).

Definition encrypt_secrets : M unit :=
  try_except
    (rows ← select_secrets;
     to_update ← collect_updates rows;
     if bool_decide (to_update ≠ [])
     then with_conn
            (for_ to_update (λ '(a, c, u), execute (UpdateSecret a c u)))
     else mret ())
    (λ _, mret ()).

(** What the groups stage leaves behind: no groups table, one with an
    [id] column, or one it could not rebuild (no [name] column to copy
    from) next to the [groups_new] table it created. *)
Definition groups_settled (db : DB) : Prop :=
  groups_cols db = [] ∨ has_col "id" (groups_cols db) = true
  ∨ (sql_has_col "name" (groups_cols db) = false ∧ is_Some (groups_new db)).

Definition select_ok (db : DB) : bool :=
  sql_has_col "username" (accounts_cols db) && sql_has_col "alias" (accounts_cols db)
  && sql_has_col "roblosecurity" (accounts_cols db).

Definition all_settled (db : DB) : Prop :=
  ∀ u a, accounts db !! u = Some a → settled (roblosecurity a) = true.

Definition secret_stmt (p : option str * option str * str) : stmt :=
  UpdateSecret p.1.1 p.1.2 p.2.

Definition resecret (m : gmap str account) (p : option str * option str * str)
    : gmap str account :=
  alter (with_secret p.1.1 p.1.2) p.2 m.

Definition base_headers (place_id : str) : gmap string str :=
  <[ "Content-Type" := lit "application/json" ]>
    {[ "Referer" := lit "https://www.roblox.com/games/" ++ place_id ]}.

(** The first POST of the ticket exchange: the secret as cookie, no
    anti-forgery token. *)
Definition first_request (roblosec place_id : str) : request :=
  Request ticket_url (base_headers place_id) {[ ".ROBLOSECURITY" := roblosec ]}.

(** The second POST: the same endpoint with the token attached. *)
Definition second_request (roblosec place_id : str) (r1 : response) (token : str)
    : request :=
  Request ticket_url (<[ "X-CSRF-TOKEN" := token ]> (base_headers place_id))
          (resp_cookies r1 ∪ {[ ".ROBLOSECURITY" := roblosec ]}).

Definition place_launcher_url (place_id : str) : str :=
  lit "https://assetgame.roblox.com/game/PlaceLauncher.ashx?request=RequestGame&placeId="
  ++ place_id.

Definition launcher_prefix_quoted : str :=
  lit "https%3A%2F%2Fassetgame.roblox.com%2Fgame%2FPlaceLauncher.ashx%3Frequest%3DRequestGame%26placeId%3D".

(** The launch descriptor the program builds, field by field:
    [quoted_place] is the percent-encoded place identifier, every other
    value stands as it is. *)
Definition launch_descriptor (ticket launch_time quoted_place tracker : str) : str :=
  lit "roblox-player:1"
  ++ lit "+launchmode:play"
  ++ lit "+gameinfo:" ++ ticket
  ++ lit "+launchtime:" ++ launch_time
  ++ lit "+placelauncherurl:" ++ launcher_prefix_quoted ++ quoted_place
  ++ lit "+browsertrackerid:" ++ tracker
  ++ lit "+robloxLocale:en_us"
  ++ lit "+gameLocale:en_us"
  ++ lit "+channel:"
  ++ lit "+LaunchExp:InApp".

Definition launch_keys : list str :=
  [ lit "launchmode"; lit "gameinfo"; lit "launchtime"; lit "placelauncherurl";
    lit "browsertrackerid"; lit "robloxLocale"; lit "gameLocale"; lit "channel";
    lit "LaunchExp" ].

(** The launch descriptor as the specification words it: every launch
    parameter percent-encoded, then joined. *)
Definition percent_encoded_descriptor (ticket place_id launch_time tracker : str)
    : option str :=
  values ← mapM quote_plus
             [ lit "play"; ticket; launch_time; place_launcher_url place_id;
               tracker; lit "en_us"; lit "en_us"; lit ""; lit "InApp" ];
  Some (lit "roblox-player:"
        ++ join (lit "+")
             (lit "1" :: zip_with (λ k v, k ++ lit ":" ++ v) launch_keys values)).

(** Only characters that [quote_plus] leaves alone. *)
Definition unreserved (s : str) : bool := forallb always_safe s.

End Derived.

(** ** More statements of the manager *)

(** The remaining UPDATE statements on accounts and groups. *)
Inductive edit :=
| SetAlias (al : str) (u : str)          (* UPDATE accounts SET alias=? WHERE username=? *)
| RenameGroup (name : str) (gid : pyval). (* UPDATE groups SET name=? WHERE id=? *)

Module Edits.
Section Edits.
Context {F : Fernet} {E : Sqlite}.

Definition with_alias (al : option str) (a : account) : account :=
  Account al (profile_path a) (roblosecurity a) (group_id a).

(** The effect of one of these statements.  Renaming fails on the
    UNIQUE constraint when a row is renamed to the name of another row;
    a statement that matches no row changes nothing and fails on
    nothing. *)
Definition apply_edit (s : edit) (db : DB) : exn + DB :=
  match s with
  | SetAlias al u =>
    if sql_has_col "alias" (accounts_cols db) && sql_has_col "username" (accounts_cols db)
    then inr (set_accounts (alter (with_alias (Some al)) u) db)
    else inl OperationalError
  | RenameGroup name gid =>
    if sql_has_col "name" (groups_cols db) && sql_has_col "id" (groups_cols db) then
      if bool_decide (map_Exists (λ i _, id_matches gid i = true) (groups db))
         && name_taken name (filter (λ kv, id_matches gid kv.1 = false) (groups db))
      then inl IntegrityError
      else inr (set_groups (groups_cols db)
                  (map_imap (λ i v, Some (if id_matches gid i then Some name else v))
                            (groups db))
                  (groups_seq db) db)
    else inl OperationalError
  end.

(** [self.conn.execute(...)] for these statements: an UPDATE opens a
    transaction or joins the open one. *)
Definition execute_edit (s : edit) : M unit := λ w,
  match apply_edit s (view w) with
  | inl e => (inl e, w)
  | inr db => (inr (), stage db w)
  end.

(** [SELECT alias FROM accounts WHERE username=?], [fetchone()] *)
Definition select_alias (username : str) : M (option (option str)) := λ w,
  let db := view w in
  if sql_has_col "alias" (accounts_cols db) && sql_has_col "username" (accounts_cols db)
  then (inr (alias <$> accounts db !! username), w)
  else (inl OperationalError, w).

(** [SELECT profile_path, roblosecurity FROM accounts WHERE username=?],
    [fetchone()] *)
Definition select_account (username : str)
    : M (option (option str * option str)) := λ w,
  let db := view w in
  if sql_has_col "profile_path" (accounts_cols db)
     && sql_has_col "roblosecurity" (accounts_cols db)
     && sql_has_col "username" (accounts_cols db)
  then (inr ((λ a, (profile_path a, roblosecurity a)) <$> accounts db !! username), w)
  else (inl OperationalError, w).

End Edits.
End Edits.

Import Edits.

Module Accounts.
Section Accounts.
Context {F : Fernet} {host : Host F} {E : Sqlite}.

(** [_get_selected_username()], given the tree's current item. *)
Definition _get_selected_username (current : option item) : option str :=
  match current with
  | None => None
  | Some it =>
    if negb (is_account it) then None
    else match ident it with
         | PStr username => Some username
         | _ => None
         end
  end.

Definition _move_selected_to_group (current : option item) (group_id : Z)
    : M unit :=
  let username := _get_selected_username current in
  if negb (truthy username) then mret ()
  else
    with_conn (execute (SetGroup (PInt group_id) (default [] username)));;
    load_accounts.

Definition _remove_selected_from_group (current : option item) : M unit :=
  let username := _get_selected_username current in
  if negb (truthy username) then mret ()
  else
    with_conn (execute (SetGroupNull (default [] username)));;
    load_accounts.

(** [_rename_group(group_item)], given what the dialog returns; the
    labels of the tree view aside. *)
Definition _rename_group (group_item : item) (result : dialog_result) : M unit :=
  let group_id := ident group_item in
  match group_id with
  | PNone => mret ()
  | _ =>
    match result with
    | Accepted text =>
      let name := strip text in
      if negb (truthy (Some name)) then mret ()
      else try_except_only IntegrityError
             (with_conn (execute_edit (RenameGroup name group_id)))
             (warning "Group Exists" (group_exists_text name))
    | Rejected => mret ()
    end
  end.

(** [_prompt_set_alias(item)]; [dialog] is what the user answers to the
    dialog opened with the current alias. *)
Definition _prompt_set_alias (it : option item) (dialog : str → dialog_result)
    : M unit :=
  match it with
  | Some (AccountItem username _) =>
    if negb (truthy (Some username)) then mret ()
    else
      row ← select_alias username;
      let current_alias :=
        match row with
        | Some (Some (c :: s)) => c :: s
        | _ => []
        end in
      match dialog current_alias with
      | Accepted text =>
        let alias := strip text in
        with_conn (execute_edit (SetAlias alias username))
      | Rejected => mret ()
      end
  | _ => mret ()
  end.

Definition AccountNotFound : exn := RuntimeError "Account not found".

(** [_get_account(username)]: the profile path and the decrypted secret. *)
Definition _get_account (username : str) : M (option str * option str) :=
  row ← select_account username;
  match row with
  | None => raise AccountNotFound
  | Some (profile_path, secret) =>
    cookie ← (if truthy secret then _dec secret else mret None);
    mret (profile_path, cookie)
  end.

End Accounts.
End Accounts.

Import Accounts.

(** Group ids as AUTOINCREMENT hands them out: none above the
    high-water mark. *)
Definition seq_ok (db : DB) : Prop :=
  ∀ i, is_Some (groups db !! i) → (i ≤ groups_seq db)%Z.

Section Readings.
Context {F : Fernet} {host : Host F}.

(** The key every [_enc] and [_dec] of this process works with: the
    cached one, or the host's when none is cached yet. *)
Definition the_key (w : world) : key := default boot_key (_FERNET w).

(** A row after the migration has encrypted its secret under [k]: the
    same alias, profile path and group, and either the same secret or a
    token of it (the old secret being non-empty plain text). *)
Definition reencrypted (k : key) (a a' : account) : Prop :=
  alias a' = alias a ∧ profile_path a' = profile_path a ∧ group_id a' = group_id a
  ∧ (roblosecurity a' = roblosecurity a
     ∨ ∃ v data now iv,
         roblosecurity a = Some v ∧ v ≠ [] ∧ _is_enc (Some v) = false
         ∧ encode_utf8 v = Some data ∧ (now < 2 ^ 42)%N
         ∧ roblosecurity a' = Some (fernet_encrypt k now iv data)).


(** What [_dec] makes of a stored text under the key [k]. *)
Definition plain (k : key) (v : str) : str :=
  if _is_enc (Some v)
  then default v (b ← encode_utf8 v; d ← fernet_decrypt k b; decode_utf8 d)
  else v.

(** A computation that leaves the key of the process as it is. *)
Definition keeps {A} (m : M A) : Prop := ∀ w, the_key (m w).2 = the_key w.

End Readings.

(** The store after the legacy groups table (names only) has been
    rebuilt with ids: the distinct names are copied into [groups_new],
    which then takes the place of [groups]. *)
Definition rebuilt (db : DB) : DB :=
  let t := default (∅, 0%Z) (groups_new db) in
  let t2 := foldl insert_or_ignore t (distinct_names (groups db)) in
  mkDB (accounts_cols db) (accounts db) (has_last_played db)
       ["id"; "name"] t2.1 t2.2 None.

(** No two groups carry the same name. *)
Definition names_unique (rows : group_rows) : Prop :=
  ∀ i j n, rows !! i = Some (Some n) → rows !! j = Some (Some n) → i = j.

(** ** The window frame: resizing by the mouse *)

Module Window.

Local Open Scope Z_scope.

(** [sub in s] for two strings. *)
Fixpoint contains (s sub : str) : bool :=
  startswith s sub
  || match s with
     | [] => false
     | _ :: s' => contains s' sub
     end.

(** The range of a C [int].  A [QRect] keeps its edges as C [int]s and
    computes with them; [wrap z] is what such a computation yields where
    the integers yield [z]. *)
Definition INT_MIN : Z := -2147483648.
Definition INT_MAX : Z := 2147483647.

Definition is_int (z : Z) : bool := (INT_MIN <=? z) && (z <=? INT_MAX).

Definition wrap (z : Z) : Z := (z - INT_MIN) mod 4294967296 + INT_MIN.

(** A [QRect]: its left, top, right and bottom edge, all inclusive. *)
Record QRect := mkRect { left : Z; top : Z; right : Z; bottom : Z }.

Definition width (r : QRect) : Z := wrap (right r - left r + 1).
Definition height (r : QRect) : Z := wrap (bottom r - top r + 1).

(** The setters take a Python [int]; for one that is no C [int] the
    binding raises [OverflowError], which is the [None] here. *)
Definition setLeft (v : Z) (r : QRect) : option QRect :=
  if is_int v then Some (mkRect v (top r) (right r) (bottom r)) else None.
Definition setTop (v : Z) (r : QRect) : option QRect :=
  if is_int v then Some (mkRect (left r) v (right r) (bottom r)) else None.
Definition setRight (v : Z) (r : QRect) : option QRect :=
  if is_int v then Some (mkRect (left r) (top r) v (bottom r)) else None.
Definition setBottom (v : Z) (r : QRect) : option QRect :=
  if is_int v then Some (mkRect (left r) (top r) (right r) v) else None.

(** A rectangle as Qt hands it out: every edge a C [int]. *)
Definition is_rect (r : QRect) : bool :=
  is_int (left r) && is_int (top r) && is_int (right r) && is_int (bottom r).

(** [_get_resize_direction(pos)] for a window whose [rect()] is [rect]
    and whose [resize_margin] is [margin]. *)
Definition _get_resize_direction (rect : QRect) (margin : Z) (pos_x pos_y : Z)
    : option str :=
  if (pos_x <=? margin) && (pos_y <=? margin) then Some (lit "top_left")
  else if (pos_x >=? width rect - margin) && (pos_y <=? margin) then Some (lit "top_right")
  else if (pos_x <=? margin) && (pos_y >=? height rect - margin) then Some (lit "bottom_left")
  else if (pos_x >=? width rect - margin) && (pos_y >=? height rect - margin)
       then Some (lit "bottom_right")
  else if pos_x <=? margin then Some (lit "left")
  else if pos_x >=? width rect - margin then Some (lit "right")
  else if pos_y <=? margin then Some (lit "top")
  else if pos_y >=? height rect - margin then Some (lit "bottom")
  else None.

(** [_resize_window(global_pos)] for a window whose [geometry()] is
    [geometry]: the rectangle it hands to [setGeometry], or [None] when
    a setter raises. *)
Definition _resize_window (geometry : QRect) (resize_direction : str)
    (global_x global_y : Z) : option QRect :=
  let rect := geometry in
  rect ← (if contains resize_direction (lit "right") then setRight global_x rect
          else if contains resize_direction (lit "left") then setLeft global_x rect
          else Some rect);
  rect ← (if contains resize_direction (lit "bottom") then setBottom global_y rect
          else if contains resize_direction (lit "top") then setTop global_y rect
          else Some rect);
  rect ← (if width rect <? 800 then
            if contains resize_direction (lit "left")
            then setLeft (right rect - 800) rect
            else setRight (left rect + 800) rect
          else Some rect);
  rect ← (if height rect <? 500 then
            if contains resize_direction (lit "top")
            then setTop (bottom rect - 500) rect
            else setBottom (top rect + 500) rect
          else Some rect);
  Some rect.

End Window.

(** ** The accounts tree as [load_accounts] builds it *)

Module Tree.

(** The order of two TEXT values under SQLite's default collation (the
    order of their UTF-8 octets, which is the order of the code
    points); NULL sorts first. *)
Fixpoint str_le (a b : str) : bool :=
  match a, b with
  | [], _ => true
  | _ :: _, [] => false
  | x :: a', y :: b' => (x <? y)%N || ((x =? y)%N && str_le a' b')
  end.

Definition name_le (a b : option str) : bool :=
  match a, b with
  | None, _ => true
  | Some _, None => false
  | Some x, Some y => str_le x y
  end.

(** [SELECT id, name FROM groups ORDER BY name] *)
Definition select_groups (db : DB) : list (Z * option str) :=
  merge_sort (λ x y, Is_true (name_le x.2 y.2)) (map_to_list (groups db)).

(** [SELECT username, alias, group_id FROM accounts ORDER BY username] *)
Definition select_accounts (db : DB) : list (str * account) :=
  merge_sort (λ x y, Is_true (str_le x.1 y.1)) (map_to_list (accounts db)).

(** The key of [group_items.get(group_id, ungrouped)]: the node of the
    group when [group_items] has one for this id, the Ungrouped node
    ([None]) otherwise.  [group_items] has a node for each row of the
    groups table. *)
Definition parent_key (db : DB) (a : account) : option Z :=
  match group_id a with
  | PInt g => if bool_decide (is_Some (groups db !! g)) then Some g else None
  | _ => None
  end.

(** [parent_item.addChild(child)] on the top-level nodes, each with its
    key and its children so far. *)
Definition add_child (key : option Z) (child : item)
    (nodes : list (option Z * list item)) : list (option Z * list item) :=
  (λ n, if decide (n.1 = key) then (n.1, n.2 ++ [child]) else n) <$> nodes.

(** The tree [load_accounts] leaves in [self.account_list]: the
    Ungrouped node first, then one node per group in the order of
    their names, the accounts added one by one, in the order of their
    usernames, under the node of their group. *)
Definition load_accounts_tree (db : DB) : list item :=
  let group_rows := select_groups db in
  let accounts := select_accounts db in
  let nodes := (None, []) :: ((λ g : Z * option str, (Some g.1, [])) <$> group_rows) in
  let nodes :=
    foldl (λ nodes ua, add_child (parent_key db ua.2) (AccountItem ua.1 []) nodes)
          nodes accounts in
  (λ n, GroupItem n.1 n.2) <$> nodes.

(** The children the node with key [k] ends up with. *)
Definition kids (db : DB) (k : option Z) : list item :=
  (λ ua : str * account, AccountItem ua.1 [])
    <$> filter (λ ua, parent_key db ua.2 = k) (select_accounts db).

(** The [group_id] an account has once the tree built from the store is
    written back: its own when the group exists, NULL otherwise. *)
Definition shown_group (db : DB) (a : account) : pyval :=
  match parent_key db a with
  | Some g => PInt g
  | None => PNone
  end.

End Tree.

(** ** The key file: [_win_protect], [_win_unprotect] and the first
    call of [_get_fernet]

    [Cipher._get_fernet] above takes the key that the first call ends up
    with as given by the host.  Here is how that call comes by it: from
    the key file, from the key file of an earlier release, or from the
    random source. *)

Module KeyFile.

(** The two places of the key file: [_KEY_FILE_OLD], next to the
    database, and [_KEY_FILE], under the user's application data.  They
    are taken to be two different files. *)
Inductive path := KEY_FILE_OLD | KEY_FILE.

#[global] Instance path_eq_dec : EqDecision path.
Proof. solve_decision. Defined.

(** How an operation that writes to the disk ends: normally, or with an
    exception; the disk may have changed in both cases. *)
Inductive io (D : Type) :=
| Done (d : D)
| Raised (d : D).

Arguments Done {D} d.
Arguments Raised {D} d.

(** The file system, as far as the function uses it. *)
Class Disk := {
  disk : Type;
  makedirs : disk → io disk;              (* os.makedirs(_KEY_DIR_NEW, exist_ok=True) *)
  exists_ : path → disk → bool;           (* os.path.exists(p) *)
  read : path → disk → option bytes;      (* open(p, "rb").read(); None when it raises *)
  write : path → bytes → disk → io disk;  (* open(p, "wb").write(b) *)
  remove : path → disk → io disk;         (* os.remove(p) *)
}.

(** Windows' data protection as [ctypes] reaches it: whether
    [ctypes.windll] offers the two libraries, and the blob each call
    hands out when it reports success. *)
Class Crypt32 := {
  windll : bool;
  CryptProtectData : bytes → option bytes;
  CryptUnprotectData : bytes → option bytes;
}.

(** [Fernet(key)] for a key in its text form, [None] being the
    [ValueError] for a malformed one, and the successive readings of
    [os.urandom(32)]. *)
Class FernetKeys (F : Fernet) := {
  Fernet_new : bytes → option key;
  urandom32_at : nat → bytes;
}.

Section KeyFile.
Context {F : Fernet} {D : Disk} {C : Crypt32} {K : FernetKeys F}.

Definition _win_protect (data : bytes) : option bytes :=
  if negb windll then None
  else match CryptProtectData data with
       | Some buf => Some buf
       | None => None
       end.

Definition _win_unprotect (data : bytes) : option bytes :=
  if negb windll then None
  else match CryptUnprotectData data with
       | Some buf => Some buf
       | None => None
       end.

(** [Fernet.generate_key()] at the [n]-th reading of the random source. *)
Definition generate_key (n : nat) : bytes := urlsafe_b64encode (urandom32_at n).

(** The first step of [_get_fernet]: a key file at the old place, and
    none at the new one, is moved to the new place, wrapped when the
    data protection works.  Whatever goes wrong here is ignored. *)
Definition move_old_key (d : disk) : disk :=
  if exists_ KEY_FILE_OLD d && negb (exists_ KEY_FILE d) then
    match read KEY_FILE_OLD d with
    | Some old_key =>
      let protected :=
        if truthy (_win_protect old_key) then default [] (_win_protect old_key)
        else old_key in
      match write KEY_FILE protected d with
      | Done d1 =>
        match remove KEY_FILE_OLD d1 with
        | Done d2 => d2
        | Raised d2 => d2
        end
      | Raised d1 => d1
      end
    | None => d
    end
  else d.

(** The second step: [key_bytes] after the key file has been read.  The
    outer [None] is an exception that leaves the [try] block. *)
Definition read_key (d : disk) : option (option bytes) * disk :=
  if exists_ KEY_FILE d then
    match read KEY_FILE d with
    | None => (None, d)
    | Some stored =>
      let unprotected := _win_unprotect stored in
      if truthy unprotected then (Some unprotected, d)
      else
        match Fernet_new stored with
        | None => (Some None, d)
        | Some _ =>
          let protected := _win_protect stored in
          if truthy protected then
            match write KEY_FILE (default [] protected) d with
            | Done d' => (Some (Some stored), d')
            | Raised d' => (Some None, d')
            end
          else (Some (Some stored), d)
        end
    end
  else (Some None, d).

(** The [try] block of [_get_fernet]: the cipher it assigns to
    [_FERNET], or [None] when it raises. *)
Definition load_key (d : disk) (w : world) : option key * disk * world :=
  match makedirs d with
  | Raised d0 => (None, d0, w)
  | Done d0 =>
    match read_key (move_old_key d0) with
    | (None, d2) => (None, d2, w)
    | (Some key_bytes, d2) =>
      if negb (truthy key_bytes) then
        let key_bytes := generate_key (ticks w) in
        let protected := _win_protect key_bytes in
        match write KEY_FILE
                (if truthy protected then default [] protected else key_bytes) d2 with
        | Done d3 => (Fernet_new key_bytes, d3, tick w)
        | Raised d3 => (None, d3, tick w)
        end
      else (Fernet_new (default [] key_bytes), d2, w)
    end
  end.

(** [_get_fernet()] with the disk it works on.  When the [try] block
    raises, a key from the random source is used and kept in memory
    only; the result is [None] when even that raises. *)
Definition _get_fernet (d : disk) (w : world) : option key * disk * world :=
  match _FERNET w with
  | Some f => (Some f, d, w)
  | None =>
    match load_key d w with
    | (Some f, d', w') => (Some f, d', set_fernet (Some f) w')
    | (None, d', w') =>
      match Fernet_new (generate_key (ticks w')) with
      | Some f => (Some f, d', set_fernet (Some f) (tick w'))
      | None => (None, d', tick w')
      end
    end
  end.

(** The key file holds the key [k]: wrapped, or in the clear on a host
    whose data protection does not work. *)
Definition holds_key (k : key) (d : disk) : Prop :=
  exists_ KEY_FILE d = true
  ∧ ∃ stored, read KEY_FILE d = Some stored
      ∧ ((∃ u, _win_unprotect stored = Some u ∧ u ≠ [] ∧ Fernet_new u = Some k)
         ∨ (truthy (_win_unprotect stored) = false ∧ Fernet_new stored = Some k
            ∧ truthy (_win_protect stored) = false)).

End KeyFile.

(** What is assumed of the file system: what was written is read back,
    other files are not affected, a removed file is gone, and creating
    the directory of an existing key file does nothing. *)
Class DiskSpec (D : Disk) : Prop := {
  makedirs_keeps d d' p :
    makedirs d = Done d' → exists_ p d' = exists_ p d ∧ read p d' = read p d;
  makedirs_exists d : exists_ KEY_FILE d = true → makedirs d = Done d;
  write_read p b d d' :
    write p b d = Done d' → read p d' = Some b ∧ exists_ p d' = true;
  write_other p q b d d' :
    write p b d = Done d' → p ≠ q → exists_ q d' = exists_ q d ∧ read q d' = read q d;
  remove_gone p d d' : remove p d = Done d' → exists_ p d' = false;
  remove_other p q d d' :
    remove p d = Done d' → p ≠ q → exists_ q d' = exists_ q d ∧ read q d' = read q d;
}.

(** A disk on which these operations do not fail. *)
Class Reliable (D : Disk) : Prop := {
  makedirs_done d : ∃ d', makedirs d = Done d';
  write_done p b d : ∃ d', write p b d = Done d';
  remove_done p d : ∃ d', remove p d = Done d';
  read_done p d : exists_ p d = true → is_Some (read p d);
}.

(** What is assumed of the data protection and of Fernet keys: what was
    wrapped unwraps to itself, a key in text form is not taken for a
    wrapped one, and the empty text is no key. *)
Class KeySpec {F : Fernet} (C : Crypt32) (K : FernetKeys F) : Prop := {
  unprotect_protect b p : _win_protect b = Some p → _win_unprotect p = Some b;
  key_is_no_blob b : is_Some (Fernet_new b) → truthy (_win_unprotect b) = false;
  key_not_empty : Fernet_new [] = None;
}.

End KeyFile.

(** ** A disk, a data protection and keys to run the key file on *)

Module Fixture.
Import KeyFile.

Local Open Scope N_scope.

(** A disk that holds the two key files and never fails. *)
Record files := Files { old_file : option bytes; new_file : option bytes }.

Definition file_at (p : path) (d : files) : option bytes :=
  match p with
  | KEY_FILE_OLD => old_file d
  | KEY_FILE => new_file d
  end.

Definition put (p : path) (c : option bytes) (d : files) : files :=
  match p with
  | KEY_FILE_OLD => Files c (new_file d)
  | KEY_FILE => Files (old_file d) c
  end.

#[global] Instance plain_disk : Disk :=
  {| disk := files;
     makedirs := Done;
     exists_ := λ p d, bool_decide (is_Some (file_at p d));
     read := file_at;
     write := λ p b d, Done (put p (Some b) d);
     remove := λ p d, Done (put p None d) |}.

(** A data protection that marks what it wraps with a leading zero
    octet. *)
#[global] Instance dpapi : Crypt32 :=
  {| windll := true;
     CryptProtectData := λ b, Some (0 :: b);
     CryptUnprotectData := λ b, match b with
                                | 0 :: r => Some r
                                | _ => None
                                end |}.

(** Keys of the stand-in cipher: the text form is the URL-safe base64 of
    32 octets. *)
#[global] Instance keys : FernetKeys Sample.cipher :=
  {| Fernet_new := λ b,
       match Sample.b64decode b with
       | Some raw => if bool_decide (List.length raw = 32%nat)
                     then Some (Sample.checksum 0 raw) else None
       | None => None
       end;
     urandom32_at := λ n, replicate 32 (N.of_nat n mod 256) |}.

(** An empty disk, one with the key file of an earlier release, and one
    whose key file wraps something that is no key. *)
Definition no_files : files := Files None None.

Definition legacy_files : files := Files (Some (generate_key 5)) None.

Definition junk_files : files := Files None (Some (0 :: lit "junk")).

End Fixture.

(** * Results *)

Ltac nlia := zify; Z.to_euclidean_division_equations; lia.

(** Decide the comparisons in the goal from the hypotheses. *)
Ltac btest :=
  repeat match goal with
  | |- context [(?a <? ?b)%N] =>
    first [ replace (a <? b)%N with true by (symmetry; apply N.ltb_lt; nlia)
          | replace (a <? b)%N with false by (symmetry; apply N.ltb_ge; nlia) ]
  | |- context [(?a <=? ?b)%N] =>
    first [ replace (a <=? b)%N with true by (symmetry; apply N.leb_le; nlia)
          | replace (a <=? b)%N with false by (symmetry; apply N.leb_gt; nlia) ]
  | |- context [(?a =? ?b)%N] =>
    first [ replace (a =? b)%N with true by (symmetry; apply N.eqb_eq; nlia)
          | replace (a =? b)%N with false by (symmetry; apply N.eqb_neq; nlia) ]
  end.

(** ** UTF-8 and percent-encoding *)

Module PyFacts.

Local Open Scope N_scope.

Lemma decode_encode_cp c b r :
  encode_cp c = Some b → decode_utf8 (b ++ r) = cons c <$> decode_utf8 r.
Proof.
  unfold encode_cp, is_surrogate.
  destruct (N.ltb_spec c 0x80).
  { intros [= <-]. simpl. btest. done. }
  destruct (N.ltb_spec c 0x800).
  { intros [= <-]. cbn [app decode_utf8]. unfold is_cont. btest. simpl.
    do 2 f_equal. nlia. }
  destruct (N.ltb_spec c 0x10000).
  { destruct (N.leb_spec 0xD800 c), (N.leb_spec c 0xDFFF); simpl; try done;
    intros [= <-]; cbn [app decode_utf8]; unfold is_cont, is_surrogate.
    all: replace ((224 + c / 4096 - 224) * 4096 + (128 + (c / 64) mod 64 - 128) * 64 + (128 + c mod 64 - 128)) with c by nlia.
    all: btest; simpl; first [done | exfalso; nlia]. }
  destruct (N.ltb_spec c 0x110000); [|done].
  intros [= <-]; cbn [app decode_utf8]; unfold is_cont.
  replace ((240 + c / 262144 - 240) * 262144 + (128 + (c / 4096) mod 64 - 128) * 4096 + (128 + (c / 64) mod 64 - 128) * 64 + (128 + c mod 64 - 128)) with c by nlia.
  btest. simpl. done.
Qed.

Lemma decode_encode s b : encode_utf8 s = Some b → decode_utf8 b = Some s.
Proof.
  revert b. induction s as [|c s IH]; intros b; simpl.
  - by intros [= <-].
  - destruct (encode_cp c) as [bc|] eqn:Hc; [|done]. simpl.
    destruct (encode_utf8 s) as [bs|] eqn:Hs; [|done]. simpl.
    intros [= <-]. rewrite (decode_encode_cp _ _ _ Hc), (IH _ eq_refl). done.
Qed.

Lemma encode_cp_wf c b : encode_cp c = Some b → wf_bytes b.
Proof.
  unfold encode_cp, wf_bytes.
  repeat case_match; intros [= <-]; repeat constructor;
  repeat match goal with H : (_ <? _) = _ |- _ => first [apply N.ltb_lt in H | apply N.ltb_ge in H] end; nlia.
Qed.

Lemma encode_wf s b : encode_utf8 s = Some b → wf_bytes b.
Proof.
  revert b. induction s as [|c s IH]; intros b; simpl.
  - intros [= <-]. constructor.
  - destruct (encode_cp c) as [bc|] eqn:Hc; [|done]. simpl.
    destruct (encode_utf8 s) as [bs|] eqn:Hs; [|done]. simpl.
    intros [= <-]. apply Forall_app. split; [by eapply encode_cp_wf | by apply IH].
Qed.

Lemma decode_ascii b : ascii_only b → decode_utf8 b = Some b.
Proof.
  induction 1 as [|x b Hx _ IH]; [done|]. simpl.
  apply N.ltb_lt in Hx. rewrite Hx, IH. done.
Qed.

Lemma encode_ascii s : ascii_only s → encode_utf8 s = Some s.
Proof.
  induction 1 as [|x b Hx _ IH]; [done|]. simpl. unfold encode_cp.
  apply N.ltb_lt in Hx. rewrite Hx, IH. done.
Qed.

Lemma encode_app s t : encode_utf8 (s ++ t) = a ← encode_utf8 s; b ← encode_utf8 t; Some (a ++ b).
Proof.
  induction s as [|c s IH]; simpl.
  - by destruct (encode_utf8 t).
  - destruct (encode_cp c); [|done]. simpl. rewrite IH.
    destruct (encode_utf8 s); [|done]. simpl.
    destruct (encode_utf8 t); [|done]. simpl. by rewrite (assoc_L (++)).
Qed.

Lemma quote_plus_app s t : quote_plus (s ++ t) = a ← quote_plus s; b ← quote_plus t; Some (a ++ b).
Proof.
  unfold quote_plus. rewrite encode_app.
  destruct (encode_utf8 s); [|done]. simpl.
  destruct (encode_utf8 t); [|done]. simpl. by rewrite bind_app.
Qed.

Lemma always_safe_ascii b : always_safe b = true → b < 128.
Proof.
  unfold always_safe. rewrite !orb_true_iff, !andb_true_iff, !N.leb_le, !N.eqb_eq. lia.
Qed.

Lemma quote_plus_unreserved s : unreserved s = true → quote_plus s = Some s.
Proof.
  unfold unreserved, quote_plus. intros Hs.
  assert (Ha : ascii_only s).
  { apply Forall_forall. intros x Hx. apply always_safe_ascii.
    rewrite forallb_forall in Hs. apply Hs. by apply list_elem_of_In. }
  rewrite (encode_ascii _ Ha). simpl. f_equal.
  induction s as [|x s IH]; [done|]. simpl in Hs. apply andb_true_iff in Hs as [Hx Hs].
  cbn [mbind list_bind]. unfold quote_octet at 1. rewrite Hx. simpl. f_equal.
  apply IH; [done|]. by apply Forall_inv_tail in Ha.
Qed.

Lemma digits_unreserved d : unreserved (digits d) = true.
Proof. induction d; simpl; done. Qed.

Lemma str_of_int_unreserved n : unreserved (str_of_int n) = true.
Proof. apply digits_unreserved. Qed.

End PyFacts.

Import PyFacts.

(** ** The token format *)

Module FernetFacts.

Local Open Scope N_scope.

Lemma b64_char_ascii i : b64_char i < 128.
Proof. unfold b64_char. repeat case_match; 
  repeat match goal with H : (_ <? _) = _ |- _ => first [apply N.ltb_lt in H | apply N.ltb_ge in H] end; nlia. Qed.

Lemma three_ind (P : bytes → Prop) :
  P [] → (∀ x, P [x]) → (∀ x y, P [x; y]) →
  (∀ x y z l, P l → P (x :: y :: z :: l)) → ∀ l, P l.
Proof.
  intros H0 H1 H2 H3 l.
  assert (P l ∧ (∀ x, P (x :: l)) ∧ (∀ x y, P (x :: y :: l))) as [? _]; [|done].
  induction l as [|a l (IH0 & IH1 & IH2)]; [by auto|].
  split; [apply IH1|]. split; [intros; apply IH2|]. intros x y. by apply H3.
Qed.

Lemma b64encode_ascii b : ascii_only (urlsafe_b64encode b).
Proof.
  induction b as [|x|x y|x y z l IH] using three_ind; cbn [urlsafe_b64encode];
    repeat constructor; try apply b64_char_ascii; try done.
Qed.

Lemma token_prefix now rest :
  now < 2 ^ 42 →
  startswith (urlsafe_b64encode (128 :: be64 now ++ rest)) (lit "gAAAA") = true.
Proof.
  intros Hnow. change (2 ^ 42) with 4398046511104 in Hnow.
  unfold be64.
  change (2 ^ 56) with 72057594037927936. change (2 ^ 48) with 281474976710656.
  change (2 ^ 40) with 1099511627776.
  replace (now / 72057594037927936 mod 256) with 0 by nlia.
  replace (now / 281474976710656 mod 256) with 0 by nlia.
  cbn [app urlsafe_b64encode].
  replace (now / 1099511627776 mod 256 / 4) with 0 by nlia.
  reflexivity.
Qed.

Section Token.
Context {F : Fernet}.

(** A token is ASCII text. *)
Lemma token_ascii k now iv data : ascii_only (fernet_encrypt k now iv data).
Proof. apply b64encode_ascii. Qed.

(** The version octet and the leading zero octets of the timestamp make
    every token of a clock below 2^42 seconds begin [gAAAA]. *)
Lemma token_version k now iv data :
  now < 2 ^ 42 → startswith (fernet_encrypt k now iv data) (lit "gAAAA") = true.
Proof. apply token_prefix. Qed.

End Token.
End FernetFacts.

Import FernetFacts.

(** ** The stand-in cipher keeps the Fernet contract *)

Module SampleFacts.
Import Sample.

Local Open Scope N_scope.

Lemma b64_char_not_pad i : i < 64 → b64_char i ≠ 61.
Proof. unfold b64_char. intros Hi. repeat case_match; 
  repeat match goal with H : (_ <? _) = _ |- _ => first [apply N.ltb_lt in H | apply N.ltb_ge in H] end; nlia. Qed.

Lemma b64_index_char i : i < 64 → b64_index (b64_char i) = Some i.
Proof.
  intros Hi. unfold b64_char.
  destruct (N.ltb_spec i 26). { unfold b64_index. btest. simpl. f_equal. nlia. }
  destruct (N.ltb_spec i 52). { unfold b64_index. btest. simpl. f_equal. nlia. }
  destruct (N.ltb_spec i 62). { unfold b64_index. btest. simpl. f_equal. nlia. }
  destruct (N.eqb_spec i 62) as [->|]; [done|].
  assert (i = 63) as -> by nlia. done.
Qed.

Lemma b64decode_encode b : wf_bytes b → b64decode (urlsafe_b64encode b) = Some b.
Proof.
  induction b as [|x|x y|x y z l IH] using three_ind; intros Hwf.
  - done.
  - apply Forall_cons in Hwf as [Hx _].
    cbn [urlsafe_b64encode b64decode].
    rewrite !b64_index_char by nlia. cbn [mbind option_bind].
    rewrite N.eqb_refl. f_equal. f_equal. nlia.
  - apply Forall_cons in Hwf as [Hx Hwf]. apply Forall_cons in Hwf as [Hy _].
    cbn [urlsafe_b64encode b64decode].
    rewrite !b64_index_char by nlia. cbn [mbind option_bind].
    destruct (N.eqb_spec (b64_char (y mod 16 * 4)) 61) as [He|_].
    { by apply b64_char_not_pad in He; [|nlia]. }
    f_equal. f_equal; [nlia|]. f_equal. nlia.
  - apply Forall_cons in Hwf as [Hx Hwf]. apply Forall_cons in Hwf as [Hy Hwf].
    apply Forall_cons in Hwf as [Hz Hwf].
    cbn [urlsafe_b64encode b64decode]. fold urlsafe_b64encode.
    rewrite !b64_index_char by nlia. cbn [mbind option_bind].
    destruct (N.eqb_spec (b64_char (z mod 64)) 61) as [He|_].
    { by apply b64_char_not_pad in He; [|nlia]. }
    rewrite (IH Hwf). cbn [mbind option_bind].
    f_equal. f_equal; [nlia|]. f_equal; [nlia|]. f_equal. nlia.
Qed.

Lemma be64_wf n : wf_bytes (be64 n).
Proof. unfold be64. repeat constructor; nlia. Qed.

Lemma shift_wf k data : wf_bytes (shift k <$> data).
Proof. apply Forall_fmap, Forall_true. intros x. unfold shift. simpl. nlia. Qed.

Lemma unshift_shift k data : wf_bytes data → unshift k <$> (shift k <$> data) = data.
Proof.
  induction 1 as [|x xs Hx _ IH]; [done|]. rewrite !fmap_cons, IH. f_equal.
  unfold shift, unshift. nlia.
Qed.

#[global] Instance cipher_spec : FernetSpec cipher.
Proof.
  split. intros k now iv data Hd. unfold fernet_encrypt.
  cbn [fernet_decrypt fernet_sealed cipher]. unfold unseal, seal.
  rewrite b64decode_encode.
  - cbn [mbind option_bind]. rewrite N.eqb_refl.
    change (drop 8 (be64 now ++ ?l)) with l. cbv beta iota.
    by rewrite (unshift_shift _ _ Hd), N.eqb_refl.
  - constructor; [done|]. apply Forall_app. split; [apply be64_wf|].
    constructor; [unfold checksum; nlia | apply shift_wf].
Qed.

#[global] Instance host_spec : HostSpec host.
Proof. split. intros n. simpl. change (2 ^ 42) with 4398046511104. nlia. Qed.

End SampleFacts.

(** ** Secret cipher *)

Module CipherFacts.
Section CipherFacts.
Context {F : Fernet} {host : Host F}.

Local Open Scope N_scope.

Lemma get_fernet_cached w f : _FERNET w = Some f → _get_fernet w = (inr f, w).
Proof. unfold _get_fernet. by intros ->. Qed.

Lemma is_enc_startswith v : _is_enc (Some v) = startswith v (lit "gAAAA").
Proof. unfold _is_enc. destruct v; simpl; done. Qed.

(** [_get_fernet] returns the key it leaves in the cache, and touches
    neither the clock nor the store. *)
Lemma get_fernet_caches w :
  ∃ f w', _get_fernet w = (inr f, w') ∧ _FERNET w' = Some f
    ∧ ticks w' = ticks w ∧ committed w' = committed w ∧ pending w' = pending w.
Proof.
  unfold _get_fernet. destruct (_FERNET w) as [f|] eqn:Hf.
  - by exists f, w.
  - by exists boot_key, (set_fernet (Some boot_key) w).
Qed.

(** C5.  Passthrough: for every string [v] that does not begin with the
    marker [gAAAA], the empty string included, [_dec(v)] returns [v]
    unchanged and raises nothing. *)
Theorem dec_passthrough (v : str) (w : world) :
  startswith v (lit "gAAAA") = false →
  (_dec (Some v) w).1 = inr (Some v).
Proof.
  intros Hv. destruct (get_fernet_caches w) as (f & w' & Hg & _).
  unfold _dec. unfold mbind, M_bind, bind. rewrite Hg.
  unfold try_except. rewrite is_enc_startswith, Hv. done.
Qed.

(** C3, as the code has it.  A token that begins with the marker but
    that the cipher rejects is handed back unchanged, without an
    exception: the result is the one the passthrough gives, and nothing
    tells the two apart. *)
Theorem dec_undecryptable_unchanged (v : str) (w : world) (f : key) :
  _FERNET w = Some f →
  _is_enc (Some v) = true →
  (∀ b, encode_utf8 v = Some b → fernet_decrypt f b = None) →
  _dec (Some v) w = (inr (Some v), w).
Proof.
  intros Hf _ Hbad. unfold _dec, mbind, M_bind, bind.
  rewrite (get_fernet_cached _ _ Hf). unfold try_except.
  destruct (_is_enc (Some v)); [|done].
  unfold encode, decrypt, lift. destruct (encode_utf8 v) as [b|] eqn:Hb; [|done].
  unfold ret at 1. rewrite (Hbad _ eq_refl). done.
Qed.

Context {FS : FernetSpec F} {HS : HostSpec host}.

Lemma enc_token v w data :
  encode_utf8 v = Some data →
  ∃ f w', _get_fernet w = (inr f, w') ∧ _FERNET w' = Some f ∧
    _enc (Some v) w =
      (inr (Some (fernet_encrypt f (time_at (ticks w)) (urandom_at (ticks w)) data)), tick w').
Proof.
  intros Hd. destruct (get_fernet_caches w) as (f & w' & Hg & Hc & Ht & _).
  exists f, w'. split; [done|]. split; [done|].
  unfold _enc, mbind, M_bind, bind. rewrite Hg. unfold try_except, encode, lift.
  rewrite Hd. unfold ret at 1. unfold encrypt. unfold decode, lift.
  rewrite (decode_ascii _ (token_ascii _ _ _ _)). unfold ret, mret, M_ret, ret.
  by rewrite Ht.
Qed.

Lemma dec_token w f now iv data s :
  _FERNET w = Some f → (now < 2 ^ 42) →
  encode_utf8 s = Some data →
  _dec (Some (fernet_encrypt f now iv data)) w = (inr (Some s), w).
Proof.
  intros Hf Hnow Hd. unfold _dec, mbind, M_bind, bind.
  rewrite (get_fernet_cached _ _ Hf). unfold try_except.
  rewrite is_enc_startswith, (token_version _ _ _ _ Hnow).
  unfold encode, decrypt, decode, lift.
  rewrite (encode_ascii _ (token_ascii _ _ _ _)). unfold ret at 1.
  rewrite decrypt_encrypt by (by eapply encode_wf). unfold ret at 1.
  rewrite (decode_encode _ _ Hd). done.
Qed.

(** C1.  Round trip: for every plaintext string [s], decrypting what
    [_enc] returns for [s], later in the same process and hence with the
    same cached key, returns [s]: [_dec(_enc(s)) == s].  This holds also
    for a string that has no UTF-8 encoding, which [_enc] hands back
    as it is. *)
Theorem dec_enc_roundtrip (s : str) (w : world) :
  ((_enc (Some s) ≫= _dec) w).1 = inr (Some s).
Proof.
  unfold mbind, M_bind, bind.
  destruct (encode_utf8 s) as [data|] eqn:Hd.
  - destruct (enc_token s w data Hd) as (f & w' & _ & Hc & ->).
    rewrite (dec_token (tick w') f _ _ data s); [done|done|apply clock_range|done].
  - assert (He : ∃ w', _enc (Some s) w = (inr (Some s), w')).
    { destruct (get_fernet_caches w) as (f & w' & Hg & _). exists w'.
      unfold _enc, mbind, M_bind, bind. rewrite Hg. unfold try_except, encode, lift.
      by rewrite Hd. }
    destruct He as [w' ->].
    destruct (get_fernet_caches w') as (f & w'' & Hg & _).
    unfold _dec, mbind, M_bind, bind. rewrite Hg. unfold try_except, encode, lift.
    rewrite Hd. by destruct (_is_enc (Some s)).
Qed.

End CipherFacts.
End CipherFacts.

Import CipherFacts.

(** ** The connection and its transactions *)

(** A column the program finds by its name is one SQLite finds. *)
Lemma has_col_sql c cols : has_col c cols = true → sql_has_col c cols = true.
Proof.
  unfold has_col, sql_has_col. rewrite !bool_decide_eq_true. apply list_elem_of_fmap_2.
Qed.

Ltac sql_cols :=
  repeat match goal with
  | H : has_col ?c ?cols = true |- context [sql_has_col ?c ?cols] =>
    rewrite (has_col_sql c cols H)
  end.

Module StoreFacts.
Section StoreFacts.
Context {F : Fernet} {E : Sqlite}.

Lemma execute_dml s w db :
  is_dml s = true → apply s (view w) = inr db →
  execute s w = (inr (), stage db w).
Proof. intros Hs Ha. unfold execute. by rewrite Ha, Hs. Qed.

Lemma stage_staged db w : stage db w = staged [db] (set_pending (Some db) w).
Proof. reflexivity. Qed.

Lemma staged_stage dbs p db w :
  staged dbs (set_pending p (stage db w)) = staged (db :: dbs) (set_pending p w).
Proof. unfold staged, set_pending, stage. simpl. by rewrite <- app_assoc. Qed.

Lemma staged_app dbs1 dbs2 w : staged dbs2 (staged dbs1 w) = staged (dbs1 ++ dbs2) w.
Proof. unfold staged. simpl. by rewrite <- app_assoc. Qed.

Lemma staged_nil w : staged [] w = w.
Proof. destruct w. unfold staged. simpl. by rewrite app_nil_r. Qed.

Lemma commit_staged dbs db w :
  commit (staged dbs (set_pending (Some db) w)) = staged dbs (publish db w).
Proof. reflexivity. Qed.

Lemma rollback_staged dbs p w :
  rollback (staged dbs (set_pending p w)) = staged dbs (rollback w).
Proof. reflexivity. Qed.


Lemma for_execute_dml {A} (f : A → stmt) xs w db db' :
  Forall (λ x, is_dml (f x) = true) xs →
  view w = db → apply_all (f <$> xs) db = inr db' → xs ≠ [] →
  for_ xs (λ x, execute (f x)) w
  = (inr (), staged (states (f <$> xs) db) (set_pending (Some db') w)).
Proof.
  intros Hall. revert w db. induction Hall as [|x xs Hx Hxs IH]; intros w db Hv Ha Hne; [done|].
  simpl in Ha. cbn [states fmap list_fmap]. destruct (apply (f x) db) as [e|db1] eqn:H1; [done|].
  simpl. unfold bind. rewrite (execute_dml _ _ db1) by (by rewrite ?Hv).
  destruct xs as [|y ys].
  - simpl in Ha. injection Ha as ->. done.
  - rewrite (IH (stage db1 w) db1); [|done|done|done]. by rewrite staged_stage.
Qed.

Lemma for_ext {A} (f g : A → M unit) xs :
  (∀ x, f x = g x) → for_ xs f = for_ xs g.
Proof. intros Hfg. induction xs as [|x xs IH]; [done|]. simpl. by rewrite Hfg, IH. Qed.

Lemma commit_pending w db : commit (set_pending (Some db) w) = publish db w.
Proof. done. Qed.

Lemma apply_sync_stmt p db :
  has_col "group_id" (accounts_cols db) = true →
  apply (sync_stmt p) db = inr (set_accounts (λ m, regroup m p) db).
Proof.
  intros Hc. destruct p as [g u]. unfold sync_stmt, regroup. simpl.
  destruct g; simpl; by sql_cols.
Qed.

Lemma apply_all_sync ups db :
  has_col "group_id" (accounts_cols db) = true →
  apply_all (sync_stmt <$> ups) db = inr (set_accounts (λ m, foldl regroup m ups) db).
Proof.
  revert db. induction ups as [|p ups IH]; intros db Hc; simpl.
  - by destruct db.
  - rewrite apply_sync_stmt by done. rewrite IH by done. done.
Qed.

Lemma sync_stmt_dml p : is_dml (sync_stmt p) = true.
Proof. destruct p as [[] u]; done. Qed.

Lemma lookup_regroup_notin ups m u :
  u ∉ ups.*2 → foldl regroup m ups !! u = m !! u.
Proof.
  revert m. induction ups as [|[g v] ups IH]; intros m Hu; [done|].
  rewrite fmap_cons, not_elem_of_cons in Hu. destruct Hu as [Hne Hu].
  simpl. rewrite IH by done. unfold regroup. simpl. by rewrite lookup_alter_ne.
Qed.

Lemma lookup_regroup_in ups m g u :
  NoDup ups.*2 → (g, u) ∈ ups →
  foldl regroup m ups !! u = with_group (bound g) <$> m !! u.
Proof.
  revert m. induction ups as [|[g' v] ups IH]; intros m Hnd Hin; [by apply elem_of_nil in Hin|].
  rewrite fmap_cons in Hnd. apply NoDup_cons in Hnd as [Hv Hnd].
  apply elem_of_cons in Hin as [[= <- <-]|Hin]; simpl.
  - rewrite lookup_regroup_notin by done. unfold regroup. simpl. by rewrite lookup_alter_eq.
  - rewrite IH by done. unfold regroup. simpl.
    rewrite lookup_alter_ne; [done|]. intros ->. apply Hv.
    apply (list_elem_of_fmap_2 snd _ (g, u)), Hin.
Qed.

Lemma lookup_regroup_frame ups m u :
  option_Forall2 same_but_group (m !! u) (foldl regroup m ups !! u).
Proof.
  revert m. induction ups as [|[g v] ups IH]; intros m; simpl.
  - destruct (m !! u); by constructor.
  - specialize (IH (regroup m (g, v))). unfold regroup in IH at 1. simpl in IH.
    destruct (decide (v = u)) as [->|Hne].
    + rewrite lookup_alter_eq in IH. destruct (m !! u) as [a|]; simpl in IH.
      * inversion IH as [? a' Hs|]; subst. constructor. exact Hs.
      * inversion IH. constructor.
    + by rewrite lookup_alter_ne in IH.
Qed.

Lemma sync_run tree w :
  has_col "group_id" (accounts_cols (view w)) = true →
  tree_updates tree ≠ [] →
  _sync_groups_from_tree tree w =
    (inr (), staged (states (sync_stmt <$> tree_updates tree) (view w))
               (publish (set_accounts (λ m, foldl regroup m (tree_updates tree)) (view w)) w)).
Proof.
  intros Hc Hne. unfold _sync_groups_from_tree.
  destruct (tree_updates tree) as [|p ups] eqn:Hu; [done|].
  unfold with_conn.
  rewrite (for_ext _ (λ p, execute (sync_stmt p))) by (by intros [[] ?]).
  rewrite (for_execute_dml sync_stmt (p :: ups) w (view w)
            (set_accounts (λ m, foldl regroup m (p :: ups)) (view w))).
  - done.
  - apply Forall_true. intros. apply sync_stmt_dml.
  - done.
  - by apply apply_all_sync.
  - done.
Qed.

Lemma bind_eq {A B} (m : M A) (k : A → M B) w :
  bind m k w = match m w with
               | (inr a, w') => k a w'
               | (inl e, w') => (inl e, w')
               end.
Proof. reflexivity. Qed.

Lemma with_conn_eq {A} (m : M A) w :
  with_conn m w = match m w with
                  | (inr a, w') => (inr a, commit w')
                  | (inl e, w') => (inl e, rollback w')
                  end.
Proof. reflexivity. Qed.

Lemma view_idle w : pending w = None → view w = committed w.
Proof. unfold view. by intros ->. Qed.

Lemma execute_ddl_idle s w db :
  pending w = None → is_dml s = false → apply s (committed w) = inr db →
  execute s w = (inr (), publish db w).
Proof. intros Hp Hs Ha. unfold execute. by rewrite (view_idle _ Hp), Ha, Hs, Hp. Qed.

Lemma execute_joins s w p db :
  pending w = Some p → apply s p = inr db →
  execute s w = (inr (), stage db w).
Proof.
  intros Hp Ha. unfold execute, view. rewrite Hp. simpl. rewrite Ha.
  by destruct (is_dml s).
Qed.

Lemma execute_raises s w e : apply s (view w) = inl e → execute s w = (inl e, w).
Proof. intros Ha. unfold execute. by rewrite Ha. Qed.

Lemma bind_inr {A B} (m : M A) (k : A → M B) w b w2 :
  bind m k w = (inr b, w2) → ∃ a w1, m w = (inr a, w1) ∧ k a w1 = (inr b, w2).
Proof.
  rewrite bind_eq. destruct (m w) as [[e|a] w1]; [done|]. intros Hk. by exists a, w1.
Qed.


End StoreFacts.
End StoreFacts.

Import StoreFacts.

(** ** Groups: reconcile, delete, create *)

Module ManagerFacts.
Section ManagerFacts.
Context {F : Fernet} {host : Host F} {E : Sqlite}.

Lemma ready_cols db :
  ready db = true →
  has_col "username" (accounts_cols db) = true ∧ has_col "alias" (accounts_cols db) = true
  ∧ has_col "roblosecurity" (accounts_cols db) = true
  ∧ has_col "group_id" (accounts_cols db) = true
  ∧ has_col "id" (groups_cols db) = true ∧ has_col "name" (groups_cols db) = true.
Proof. unfold ready. rewrite !andb_true_iff. tauto. Qed.

Lemma tree_updates_elem tree g u :
  (g, u) ∈ tree_updates tree ↔
  ∃ it ks, it ∈ tree ∧ ident it = g ∧ AccountItem u ks ∈ children it.
Proof.
  unfold tree_updates. rewrite list_elem_of_bind. split.
  - intros (it & Hc & Hit). apply list_elem_of_bind in Hc as (c & Hc & Hk).
    destruct c as [|v ks]; [by apply elem_of_nil in Hc|].
    apply list_elem_of_singleton in Hc as [= -> ->]. by exists it, ks.
  - intros (it & ks & Hit & <- & Hk). exists it. split; [|done].
    apply list_elem_of_bind. exists (AccountItem u ks). split; [|done].
    by apply list_elem_of_singleton.
Qed.

Lemma elem_of_flat_map {A B} (f : A → list B) l y :
  y ∈ flat_map f l ↔ ∃ x, x ∈ l ∧ y ∈ f x.
Proof.
  rewrite list_elem_of_In, in_flat_map. split; intros (x & ? & ?); exists x;
  by rewrite ?list_elem_of_In in *.
Qed.

Lemma tree_updates_usernames tree u :
  u ∈ (tree_updates tree).*2 → u ∈ flat_map usernames tree.
Proof.
  intros Hu. apply list_elem_of_fmap in Hu as ([g v] & -> & Hin). simpl.
  apply tree_updates_elem in Hin as (it & ks & Hit & _ & Hk).
  apply elem_of_flat_map. exists it. split; [done|].
  assert (Hc : v ∈ flat_map usernames (children it)).
  { apply elem_of_flat_map. exists (AccountItem v ks). split; [done|]. simpl. by left. }
  destruct it; simpl in *; [done|by right].
Qed.

(** C2, as the code has it.  Reconcile: after [_sync_groups_from_tree]
    has run over a tree in which no account occurs twice, every stored
    account shown as a direct child of a top-level group node carries
    that node's group id, and every one shown directly under the
    top-level Ungrouped node carries NULL.  An account that is the
    direct child of no top-level item (one shown deeper in the tree, or
    not at all) keeps its row: the function reads two levels of the
    tree and no more.  The reassignments are made in one transaction:
    the journal of committed states gains exactly one entry, the final
    state, so no reader sees some accounts moved and others not.  (A
    tree without account children changes nothing.) *)
Theorem sync_groups_from_tree_assigns (tree : list item) (w : world) :
  ready (view w) = true →
  NoDup (tree_updates tree).*2 →
  ∃ w', _sync_groups_from_tree tree w = (inr (), w')
    ∧ (∀ gid kids u ks a,
         GroupItem gid kids ∈ tree → AccountItem u ks ∈ kids →
         accounts (view w) !! u = Some a →
         accounts (committed w') !! u
         = Some (with_group (match gid with Some g => PInt g | None => PNone end) a))
    ∧ (∀ u, (∀ it ks, it ∈ tree → AccountItem u ks ∉ children it) →
            accounts (view w') !! u = accounts (view w) !! u)
    ∧ ((tree_updates tree = [] ∧ w' = w)
       ∨ (journal w' = journal w ++ [committed w'] ∧ pending w' = None)).
Proof.
  intros Hr Hnd. apply ready_cols in Hr as (_ & _ & _ & Hc & _).
  destruct (decide (tree_updates tree = [])) as [Hnil|Hne].
  - exists w. split; [|split; [|split]].
    + unfold _sync_groups_from_tree. by rewrite Hnil.
    + intros gid kids u ks a Hg Hk _.
      assert (Hin : (ident (GroupItem gid kids), u) ∈ tree_updates tree).
      { apply tree_updates_elem. by exists (GroupItem gid kids), ks. }
      rewrite Hnil in Hin. by apply elem_of_nil in Hin.
    + done.
    + by left.
  - eexists. split; [by apply sync_run|]. split; [|split; [|by right]].
    + intros gid kids u ks a Hg Hk Ha. simpl.
      rewrite (lookup_regroup_in _ _ (ident (GroupItem gid kids)) u Hnd).
      * rewrite Ha. by destruct gid.
      * apply tree_updates_elem. by exists (GroupItem gid kids), ks.
    + intros u Hu. simpl. apply lookup_regroup_notin. intros Hin.
      apply list_elem_of_fmap in Hin as ([g v] & -> & Hin). simpl in Hu.
      apply tree_updates_elem in Hin as (it & ks & Hit & _ & Hk).
      exact (Hu it ks Hit Hk).
Qed.

(** C10.  Frame of reconcile: it changes no column but [group_id] (the
    set of usernames, every alias, secret and profile path stay, and so
    do the groups table and the schema), and an account that appears
    nowhere in the tree keeps its [group_id]. *)
Theorem sync_groups_from_tree_frame (tree : list item) (w : world) :
  ready (view w) = true →
  ∃ w', _sync_groups_from_tree tree w = (inr (), w')
    ∧ (∀ u, option_Forall2 same_but_group
              (accounts (view w) !! u) (accounts (view w') !! u))
    ∧ (∀ u, u ∉ flat_map usernames tree →
            accounts (view w') !! u = accounts (view w) !! u)
    ∧ groups (view w') = groups (view w)
    ∧ accounts_cols (view w') = accounts_cols (view w).
Proof.
  intros Hr. apply ready_cols in Hr as (_ & _ & _ & Hc & _).
  destruct (decide (tree_updates tree = [])) as [Hnil|Hne].
  - exists w. split; [unfold _sync_groups_from_tree; by rewrite Hnil|].
    split; [|done]. intros u. destruct (accounts (view w) !! u); by constructor.
  - eexists. split; [by apply sync_run|]. simpl. split; [|split; [|done]].
    + intros u. apply lookup_regroup_frame.
    + intros u Hu. apply lookup_regroup_notin. intros Hin. apply Hu.
      by apply tree_updates_usernames.
Qed.

Lemma filter_id_delete g (m : group_rows) :
  filter (λ kv : Z * option str, id_matches (PInt g) kv.1 = false) m = delete g m.
Proof.
  apply map_eq. intros i. rewrite map_lookup_filter. unfold id_matches, sql_eq. simpl.
  destruct (decide (i = g)) as [->|Hne].
  - rewrite lookup_delete_eq. destruct (m !! g); [|done]. simpl.
    rewrite option_guard_False; [done|]. by rewrite bool_decide_eq_true_2.
  - rewrite lookup_delete_ne by done. destruct (m !! i); [|done]. simpl.
    rewrite option_guard_True; [done|]. apply bool_decide_eq_false_2. congruence.
Qed.

(** C4.  [_delete_group] on the node of group [g]: the working copy of
    its transaction goes through exactly two states.  In the first,
    [db1], the members' [group_id] has been set to NULL and the group
    row still exists; in the second, [db2], the group row is gone, and
    this is the only state that is committed.  Afterwards no account
    references [g], every former member references NULL and the other
    accounts are untouched; and when no account referenced a missing
    group before, none does in either state. *)
Theorem delete_group_reassigns_then_removes (g : Z) (kids : list item) (w : world) :
  ready (view w) = true →
  ∃ db1 db2 w',
    _delete_group (GroupItem (Some g) kids) w = (inr (), w')
    ∧ trail w' = trail w ++ [db1; db2]
    ∧ journal w' = journal w ++ [db2]
    ∧ committed w' = db2
    ∧ pending w' = None
    ∧ apply (UngroupMembers (PInt g)) (view w) = inr db1
    ∧ apply (DeleteGroup (PInt g)) db1 = inr db2
    ∧ groups db1 = groups (view w)
    ∧ (∀ u a, accounts db1 !! u = Some a → group_id a ≠ PInt g)
    ∧ groups db2 = delete g (groups (view w))
    ∧ accounts db2 = accounts db1
    ∧ (∀ u a, accounts db2 !! u = Some a → group_id a ≠ PInt g)
    ∧ (∀ u a, accounts (view w) !! u = Some a → group_id a = PInt g →
              accounts db2 !! u = Some (with_group PNone a))
    ∧ (∀ u a, accounts (view w) !! u = Some a → group_id a ≠ PInt g →
              accounts db2 !! u = Some a)
    ∧ (no_dangling (view w) → no_dangling db1 ∧ no_dangling db2).
Proof.
  intros Hr. apply ready_cols in Hr as (_ & _ & _ & Hc & Hid & _).
  set (db := view w) in *.
  set (db1 := set_accounts (fmap (ungroup_if (PInt g))) db).
  set (db2 := set_groups (groups_cols db1) (delete g (groups db1)) (groups_seq db1) db1).
  assert (H1 : apply (UngroupMembers (PInt g)) db = inr db1) by (simpl; by sql_cols).
  assert (H2 : apply (DeleteGroup (PInt g)) db1 = inr db2).
  { unfold db2. rewrite <- filter_id_delete. simpl. by sql_cols. }
  assert (Hu : ∀ a, group_id a = PInt g → ungroup_if (PInt g) a = with_group PNone a).
  { intros a Ha. unfold ungroup_if, sql_eq. simpl. by rewrite bool_decide_eq_true_2. }
  assert (Hn : ∀ a, group_id a ≠ PInt g → ungroup_if (PInt g) a = a).
  { intros a Ha. unfold ungroup_if, sql_eq. simpl. by rewrite bool_decide_eq_false_2. }
  assert (Hgone : ∀ u a, accounts db1 !! u = Some a → group_id a ≠ PInt g).
  { intros u a. simpl. rewrite lookup_fmap.
    destruct (accounts db !! u) as [a0|]; [|done]. simpl. intros [= <-].
    destruct (decide (group_id a0 = PInt g)) as [Ha|Ha].
    - by rewrite Hu.
    - by rewrite Hn. }
  exists db1, db2, (publish db2 (stage db2 (stage db1 w))).
  split.
  { unfold _delete_group. simpl. unfold with_conn, mbind, M_bind, bind.
    rewrite (execute_dml _ _ db1) by done.
    rewrite (execute_dml _ (stage db1 w) db2) by done. done. }
  split; [simpl; by rewrite <- app_assoc|].
  do 9 (split; [done|]).
  split; [exact Hgone|]. split; [|split].
  - intros u a Ha Hg. simpl. by rewrite lookup_fmap, Ha, <- Hu.
  - intros u a Ha Hg. simpl. rewrite lookup_fmap, Ha. simpl. by rewrite Hn.
  - intros Hnd.
    assert (Hk : ∀ u a, accounts db1 !! u = Some a →
              group_id a = PNone ∨ ∃ i, group_id a = PInt i ∧ i ≠ g ∧ is_Some (groups db !! i)).
    { intros u a. simpl. rewrite lookup_fmap.
      destruct (accounts db !! u) as [a0|] eqn:Ha0; [|done]. simpl. intros [= <-].
      destruct (decide (group_id a0 = PInt g)) as [Ha|Ha].
      - rewrite Hu by done. by left.
      - rewrite Hn by done. destruct (Hnd u a0 Ha0) as [?|(i & Hi & Hs)]; [by left|].
        right. exists i. split; [done|]. split; [congruence|done]. }
    split; intros u a Ha; destruct (Hk u a Ha) as [?|(i & Hi & Hig & Hs)]; try by left.
    + right. by exists i.
    + right. exists i. split; [done|]. simpl. by rewrite lookup_delete_ne.
Qed.

Lemma rollback_idle w : pending w = None → rollback w = w.
Proof. destruct w. simpl. by intros ->. Qed.




End ManagerFacts.
End ManagerFacts.

(** ** Startup migration *)

Module MigrateFacts.
Section MigrateFacts.
Context {F : Fernet} {host : Host F} {E : Sqlite}.

Lemma migrate_table_stages :
  migrate_table =
  (add_column "roblosecurity";; add_column "group_id";; rebuild_groups;; encrypt_secrets).
Proof. reflexivity. Qed.

Lemma add_column_present c w :
  has_col c (accounts_cols (view w)) = true → add_column c w = (inr (), w).
Proof. intros Hc. unfold add_column, mbind, M_bind, bind, table_info_accounts. by rewrite Hc. Qed.

Lemma add_column_run c w r w' :
  pending w = None → add_column c w = (r, w') →
  pending w' = None ∧ ticks w' = ticks w
  ∧ (r = inr () →
     has_col c (accounts_cols (committed w')) = true
     ∧ (∀ c', has_col c' (accounts_cols (committed w)) = true →
              has_col c' (accounts_cols (committed w')) = true)
     ∧ accounts (committed w') = accounts (committed w)
     ∧ groups_cols (committed w') = groups_cols (committed w)
     ∧ groups_new (committed w') = groups_new (committed w)
     ∧ groups (committed w') = groups (committed w)
     ∧ (∀ c', lower c' ≠ lower c →
              exact_case c' (accounts_cols (committed w)) →
              exact_case c' (accounts_cols (committed w')))).
Proof.
  intros Hp. unfold add_column, mbind, M_bind, bind, table_info_accounts.
  assert (Hv : view w = committed w) by (unfold view; by rewrite Hp).
  destruct (has_col c (accounts_cols (view w))) eqn:Hc.
  { intros [= <- <-]. rewrite Hv in Hc. done. }
  unfold with_conn, execute. rewrite Hv in *. simpl apply.
  destruct (accounts_cols (committed w)) as [|c0 cols] eqn:Hcols.
  { intros [= <- <-]. simpl. done. }
  destruct (sql_has_col c (c0 :: cols)) eqn:Hs.
  { intros [= <- <-]. simpl. done. }
  rewrite Hp. simpl. intros [= <- <-]. simpl.
  split; [done|]. split; [done|]. intros _.
  split; [|split; [|do 4 (split; [done|])]].
  - unfold has_col. apply bool_decide_eq_true_2.
    change (c ∈ (c0 :: cols) ++ [c]). apply elem_of_app. right.
    by apply list_elem_of_singleton.
  - intros c'. unfold has_col. rewrite !bool_decide_eq_true. intros Hc'.
    change (c' ∈ (c0 :: cols) ++ [c]). apply elem_of_app. by left.
  - intros c' Hne. unfold exact_case, sql_has_col, has_col. intros Hx.
    change (c0 :: cols ++ [c]) with ((c0 :: cols) ++ [c]).
    assert (Hx' : lower c' ∈ lower <$> c0 :: cols ↔ c' ∈ c0 :: cols).
    { rewrite <- (bool_decide_eq_true (lower c' ∈ _)), <- (bool_decide_eq_true (c' ∈ _)).
      by rewrite Hx. }
    apply bool_decide_ext. rewrite fmap_app, !elem_of_app, Hx'.
    change (lower <$> [c]) with [lower c].
    rewrite !list_elem_of_singleton. split; intros [?|?]; try (by left).
    right. by subst c'.
Qed.


Lemma rebuild_groups_eq w :
  rebuild_groups w =
  let gcols := groups_cols (view w) in
  if bool_decide (gcols ≠ []) && negb (has_col "id" gcols)
  then match with_conn
               (execute CreateGroupsNew;;
                execute CopyDistinctNames;;
                execute DropGroups;;
                execute RenameGroupsNew) w with
       | (inl e, w') => if decide (e = OperationalError) then (inr (), w') else (inl e, w')
       | r => r
       end
  else (inr (), w).
Proof.
  unfold rebuild_groups, try_except_only, try_except, mbind, M_bind, table_info_groups.
  rewrite bind_eq. cbv zeta beta iota.
  destruct (bool_decide (groups_cols (view w) ≠ []) && negb (has_col "id" (groups_cols (view w))));
    [|done].
  destruct (with_conn _ w) as [[e|[]] w']; [|done]. by destruct (decide _).
Qed.

Lemma rebuild_groups_run w r w' :
  pending w = None → rebuild_groups w = (r, w') →
  r = inr () ∧ pending w' = None ∧ ticks w' = ticks w
  ∧ accounts (committed w') = accounts (committed w)
  ∧ accounts_cols (committed w') = accounts_cols (committed w)
  ∧ groups_settled (committed w').
Proof.
  intros Hp. rewrite rebuild_groups_eq. cbv zeta. rewrite (view_idle _ Hp).
  destruct (groups_cols (committed w)) as [|g0 gcols] eqn:Hg.
  { simpl. intros [= <- <-]. unfold groups_settled. rewrite Hg. tauto. }
  destruct (has_col "id" (g0 :: gcols)) eqn:Hid.
  { rewrite andb_false_r. intros [= <- <-]. unfold groups_settled. rewrite Hg. tauto. }
  rewrite bool_decide_eq_true_2 by done. cbn [negb andb].
  set (db1 := match groups_new (committed w) with
              | Some _ => committed w
              | None => set_groups_new (Some (∅, 0%Z)) (committed w)
              end).
  assert (Hg1 : groups_cols db1 = g0 :: gcols).
  { unfold db1. by destruct (groups_new (committed w)). }
  assert (Hn1 : is_Some (groups_new db1)).
  { unfold db1. destruct (groups_new (committed w)) eqn:Hn; simpl; [by rewrite Hn|done]. }
  assert (Ha1 : accounts db1 = accounts (committed w)
                ∧ accounts_cols db1 = accounts_cols (committed w)).
  { unfold db1. by destruct (groups_new (committed w)). }
  destruct Hn1 as [t Ht]. destruct Ha1 as [Ha1 Hc1].
  rewrite with_conn_eq. unfold mbind, M_bind. rewrite bind_eq.
  rewrite (execute_ddl_idle _ _ db1) by done. rewrite bind_eq.
  destruct (sql_has_col "name" (g0 :: gcols)) eqn:Hname.
  - set (db2 := set_groups_new
                  (Some (foldl insert_or_ignore t
                           (distinct_names (groups db1)))) db1).
    rewrite (execute_dml _ _ db2); [|done|].
    2:{ cbn [view publish pending default from_option committed]. simpl.
        rewrite Ht, Hg1. by rewrite Hname. }
    rewrite bind_eq.
    rewrite (execute_joins _ _ db2 (set_groups [] ∅ 0 db2)); [|done|].
    2:{ simpl. by rewrite Hg1. }
    destruct t as [rows seq] eqn:Et.
    pose (t2 := foldl insert_or_ignore (rows, seq)
                  (distinct_names (groups db1))).
    rewrite (execute_joins _ _ (set_groups [] ∅ 0 db2)
               (set_groups_new None (set_groups ["id"; "name"] t2.1 t2.2 (set_groups [] ∅ 0 db2))));
      [|done|].
    2:{ simpl. fold t2. by destruct t2. }
    intros [= <- <-]. simpl.
    rewrite Ha1, Hc1. do 5 (split; [done|]). unfold groups_settled. simpl. tauto.
  - rewrite (execute_raises _ _ OperationalError).
    2:{ cbn [view publish pending default from_option committed]. simpl.
        rewrite Ht, Hg1. by rewrite Hname. }
    rewrite decide_True by done. intros [= <- <-]. simpl.
    rewrite Ha1, Hc1. do 5 (split; [done|]). unfold groups_settled. right. right.
    by rewrite Hg1, Ht.
Qed.

Lemma rebuild_groups_settled w :
  pending w = None → groups_settled (committed w) →
  ∃ w', rebuild_groups w = (inr (), w') ∧ committed w' = committed w
        ∧ pending w' = None ∧ ticks w' = ticks w.
Proof.
  intros Hp Hs. rewrite rebuild_groups_eq. cbv zeta. rewrite (view_idle _ Hp).
  destruct Hs as [Hnil|[Hid|[Hname [t Ht]]]].
  - rewrite Hnil. simpl. by exists w.
  - rewrite Hid. rewrite andb_false_r. by exists w.
  - destruct (groups_cols (committed w)) as [|g0 gcols] eqn:Hg; [by exists w|].
    destruct (has_col "id" (g0 :: gcols)) eqn:Hid; [rewrite andb_false_r; by exists w|].
    rewrite bool_decide_eq_true_2 by done. cbn [negb andb].
    rewrite with_conn_eq. unfold mbind, M_bind. rewrite bind_eq.
    rewrite (execute_ddl_idle _ _ (committed w)); [|done|done|].
    2:{ simpl. by rewrite Ht. }
    rewrite bind_eq. rewrite (execute_raises _ _ OperationalError).
    2:{ cbn [view publish pending default from_option committed]. simpl.
        rewrite Ht, Hg. by rewrite Hname. }
    rewrite decide_True by done. eexists. split; [done|]. done.
Qed.

Lemma apply_all_secret ups db :
  select_ok db = true →
  apply_all (secret_stmt <$> ups) db = inr (set_accounts (λ m, foldl resecret m ups) db).
Proof.
  unfold select_ok. rewrite !andb_true_iff. intros [[_ Ha] Hr].
  revert db Ha Hr. induction ups as [|[[al c] u] ups IH]; intros db Ha Hr.
  - by destruct db.
  - cbn [fmap list_fmap apply_all]. unfold secret_stmt at 1. cbn [apply fst snd].
    rewrite Ha, Hr. cbn [andb]. rewrite IH by done. done.
Qed.

Lemma lookup_resecret_notin ups m u :
  u ∉ ups.*2 → foldl resecret m ups !! u = m !! u.
Proof.
  revert m. induction ups as [|[[al c] v] ups IH]; intros m Hu; [done|].
  rewrite fmap_cons, not_elem_of_cons in Hu. destruct Hu as [Hne Hu].
  cbn [foldl]. rewrite IH by done. unfold resecret. cbn [fst snd].
  by rewrite lookup_alter_ne.
Qed.

Lemma resecret_settles ups m :
  (∀ al c u, (al, c, u) ∈ ups → settled c = true) →
  (∀ u a, m !! u = Some a → settled (roblosecurity a) = true ∨ u ∈ ups.*2) →
  ∀ u a, foldl resecret m ups !! u = Some a → settled (roblosecurity a) = true.
Proof.
  revert m. induction ups as [|[[al c] v] ups IH]; intros m Hups Hm u a Hu.
  - destruct (Hm u a Hu) as [?|Hin]; [done|]. by apply elem_of_nil in Hin.
  - cbn [foldl] in Hu. eapply IH; [| |exact Hu].
    + intros al' c' u' Hin. eapply Hups. by right.
    + intros u' a'. unfold resecret. cbn [fst snd].
      destruct (decide (v = u')) as [->|Hne].
      * rewrite lookup_alter_eq. destruct (m !! u'); [|done]. intros [= <-].
        left. simpl. eapply Hups. by left.
      * rewrite lookup_alter_ne by done. intros Hm'.
        destruct (Hm _ _ Hm') as [?|Hin]; [by left|]. right.
        rewrite fmap_cons in Hin. apply elem_of_cons in Hin as [?|?]; [|done].
        simpl in *. congruence.
Qed.

Lemma select_secrets_eq w :
  select_secrets w =
  if select_ok (view w)
  then (inr ((λ kv, (kv.1, alias kv.2, roblosecurity kv.2))
               <$> map_to_list (accounts (view w))), w)
  else (inl OperationalError, w).
Proof. reflexivity. Qed.

Lemma rows_elem (m : gmap str account) u al c :
  (u, al, c) ∈ (λ kv : str * account, (kv.1, alias kv.2, roblosecurity kv.2)) <$> map_to_list m
  ↔ ∃ a, m !! u = Some a ∧ al = alias a ∧ c = roblosecurity a.
Proof.
  rewrite list_elem_of_fmap. split.
  - intros ([u' a] & [= -> -> ->] & Hin). apply elem_of_map_to_list in Hin. by exists a.
  - intros (a & Ha & -> & ->). exists (u, a). split; [done|]. by apply elem_of_map_to_list.
Qed.

Lemma settled_enc c : _is_enc c = true → settled c = true.
Proof. intros Hc. unfold settled. rewrite Hc. by rewrite orb_true_r. Qed.

Context {HS : HostSpec host}.

Lemma enc_cases v w :
  ∃ c' w', _enc (Some v) w = (inr c', w')
    ∧ committed w' = committed w ∧ pending w' = pending w
    ∧ ((c' = Some v ∧ encode_utf8 v = None ∧ ticks w' = ticks w)
       ∨ (_is_enc c' = true ∧ is_Some (encode_utf8 v))).
Proof.
  destruct (get_fernet_caches w) as (f & w' & Hg & Hc & Ht & Hco & Hpe).
  unfold _enc, mbind, M_bind. rewrite bind_eq, Hg.
  unfold try_except, encode, decode, encrypt, lift. rewrite !bind_eq.
  destruct (encode_utf8 v) as [data|] eqn:Hd.
  - unfold ret at 1. cbv beta iota. rewrite bind_eq.
    rewrite (decode_ascii _ (token_ascii _ _ _ _)). unfold ret at 1. cbv beta iota.
    eexists _, _. split; [reflexivity|]. split; [done|]. split; [done|].
    right. split; [|done]. rewrite is_enc_startswith. apply token_version, clock_range.
  - unfold raise at 1. cbv beta iota.
    eexists _, _. split; [reflexivity|]. split; [done|]. split; [done|]. by left.
Qed.

Lemma settled_cases c :
  settled c = true ↔
  truthy c = false ∨ _is_enc c = true ∨ (∃ v, c = Some v ∧ encode_utf8 v = None).
Proof.
  unfold settled. rewrite !orb_true_iff, negb_true_iff, bool_decide_eq_true.
  split.
  - intros [[?|?]|Hx]; [by left|by right; left|].
    destruct c as [v|]; [|by left]. right. right. by exists v.
  - intros [?|[?|(v & -> & Hv)]]; [by left; left|by left; right|by right].
Qed.

Lemma collect_updates_run rows w :
  ∃ ups w', collect_updates rows w = (inr ups, w')
    ∧ committed w' = committed w ∧ pending w' = pending w
    ∧ (∀ al c u, (al, c, u) ∈ ups →
         _is_enc c = true ∧ ∃ c0, (u, al, c0) ∈ rows ∧ _is_enc c0 = false)
    ∧ (∀ u al c, (u, al, c) ∈ rows → settled c = true ∨ ∃ c', (al, c', u) ∈ ups)
    ∧ (Forall (λ r, settled r.2 = true) rows → ups = [] ∧ ticks w' = ticks w).
Proof.
  revert w. induction rows as [|[[u al] c] rows IH]; intros w.
  { exists [], w. split; [done|]. split; [done|]. split; [done|].
    split; [intros ??? Hin; by apply elem_of_nil in Hin|].
    split; [intros ??? Hin; by apply elem_of_nil in Hin|done]. }
  cbn [collect_updates]. unfold mbind, M_bind. rewrite bind_eq.
  assert (Hnew : ∃ c' w1,
    (if truthy c && negb (_is_enc c) then _enc c else mret c) w = (inr c', w1)
    ∧ committed w1 = committed w ∧ pending w1 = pending w
    ∧ ((c' = c ∧ settled c = true ∧ ticks w1 = ticks w)
       ∨ (_is_enc c' = true ∧ _is_enc c = false ∧ settled c = false ∧ c' ≠ c))).
  { destruct (truthy c && negb (_is_enc c)) eqn:Hcond.
    - apply andb_true_iff in Hcond as [Htr Hne]. apply negb_true_iff in Hne.
      destruct c as [v|]; [|done].
      destruct (enc_cases v w) as (c' & w1 & He & Hco & Hpe & [(-> & Hd & Ht)|[Hi Hd]]).
      + exists (Some v), w1. split; [done|]. split; [done|]. split; [done|]. left.
        split; [done|]. split; [|done]. apply settled_cases. right. right. by exists v.
      + exists c', w1. split; [done|]. split; [done|]. split; [done|]. right.
        split; [done|]. split; [done|]. split; [|congruence].
        apply not_true_is_false. intros Hs. apply settled_cases in Hs as [?|[?|(v' & [= <-] & Hv)]].
        * congruence.
        * congruence.
        * rewrite Hv in Hd. by destruct Hd.
    - exists c, w. split; [done|]. split; [done|]. split; [done|]. left.
      split; [done|]. split; [|done]. apply settled_cases.
      apply andb_false_iff in Hcond as [?|Hn]; [by left|].
      apply negb_false_iff in Hn. by right; left. }
  destruct Hnew as (c' & w1 & -> & Hco1 & Hpe1 & Hcase).
  destruct (IH w1) as (ups & w2 & Hrec & Hco2 & Hpe2 & Hups & Hrows & Hset).
  rewrite bind_eq, Hrec. unfold mret, M_ret, ret.
  eexists _, w2. split; [reflexivity|]. split; [congruence|]. split; [congruence|].
  destruct Hcase as [(-> & Hs & Ht)|(Hi & Hi0 & Hs & Hne)].
  - rewrite bool_decide_eq_false_2 by tauto.
    split; [|split].
    + intros al' c1 u' Hin. destruct (Hups _ _ _ Hin) as [? (c0 & Hc0 & ?)].
      split; [done|]. exists c0. split; [by right|done].
    + intros u' al' c1 Hin. apply elem_of_cons in Hin as [[= -> -> ->]|Hin]; [by left|].
      by apply Hrows.
    + intros Hall. apply Forall_cons in Hall as [_ Hall].
      destruct (Hset Hall) as [-> Ht2]. split; [done|congruence].
  - rewrite bool_decide_eq_true_2 by tauto.
    split; [|split].
    + intros al' c1 u' Hin. apply elem_of_cons in Hin as [[= -> -> ->]|Hin].
      * split; [done|]. exists c. split; [by left|done].
      * destruct (Hups _ _ _ Hin) as [? (c0 & Hc0 & ?)].
        split; [done|]. exists c0. split; [by right|done].
    + intros u' al' c1 Hin. apply elem_of_cons in Hin as [[= -> -> ->]|Hin].
      * right. exists c'. by left.
      * destruct (Hrows _ _ _ Hin) as [?|[c2 ?]]; [by left|]. right. exists c2. by right.
    + intros Hall. apply Forall_cons in Hall as [Hc _]. simpl in Hc. congruence.
Qed.

Lemma encrypt_secrets_run w r w' :
  pending w = None → encrypt_secrets w = (r, w') →
  r = inr () ∧ pending w' = None
  ∧ accounts_cols (committed w') = accounts_cols (committed w)
  ∧ groups_cols (committed w') = groups_cols (committed w)
  ∧ groups_new (committed w') = groups_new (committed w)
  ∧ (select_ok (committed w) = true → all_settled (committed w'))
  ∧ (∀ u a, accounts (committed w) !! u = Some a →
            _is_enc (roblosecurity a) = true →
            accounts (committed w') !! u = Some a).
Proof.
  intros Hp. unfold encrypt_secrets, try_except, mbind, M_bind.
  rewrite bind_eq, select_secrets_eq, (view_idle _ Hp).
  destruct (select_ok (committed w)) eqn:Hok.
  2:{ intros [= <- <-]. done. }
  set (rows := (λ kv : str * account, (kv.1, alias kv.2, roblosecurity kv.2))
                 <$> map_to_list (accounts (committed w))).
  destruct (collect_updates_run rows w) as (ups & w1 & Hcu & Hco & Hpe & Hups & Hrows & Hset).
  rewrite bind_eq, Hcu.
  assert (Hp1 : pending w1 = None) by congruence.
  destruct (decide (ups = [])) as [->|Hne].
  - rewrite bool_decide_eq_false_2 by (by intros []). intros [= <- <-].
    rewrite Hco. do 5 (split; [done|]). split; [|done].
    intros _ u a Ha.
    destruct (Hrows u (alias a) (roblosecurity a)) as [?|[c' Hin]]; [|done|].
    + apply rows_elem. by exists a.
    + by apply elem_of_nil in Hin.
  - rewrite bool_decide_eq_true_2 by done.
    rewrite with_conn_eq.
    rewrite (for_ext _ (λ p, execute (secret_stmt p))) by (by intros [[] ?]).
    rewrite (for_execute_dml secret_stmt ups w1 (committed w)
               (set_accounts (λ m, foldl resecret m ups) (committed w))).
    2:{ apply Forall_true. by intros [[] ?]. }
    2:{ by rewrite (view_idle _ Hp1). }
    2:{ by apply apply_all_secret. }
    2:{ done. }
    intros [= <- <-]. simpl. do 5 (split; [done|]). split.
    + intros _. unfold all_settled. simpl. apply resecret_settles.
      * intros al c u Hin. apply settled_enc. by apply (Hups al c u).
      * intros u a Ha.
        destruct (Hrows u (alias a) (roblosecurity a)) as [?|[c' Hin]]; [|by left|].
        -- apply rows_elem. by exists a.
        -- right. by apply (list_elem_of_fmap_2 snd _ (alias a, c', u)).
    + intros u a Ha Hi. rewrite lookup_resecret_notin; [done|].
      intros Hin. apply list_elem_of_fmap in Hin as ([[al c] u'] & Heq & Hin).
      simpl in Heq. subst u'.
      destruct (Hups _ _ _ Hin) as [_ (c0 & Hr0 & Hc0)].
      apply rows_elem in Hr0 as (a' & Ha' & _ & ->). congruence.
Qed.

Lemma encrypt_secrets_settled w :
  pending w = None →
  (select_ok (committed w) = true → all_settled (committed w)) →
  ∃ w', encrypt_secrets w = (inr (), w') ∧ committed w' = committed w
        ∧ pending w' = None ∧ ticks w' = ticks w.
Proof.
  intros Hp Hs. unfold encrypt_secrets, try_except, mbind, M_bind.
  rewrite bind_eq, select_secrets_eq, (view_idle _ Hp).
  destruct (select_ok (committed w)) eqn:Hok.
  2:{ by exists w. }
  set (rows := (λ kv : str * account, (kv.1, alias kv.2, roblosecurity kv.2))
                 <$> map_to_list (accounts (committed w))).
  destruct (collect_updates_run rows w) as (ups & w1 & Hcu & Hco & Hpe & _ & _ & Hset).
  rewrite bind_eq, Hcu.
  destruct Hset as [-> Ht].
  { apply Forall_forall. intros [[u al] c] Hin. apply rows_elem in Hin as (a & Ha & _ & ->).
    simpl. by eapply Hs. }
  rewrite bool_decide_eq_false_2 by (by intros []).
  exists w1. split; [done|]. split; [done|]. split; [congruence|done].
Qed.

Lemma add_column_returns c w :
  pending w = None → accounts_cols (committed w) ≠ [] →
  exact_case c (accounts_cols (committed w)) →
  ∃ w', add_column c w = (inr (), w').
Proof.
  intros Hp Hne Hx. unfold add_column, mbind, M_bind, table_info_accounts.
  rewrite bind_eq. cbv beta iota. rewrite (view_idle _ Hp).
  destruct (has_col c (accounts_cols (committed w))) eqn:Hc; [by exists w|].
  rewrite with_conn_eq. unfold exact_case in Hx. rewrite Hc in Hx.
  destruct (accounts_cols (committed w)) as [|c0 cols] eqn:Hcols; [done|].
  assert (Ha : apply (AddColumn c) (committed w)
               = inr (mkDB ((c0 :: cols) ++ [c]) (accounts (committed w))
                        (has_last_played (committed w)) (groups_cols (committed w))
                        (groups (committed w)) (groups_seq (committed w))
                        (groups_new (committed w)))).
  { simpl. by rewrite Hcols, Hx. }
  eexists. by rewrite (execute_ddl_idle (AddColumn c) _ _ Hp eq_refl Ha).
Qed.

(** A column that is there under another spelling makes ALTER TABLE
    fail on the duplicate name, and with it the migration. *)
Lemma add_column_duplicate c w :
  pending w = None →
  has_col c (accounts_cols (committed w)) = false →
  sql_has_col c (accounts_cols (committed w)) = true →
  add_column c w = (inl OperationalError, w).
Proof.
  intros Hp Hc Hs. unfold add_column, mbind, M_bind, table_info_accounts.
  rewrite bind_eq. cbv beta iota. rewrite (view_idle _ Hp), Hc.
  rewrite with_conn_eq, (execute_raises _ _ OperationalError).
  - f_equal. destruct w. simpl in *. by subst.
  - rewrite (view_idle _ Hp). simpl.
    destruct (accounts_cols (committed w)) as [|c0 cols]; [done|]. by rewrite Hs.
Qed.

(** The migration returns normally whenever the accounts table exists,
    as it does after [create_table], and has the two columns to be added
    under these very names or not at all. *)
Lemma migrate_table_returns w :
  pending w = None → accounts_cols (committed w) ≠ [] →
  exact_case "roblosecurity" (accounts_cols (committed w)) →
  exact_case "group_id" (accounts_cols (committed w)) →
  ∃ w1, migrate_table w = (inr (), w1).
Proof.
  intros Hp Hne Hx1 Hx2. rewrite migrate_table_stages. unfold mbind, M_bind.
  assert (Hcol : ∀ c cols, has_col c cols = true → cols ≠ []).
  { intros c cols Hc ->. done. }
  destruct (add_column_returns "roblosecurity" w Hp Hne Hx1) as [wa Ha].
  destruct (add_column_run _ _ _ _ Hp Ha) as (Hpa & _ & Hxa).
  destruct (Hxa eq_refl) as (Hca & _ & _ & _ & _ & _ & Hka).
  destruct (add_column_returns "group_id" wa Hpa (Hcol _ _ Hca)) as [wb Hb].
  { apply Hka; [by vm_compute|done]. }
  destruct (add_column_run _ _ _ _ Hpa Hb) as (Hpb & _ & _).
  destruct (rebuild_groups wb) as [rc wc] eqn:Hc.
  destruct (rebuild_groups_run _ _ _ Hpb Hc) as (-> & Hpc & _).
  destruct (encrypt_secrets wc) as [rd wd] eqn:Hd.
  destruct (encrypt_secrets_run _ _ _ Hpc Hd) as (-> & _).
  exists wd. rewrite bind_eq, Ha. cbv beta iota. rewrite bind_eq, Hb. cbv beta iota.
  rewrite bind_eq, Hc. cbv beta iota. exact Hd.
Qed.

(** C9.  The startup migration is idempotent.  After one successful run
    of [migrate_table], a second run adds no column, does not rewrite the
    groups table and re-encrypts nothing: the database is the same and
    the cipher is never asked to encrypt (the clock and random source are
    not read).  Moreover a run on any store leaves every row whose secret
    is already in token format exactly as it was, so a run that was
    interrupted can be repeated. *)
Theorem migrate_table_idempotent (w w1 : world) :
  pending w = None →
  migrate_table w = (inr (), w1) →
  (∃ w2, migrate_table w1 = (inr (), w2)
         ∧ committed w2 = committed w1 ∧ pending w2 = None
         ∧ ticks w2 = ticks w1)
  ∧ (∀ u a, accounts (committed w) !! u = Some a →
            _is_enc (roblosecurity a) = true →
            accounts (committed w1) !! u = Some a).
Proof.
  intros Hp. rewrite migrate_table_stages. unfold mbind, M_bind.
  intros Hrun.
  apply bind_inr in Hrun as ([] & wa & Ha & Hrun).
  apply bind_inr in Hrun as ([] & wb & Hb & Hrun).
  apply bind_inr in Hrun as ([] & wc & Hc & Hd).
  destruct (add_column_run _ _ _ _ Hp Ha) as (Hpa & Hta & Hxa).
  destruct (Hxa eq_refl) as (Hca & Hma & Haa & Hga & Hna).
  destruct (add_column_run _ _ _ _ Hpa Hb) as (Hpb & Htb & Hxb).
  destruct (Hxb eq_refl) as (Hcb & Hmb & Hab & Hgb & Hnb).
  destruct (rebuild_groups_run _ _ _ Hpb Hc) as (_ & Hpc & Htc & Hac & Hcc & Hsc).
  destruct (encrypt_secrets_run _ _ _ Hpc Hd) as (_ & Hpd & Hcd & Hgd & Hnd & Hsd & Hfd).
  split.
  - assert (H1 : has_col "roblosecurity" (accounts_cols (view w1)) = true).
    { rewrite (view_idle _ Hpd), Hcd, Hcc. by apply Hmb. }
    assert (H2 : has_col "group_id" (accounts_cols (view w1)) = true).
    { by rewrite (view_idle _ Hpd), Hcd, Hcc. }
    rewrite bind_eq, (add_column_present _ _ H1). cbv beta iota.
    rewrite bind_eq, (add_column_present _ _ H2). cbv beta iota.
    destruct (rebuild_groups_settled w1 Hpd) as (w2 & Hr2 & Hc2 & Hp2 & Ht2).
    { unfold groups_settled in *. by rewrite Hgd, Hnd. }
    rewrite bind_eq, Hr2. cbv beta iota.
    destruct (encrypt_secrets_settled w2 Hp2) as (w3 & -> & Hc3 & Hp3 & Ht3).
    { rewrite Hc2. intros Hok. apply Hsd. unfold select_ok in *. by rewrite <- Hcd. }
    exists w3. split; [done|]. split; [congruence|]. split; [done|congruence].
  - intros u a Hu Hi. apply Hfd; [|done]. by rewrite Hac, Hab, Haa.
Qed.


End MigrateFacts.
End MigrateFacts.

(** ** Session launcher *)

Module LauncherFacts.
Section LauncherFacts.
Context {F : Fernet} {srv : Server}.

Lemma get_auth_ticket_unfold (roblosec place_id : str) (w : world) :
  _get_auth_ticket roblosec place_id w =
  let rq1 := first_request roblosec place_id in
  match serve (sent w) rq1 with
  | None => (inl ConnectionError, log_request rq1 w)
  | Some r1 =>
    match header r1 "x-csrf-token" with
    | Some (c :: t) =>
      let rq2 := second_request roblosec place_id r1 (c :: t) in
      match serve (sent w ++ [rq1]) rq2 with
      | None => (inl ConnectionError, log_request rq2 (log_request rq1 w))
      | Some r2 =>
        match header r2 "rbx-authentication-ticket" with
        | Some (d :: k) => (inr (d :: k), log_request rq2 (log_request rq1 w))
        | _ => (inl MissingTicket, log_request rq2 (log_request rq1 w))
        end
      end
    | _ => (inl MissingCsrfToken, log_request rq1 w)
    end
  end.
Proof.
  unfold _get_auth_ticket, mbind, M_bind, bind, post. cbv zeta.
  change (Request ticket_url _ {[ ".ROBLOSECURITY" := roblosec ]})
    with (first_request roblosec place_id).
  destruct (serve (sent w) (first_request roblosec place_id)) as [r1|]; [|done].
  cbv beta iota.
  destruct (header r1 "x-csrf-token") as [[|c t]|]; [done| |done].
  cbn [truthy negb default from_option id log_request sent].
  change (Request ticket_url _ (resp_cookies r1 ∪ _))
    with (second_request roblosec place_id r1 (c :: t)).
  destruct (serve _ (second_request roblosec place_id r1 (c :: t))) as [r2|]; [|done].
  cbv beta iota.
  by destruct (header r2 "rbx-authentication-ticket") as [[|d k]|].
Qed.

(** C6.  The ticket exchange.  If the first response carries no
    anti-forgery token (none, or an empty one: the test is [if not token]),
    the operation fails with [MissingCsrfToken] and exactly one request
    has been sent: the second POST is never attempted.  If the first
    response carries a token, the second POST is sent with it; when its
    response carries no ticket the operation fails with [MissingTicket],
    otherwise the ticket is returned. *)
Theorem get_auth_ticket_outcomes (roblosec place_id : str) (w : world) :
  (∀ r1,
     serve (sent w) (first_request roblosec place_id) = Some r1 →
     truthy (header r1 "x-csrf-token") = false →
     ∃ w', _get_auth_ticket roblosec place_id w = (inl MissingCsrfToken, w')
           ∧ sent w' = sent w ++ [first_request roblosec place_id])
  ∧ (∀ r1 (token : str) r2,
     serve (sent w) (first_request roblosec place_id) = Some r1 →
     header r1 "x-csrf-token" = Some token → token ≠ [] →
     serve (sent w ++ [first_request roblosec place_id])
           (second_request roblosec place_id r1 token) = Some r2 →
     ∃ w', sent w' = sent w ++ [first_request roblosec place_id;
                                second_request roblosec place_id r1 token]
       ∧ (truthy (header r2 "rbx-authentication-ticket") = false →
          _get_auth_ticket roblosec place_id w = (inl MissingTicket, w'))
       ∧ (∀ ticket : str,
          header r2 "rbx-authentication-ticket" = Some ticket →
          ticket ≠ [] →
          _get_auth_ticket roblosec place_id w = (inr ticket, w'))).
Proof.
  split.
  - intros r1 H1 Ht. exists (log_request (first_request roblosec place_id) w).
    split; [|done]. rewrite get_auth_ticket_unfold. cbv zeta. rewrite H1. cbv beta iota.
    by destruct (header r1 "x-csrf-token") as [[|c t]|].
  - intros r1 token r2 H1 Ht Hne H2.
    exists (log_request (second_request roblosec place_id r1 token)
              (log_request (first_request roblosec place_id) w)).
    split; [simpl; by rewrite <- (assoc_L (++))|].
    destruct token as [|c t]; [done|].
    split.
    + intros Hk. rewrite get_auth_ticket_unfold. cbv zeta. rewrite H1. cbv beta iota.
      rewrite Ht. cbv beta iota. rewrite H2. cbv beta iota.
      by destruct (header r2 "rbx-authentication-ticket") as [[|d k]|].
    + intros ticket Hk Hkn. rewrite get_auth_ticket_unfold. cbv zeta. rewrite H1. cbv beta iota.
      rewrite Ht. cbv beta iota. rewrite H2. cbv beta iota. rewrite Hk. by destruct ticket.
Qed.

Context {host : Host F}.

Lemma quote_launcher_url place_id :
  quote_plus (place_launcher_url place_id)
  = (λ q, launcher_prefix_quoted ++ q) <$> quote_plus place_id.
Proof.
  unfold place_launcher_url. rewrite quote_plus_app.
  replace (quote_plus (lit "https://assetgame.roblox.com/game/PlaceLauncher.ashx?request=RequestGame&placeId="))
    with (Some launcher_prefix_quoted) by (vm_compute; reflexivity).
  by destruct (quote_plus place_id).
Qed.

Lemma build_roblox_player_uri_run (ticket place_id : str) (w : world) :
  _build_roblox_player_uri ticket place_id w =
  (match quote_plus place_id with
   | Some q => inr (launch_descriptor ticket (str_of_int (time_ms_at (ticks w)))
                      q (str_of_int (randint_at (ticks w))))
   | None => inl UnicodeError
   end, tick w).
Proof.
  unfold _build_roblox_player_uri, mbind, M_bind, bind, launch_clock.
  fold (place_launcher_url place_id). rewrite quote_launcher_url.
  destruct (quote_plus place_id) as [q|]; [|done].
  generalize (str_of_int (time_ms_at (ticks w))) (str_of_int (randint_at (ticks w))).
  intros t r. cbn -[tick]. unfold launch_descriptor, launcher_prefix_quoted.
  reflexivity.
Qed.

Lemma percent_encoded_unreserved (ticket place_id : str) (n r : N) (q : str) :
  unreserved ticket = true → quote_plus place_id = Some q →
  percent_encoded_descriptor ticket place_id (str_of_int n) (str_of_int r)
  = Some (launch_descriptor ticket (str_of_int n) q (str_of_int r)).
Proof.
  intros Ht Hq. unfold percent_encoded_descriptor.
  cbn [mapM]. rewrite quote_launcher_url, Hq.
  rewrite (quote_plus_unreserved ticket Ht).
  rewrite !(quote_plus_unreserved (str_of_int _)) by apply str_of_int_unreserved.
  rewrite !(quote_plus_unreserved (lit _)) by reflexivity.
  generalize (str_of_int n) (str_of_int r). intros a b.
  cbn. unfold launch_descriptor, launcher_prefix_quoted. reflexivity.
Qed.

(** C8, as the code has it.  For every ticket and place identifier the
    launch descriptor is [roblox-player:], the segment [1] and the nine
    [key:value] segments launchmode, gameinfo, launchtime,
    placelauncherurl, browsertrackerid, robloxLocale, gameLocale, channel,
    LaunchExp, in that order, joined by [+]; of the values only the inner
    place-launcher URL (with the place identifier in it) is
    percent-encoded, the ticket and the others stand as they are.  The
    result is the one in which every parameter is percent-encoded
    whenever the ticket holds unreserved characters only.  (A place
    identifier that has no UTF-8 encoding makes the call raise.) *)
Theorem build_roblox_player_uri_layout (ticket place_id : str) (w : world) :
  _build_roblox_player_uri ticket place_id w =
  (match quote_plus place_id with
   | Some q => inr (launch_descriptor ticket (str_of_int (time_ms_at (ticks w)))
                      q (str_of_int (randint_at (ticks w))))
   | None => inl UnicodeError
   end, tick w)
  ∧ (unreserved ticket = true →
     (_build_roblox_player_uri ticket place_id w).1
     = from_option inr (inl UnicodeError)
         (percent_encoded_descriptor ticket place_id
            (str_of_int (time_ms_at (ticks w)))
            (str_of_int (randint_at (ticks w))))).
Proof.
  split; [apply build_roblox_player_uri_run|].
  intros Ht. rewrite build_roblox_player_uri_run. cbn [fst].
  destruct (quote_plus place_id) as [q|] eqn:Hq.
  - by rewrite (percent_encoded_unreserved _ _ _ _ q).
  - unfold percent_encoded_descriptor. cbn [mapM].
    rewrite quote_launcher_url, Hq.
    rewrite (quote_plus_unreserved ticket Ht).
    rewrite !(quote_plus_unreserved (str_of_int _)) by apply str_of_int_unreserved.
    rewrite !(quote_plus_unreserved (lit _)) by reflexivity.
    reflexivity.
Qed.

End LauncherFacts.
End LauncherFacts.

(** ** Groups and accounts: move, create, rename, alias *)

Module GroupFacts.
Import ManagerFacts MigrateFacts.
Section GroupFacts.
Context {F : Fernet} {host : Host F} {E : Sqlite}.

Lemma max_rowid_bound (rows : group_rows) i :
  is_Some (rows !! i) → (i ≤ max_rowid rows)%Z.
Proof.
  unfold max_rowid.
  apply (map_fold_weak_ind (λ r (m : group_rows), is_Some (m !! i) → (i ≤ r)%Z)).
  - rewrite lookup_empty. by intros [? ?].
  - intros j x m r Hj IH Hi. destruct (decide (i = j)) as [->|Hne]; [lia|].
    rewrite lookup_insert_ne in Hi by done. specialize (IH Hi). lia.
Qed.

Lemma next_id_fresh (rows : group_rows) seq :
  rows !! next_id rows seq = None ∧ (seq < next_id rows seq)%Z
  ∧ ∀ i, is_Some (rows !! i) → (i < next_id rows seq)%Z.
Proof.
  assert (Hb : ∀ i, is_Some (rows !! i) → (i < next_id rows seq)%Z).
  { intros i Hi. apply max_rowid_bound in Hi. unfold next_id. lia. }
  split; [|split; [unfold next_id; lia|done]].
  destruct (rows !! next_id rows seq) eqn:Hl; [|done].
  specialize (Hb _ (mk_is_Some _ _ Hl)). lia.
Qed.

Lemma with_conn_execute_idle s w db :
  pending w = None → is_dml s = true → apply s (committed w) = inr db →
  with_conn (execute s) w = (inr (), staged [db] (publish db w)).
Proof.
  intros Hp Hs Ha. rewrite with_conn_eq.
  rewrite (execute_dml s w db) by (by rewrite ?view_idle). done.
Qed.

Lemma max_rowid_le (rows : group_rows) b :
  (0 ≤ b)%Z → (∀ i, is_Some (rows !! i) → (i ≤ b)%Z) → (max_rowid rows ≤ b)%Z.
Proof.
  intros Hb. unfold max_rowid.
  apply (map_fold_weak_ind
           (λ r (m : group_rows), (∀ i, is_Some (m !! i) → (i ≤ b)%Z) → (r ≤ b)%Z)).
  - done.
  - intros j x m r Hj IH Hall.
    assert (j ≤ b)%Z by (apply Hall; rewrite lookup_insert_eq; by eexists).
    assert (r ≤ b)%Z; [|lia].
    apply IH. intros i Hi. apply Hall. rewrite lookup_insert_ne; [done|].
    intros ->. rewrite Hj in Hi. by destruct Hi.
Qed.

Lemma rowid_room (rows : group_rows) seq :
  (seq < largest_rowid)%Z → (∀ i, is_Some (rows !! i) → (i ≤ seq)%Z) →
  rowid_full rows seq = false.
Proof.
  intros Hs Hall. unfold rowid_full. apply Z.leb_gt.
  assert (max_rowid rows ≤ Z.max 0 seq)%Z.
  { apply max_rowid_le; [lia|]. intros i Hi. specialize (Hall i Hi). lia. }
  unfold largest_rowid in *. lia.
Qed.

Lemma load_accounts_ready w :
  ready (view w) = true → load_accounts w = (inr (), w).
Proof.
  intros Hr. apply ready_cols in Hr as (Hu & Ha & _ & Hg & Hi & Hn).
  unfold load_accounts. by sql_cols.
Qed.

Lemma ready_set_accounts f db : ready (set_accounts f db) = ready db.
Proof. done. Qed.

Lemma view_publish db w : view (publish db w) = db.
Proof. done. Qed.


Lemma set_group_run u gid w :
  pending w = None → ready (committed w) = true →
  (with_conn (execute (SetGroup (PInt gid) u));; load_accounts) w
  = (inr (), staged [set_accounts (alter (with_group (PInt gid)) u) (committed w)]
               (publish (set_accounts (alter (with_group (PInt gid)) u) (committed w)) w)).
Proof.
  intros Hp Hr. unfold mbind, M_bind. rewrite bind_eq.
  rewrite (with_conn_execute_idle _ _
             (set_accounts (alter (with_group (PInt gid)) u) (committed w))); [|done|done|].
  - by rewrite load_accounts_ready.
  - apply ready_cols in Hr as (_ & _ & _ & Hg & _). simpl. by sql_cols.
Qed.

Lemma set_group_null_run u w :
  pending w = None → ready (committed w) = true →
  (with_conn (execute (SetGroupNull u));; load_accounts) w
  = (inr (), staged [set_accounts (alter (with_group PNone) u) (committed w)]
               (publish (set_accounts (alter (with_group PNone) u) (committed w)) w)).
Proof.
  intros Hp Hr. unfold mbind, M_bind. rewrite bind_eq.
  rewrite (with_conn_execute_idle _ _
             (set_accounts (alter (with_group PNone) u) (committed w))); [|done|done|].
  - by rewrite load_accounts_ready.
  - apply ready_cols in Hr as (_ & _ & _ & Hg & _). simpl. by sql_cols.
Qed.

(** X1.  Moving the selected account to a group rewrites the [group_id] of
    that one row, in one commit; with no account selected nothing
    happens.  The id is stored as given: when a group with that id
    exists, no dangling reference is introduced. *)
Theorem move_selected_to_group_effect (current : option item) (g : Z) (w : world) :
  pending w = None →
  ready (committed w) = true →
  ∃ w', _move_selected_to_group current g w = (inr (), w')
    ∧ match _get_selected_username current with
      | Some (c :: s) =>
        accounts (committed w')
        = alter (with_group (PInt g)) (c :: s) (accounts (committed w))
        ∧ groups (committed w') = groups (committed w)
        ∧ journal w' = journal w ++ [committed w']
        ∧ pending w' = None
        ∧ (is_Some (groups (committed w) !! g) →
           no_dangling (committed w) → no_dangling (committed w'))
      | _ => w' = w
      end.
Proof.
  intros Hp Hr. unfold _move_selected_to_group.
  destruct (_get_selected_username current) as [[|c s]|]; [by exists w| |by exists w].
  cbn [truthy negb default]. rewrite set_group_run by done.
  eexists. split; [done|]. simpl. repeat split.
  intros Hg Hnd u a Hu. simpl in Hu |- *.
  destruct (decide (u = c :: s)) as [->|Hne].
  - rewrite lookup_alter_eq in Hu.
    apply fmap_Some in Hu as (a0 & _ & ->). right. by exists g.
  - rewrite lookup_alter_ne in Hu by done. by apply (Hnd u a).
Qed.

(** X2.  Moving an ungrouped account into a group and removing it from the
    group again leaves every account row, and every group, as it was. *)
Theorem move_then_remove_restores (u : str) (kids : list item) (g : Z)
    (a : account) (w : world) :
  pending w = None →
  ready (committed w) = true →
  u ≠ [] →
  accounts (committed w) !! u = Some a →
  group_id a = PNone →
  ∃ w', (_move_selected_to_group (Some (AccountItem u kids)) g;;
         _remove_selected_from_group (Some (AccountItem u kids))) w = (inr (), w')
    ∧ accounts (committed w') = accounts (committed w)
    ∧ groups (committed w') = groups (committed w)
    ∧ pending w' = None.
Proof.
  intros Hp Hr Hu Ha Hg. unfold _move_selected_to_group, _remove_selected_from_group.
  simpl. destruct u as [|c s]; [done|]. cbn [truthy negb default].
  unfold mbind at 1. unfold M_bind at 1. rewrite bind_eq.
  rewrite set_group_run by done. rewrite set_group_null_run by done.
  eexists. split; [done|]. simpl. repeat split.
  apply map_eq. intros v. destruct (decide (v = c :: s)) as [->|Hne].
  - rewrite !lookup_alter_eq, Ha. simpl. f_equal. destruct a. simpl in *. by subst.
  - by rewrite !lookup_alter_ne.
Qed.


Lemma insert_group_run name w :
  pending w = None → ready (committed w) = true →
  name_taken name (groups (committed w)) = false →
  rowid_full (groups (committed w)) (groups_seq (committed w)) = false →
  let db := set_groups (groups_cols (committed w))
              (<[next_id (groups (committed w)) (groups_seq (committed w)) := Some name]>
                 (groups (committed w)))
              (next_id (groups (committed w)) (groups_seq (committed w)))
              (committed w) in
  (with_conn (execute (InsertGroup name));; load_accounts) w
  = (inr (), staged [db] (publish db w)).
Proof.
  intros Hp Hr Hn Hfull db. unfold mbind, M_bind. rewrite bind_eq.
  rewrite (with_conn_execute_idle _ _ db); [|done|done|].
  2:{ apply ready_cols in Hr as (_ & _ & _ & _ & _ & Hc). simpl. sql_cols. by rewrite Hn, Hfull. }
  by rewrite load_accounts_ready.
Qed.

Lemma insert_group_full name w :
  pending w = None → ready (committed w) = true →
  name_taken name (groups (committed w)) = false →
  rowid_full (groups (committed w)) (groups_seq (committed w)) = true →
  with_conn (execute (InsertGroup name)) w = (inl OperationalError, w).
Proof.
  intros Hp Hr Hn Hfull. rewrite with_conn_eq, (execute_raises _ _ OperationalError).
  - by rewrite rollback_idle.
  - apply ready_cols in Hr as (_ & _ & _ & _ & _ & Hc). rewrite view_idle by done.
    simpl. sql_cols. by rewrite Hn, Hfull.
Qed.

(** X3.  Creating a group under a name no stored group has.  As long as
    the table has not held the largest rowid, one row is added under
    the stripped name, with an id that no group has and that is above
    every id handed out before; the other groups and all accounts stay,
    no message is shown.  If no account referenced a missing group,
    none does afterwards, and no account is a member of the new group.
    Once the largest rowid has been used, the INSERT is refused: the
    [OperationalError] is not caught, and nothing changes. *)
Theorem create_group_adds_fresh (text : str) (w : world) :
  pending w = None →
  ready (committed w) = true →
  strip text ≠ [] →
  name_taken (strip text) (groups (committed w)) = false →
  if rowid_full (groups (committed w)) (groups_seq (committed w))
  then _create_group_from_menu (Accepted text) w = (inl OperationalError, w)
  else
    ∃ w' i, _create_group_from_menu (Accepted text) w = (inr (), w')
      ∧ groups (committed w) !! i = None
      ∧ (groups_seq (committed w) < i ≤ largest_rowid)%Z
      ∧ groups (committed w') = <[i := Some (strip text)]> (groups (committed w))
      ∧ accounts (committed w') = accounts (committed w)
      ∧ shown w' = shown w
      ∧ journal w' = journal w ++ [committed w']
      ∧ (seq_ok (committed w) → seq_ok (committed w'))
      ∧ (no_dangling (committed w) →
         no_dangling (committed w')
         ∧ ∀ u a, accounts (committed w') !! u = Some a → group_id a ≠ PInt i).
Proof.
  intros Hp Hr Hne Hn. unfold _create_group_from_menu.
  destruct (strip text) as [|c s] eqn:Hs; [done|]. cbn [truthy].
  unfold try_except_only, try_except.
  destruct (rowid_full _ _) eqn:Hfull.
  { unfold mbind, M_bind. rewrite bind_eq, insert_group_full by done. done. }
  rewrite insert_group_run by done.
  destruct (next_id_fresh (groups (committed w)) (groups_seq (committed w)))
    as (Hfresh & Hseq & Hlt).
  eexists _, _. split; [done|]. simpl.
  split; [done|]. split.
  { split; [done|]. unfold rowid_full in Hfull. apply Z.leb_gt in Hfull.
    unfold next_id. lia. }
  split; [done|]. split; [done|]. split; [done|].
  split; [done|]. split.
  - intros Hok i. simpl. intros Hi.
    destruct (decide (i = next_id (groups (committed w)) (groups_seq (committed w))))
      as [->|Hd]; [lia|].
    rewrite lookup_insert_ne in Hi by done. specialize (Hlt _ Hi). lia.
  - intros Hnd. split.
    + intros u a Ha. simpl in Ha |- *.
      destruct (Hnd u a Ha) as [?|(i & Hi & Hsome)]; [by left|].
      right. exists i. split; [done|].
      rewrite lookup_insert_ne; [done|]. intros <-. rewrite Hfresh in Hsome.
      by destruct Hsome.
    + intros u a Ha Hg. simpl in Ha.
      destruct (Hnd u a Ha) as [?|(i & Hi & Hsome)]; [congruence|].
      rewrite Hg in Hi. injection Hi as <-. rewrite Hfresh in Hsome. by destruct Hsome.
Qed.

Lemma delete_group_run g kids w :
  pending w = None → ready (committed w) = true →
  _delete_group (GroupItem (Some g) kids) w
  = (inr (),
     staged [set_accounts (fmap (ungroup_if (PInt g))) (committed w);
             set_groups (groups_cols (committed w)) (delete g (groups (committed w)))
               (groups_seq (committed w))
               (set_accounts (fmap (ungroup_if (PInt g))) (committed w))]
       (publish (set_groups (groups_cols (committed w)) (delete g (groups (committed w)))
                   (groups_seq (committed w))
                   (set_accounts (fmap (ungroup_if (PInt g))) (committed w))) w)).
Proof.
  intros Hp Hr. apply ready_cols in Hr as (_ & _ & _ & Hc & Hid & _).
  unfold _delete_group. simpl. unfold mbind, M_bind. rewrite with_conn_eq, bind_eq.
  rewrite (execute_dml _ _ (set_accounts (fmap (ungroup_if (PInt g))) (committed w))).
  2: done. 2:{ rewrite view_idle by done. simpl. by sql_cols. }
  rewrite (execute_joins _ _ (set_accounts (fmap (ungroup_if (PInt g))) (committed w))
             (set_groups (groups_cols (committed w)) (delete g (groups (committed w)))
                (groups_seq (committed w))
                (set_accounts (fmap (ungroup_if (PInt g))) (committed w)))); [|done|].
  - cbn [commit pending stage]. unfold publish, staged, stage. simpl.
    by rewrite <- app_assoc.
  - rewrite <- filter_id_delete. simpl. by sql_cols.
Qed.

(** X4.  The id of a deleted group is not handed out again: as long as
    the table has not held the largest rowid, a group created after
    the deletion gets an id above the deleted one, so accounts cannot
    slip into it through a stale reference. *)
Theorem deleted_group_id_not_reused (g : Z) (kids : list item) (text : str)
    (w : world) :
  pending w = None →
  ready (committed w) = true →
  seq_ok (committed w) →
  (groups_seq (committed w) < largest_rowid)%Z →
  is_Some (groups (committed w) !! g) →
  strip text ≠ [] →
  name_taken (strip text) (delete g (groups (committed w))) = false →
  ∃ w' i, (_delete_group (GroupItem (Some g) kids);;
           _create_group_from_menu (Accepted text)) w = (inr (), w')
    ∧ groups (committed w') = <[i := Some (strip text)]> (delete g (groups (committed w)))
    ∧ (g < i ≤ largest_rowid)%Z
    ∧ seq_ok (committed w').
Proof.
  intros Hp Hr Hok Hroom Hg Hne Hn.
  assert (Hfull : rowid_full (delete g (groups (committed w))) (groups_seq (committed w))
                  = false).
  { apply rowid_room; [done|]. intros i Hi. apply Hok.
    destruct (decide (i = g)) as [->|Hd]; [done|]. by rewrite lookup_delete_ne in Hi. }
  unfold mbind at 1. unfold M_bind at 1. rewrite bind_eq, delete_group_run by done.
  unfold _create_group_from_menu.
  destruct (strip text) as [|c s] eqn:Hs; [done|]. cbn [truthy].
  unfold try_except_only, try_except. rewrite insert_group_run by done.
  eexists _, _. split; [done|]. simpl. split; [done|].
  destruct (next_id_fresh (delete g (groups (committed w))) (groups_seq (committed w)))
    as (Hfresh & Hseq & Hlt).
  split.
  { split; [specialize (Hok g Hg); lia|].
    unfold rowid_full in Hfull. apply Z.leb_gt in Hfull. unfold next_id. lia. }
  intros i. simpl. intros Hi.
  destruct (decide (i = next_id (delete g (groups (committed w))) (groups_seq (committed w))))
    as [->|Hd]; [lia|].
  rewrite lookup_insert_ne in Hi by done. specialize (Hlt _ Hi). lia.
Qed.

Lemma lstrip_all_space text : forallb isspace text = true → lstrip text = [].
Proof.
  induction text as [|c t IH]; [done|]. simpl. intros [Hc Ht]%andb_true_iff.
  rewrite Hc. by apply IH.
Qed.

(** X5.  A name made of white space only, like a dismissed dialog, creates no
    group and changes nothing. *)
Theorem create_group_blank_ignored (text : str) (w : world) :
  forallb isspace text = true →
  _create_group_from_menu (Accepted text) w = (inr (), w)
  ∧ _create_group_from_menu Rejected w = (inr (), w).
Proof.
  intros Hsp. split; [|done]. unfold _create_group_from_menu, strip.
  by rewrite (lstrip_all_space text Hsp).
Qed.


Lemma id_matches_int g i : id_matches (PInt g) i = bool_decide (i = g).
Proof.
  unfold id_matches, sql_eq. simpl. apply bool_decide_ext. split; congruence.
Qed.

Lemma rename_rows g name old (m : group_rows) :
  m !! g = Some old →
  map_imap (λ i v, Some (if id_matches (PInt g) i then Some name else v)) m
  = <[g := Some name]> m.
Proof.
  intros Hg. apply map_eq. intros i. rewrite map_lookup_imap, id_matches_int.
  destruct (decide (i = g)) as [->|Hne].
  - rewrite lookup_insert_eq, Hg. simpl. by rewrite bool_decide_eq_true_2.
  - rewrite lookup_insert_ne by done. destruct (m !! i); [|done]. simpl.
    by rewrite bool_decide_eq_false_2.
Qed.

Lemma apply_rename g name old db :
  ready db = true → groups db !! g = Some old →
  apply_edit (RenameGroup name (PInt g)) db
  = if name_taken name (delete g (groups db)) then inl IntegrityError
    else inr (set_groups (groups_cols db) (<[g := Some name]> (groups db))
                (groups_seq db) db).
Proof.
  intros Hr Hg. apply ready_cols in Hr as (_ & _ & _ & _ & Hid & Hn).
  unfold apply_edit. sql_cols. cbn [andb].
  rewrite filter_id_delete, (rename_rows g name old) by done.
  rewrite bool_decide_eq_true_2; [done|].
  apply map_Exists_lookup. exists g, old. split; [done|].
  rewrite id_matches_int. by apply bool_decide_eq_true_2.
Qed.

(** X6.  Renaming an existing group (the dialog text, stripped, not empty):
    when another group already has the name, the UPDATE fails on the
    UNIQUE constraint, the "Group Exists" warning is shown and the store
    stays as it was; otherwise only the name of that one group changes,
    its id and the accounts that reference it stay.  Renaming a group
    to the name it has is not a conflict. *)
Theorem rename_group_effect (g : Z) (kids : list item) (text : str)
    (old : option str) (w : world) :
  pending w = None →
  ready (committed w) = true →
  strip text ≠ [] →
  groups (committed w) !! g = Some old →
  if name_taken (strip text) (delete g (groups (committed w)))
  then _rename_group (GroupItem (Some g) kids) (Accepted text) w
       = (inr (), show (MsgWarning "Group Exists" (group_exists_text (strip text))) w)
  else ∃ w', _rename_group (GroupItem (Some g) kids) (Accepted text) w = (inr (), w')
       ∧ groups (committed w') = <[g := Some (strip text)]> (groups (committed w))
       ∧ groups_seq (committed w') = groups_seq (committed w)
       ∧ accounts (committed w') = accounts (committed w)
       ∧ shown w' = shown w
       ∧ pending w' = None.
Proof.
  intros Hp Hr Hne Hg. unfold _rename_group. cbn [ident].
  destruct (strip text) as [|c s] eqn:Hs; [done|]. cbn [truthy negb].
  unfold try_except_only, try_except. rewrite with_conn_eq. unfold execute_edit.
  rewrite (view_idle _ Hp), (apply_rename g _ old) by done.
  destruct (name_taken (c :: s) (delete g (groups (committed w)))).
  - rewrite rollback_idle by done. by rewrite decide_True.
  - eexists. split; [done|]. done.
Qed.

(** X7.  The alias stored by [_prompt_set_alias] is the answer given in the
    dialog, stripped (an answer of white space stores the empty alias);
    only the alias of the one account changes: its secret, profile path
    and group, and every other account, stay.  A dismissed dialog
    changes nothing. *)
Theorem prompt_set_alias_effect (u : str) (kids : list item)
    (dialog : str → dialog_result) (w : world) :
  pending w = None →
  ready (committed w) = true →
  u ≠ [] →
  ∃ w', _prompt_set_alias (Some (AccountItem u kids)) dialog w = (inr (), w')
    ∧ match dialog (default [] (accounts (committed w) !! u ≫= alias)) with
      | Accepted text =>
        accounts (committed w')
        = alter (with_alias (Some (strip text))) u (accounts (committed w))
        ∧ groups (committed w') = groups (committed w)
        ∧ journal w' = journal w ++ [committed w']
        ∧ pending w' = None
      | Rejected => w' = w
      end.
Proof.
  intros Hp Hr Hu. apply ready_cols in Hr as (Hcu & Hca & _).
  destruct u as [|c s]; [done|].
  match goal with |- context [dialog ?x] => remember x as cur0 eqn:Hcur0 end.
  unfold _prompt_set_alias. cbn [truthy negb].
  unfold mbind, M_bind. rewrite bind_eq. unfold select_alias.
  rewrite (view_idle _ Hp). sql_cols. cbn [andb]. cbv beta iota.
  match goal with
  | |- context [dialog ?x] =>
    lazymatch x with
    | cur0 => fail
    | _ => assert (Hcur : x = cur0); [|rewrite Hcur; clear Hcur]
    end
  end.
  { rewrite Hcur0. unfold str in *. destruct (_ !! _) as [a|]; [|reflexivity].
    simpl. by destruct (alias a) as [[|]|]. }
  clear Hcur0. destruct (dialog cur0) as [text|]; [|by exists w].
  rewrite with_conn_eq. unfold execute_edit. rewrite (view_idle _ Hp).
  unfold apply_edit. sql_cols. cbn [andb].
  eexists. split; [done|]. done.
Qed.

End GroupFacts.
End GroupFacts.

(** ** Secrets: what the cipher functions return, and the reader *)

Module SecretFacts.
Import ManagerFacts MigrateFacts.
Section SecretFacts.
Context {F : Fernet} {host : Host F} {E : Sqlite}.

Local Open Scope N_scope.

Lemma get_fernet_the_key w :
  _get_fernet w = (inr (the_key w), set_fernet (Some (the_key w)) w).
Proof.
  unfold _get_fernet, the_key. destruct w as [[k|] ? ? ? ? ? ?]; done.
Qed.

Lemma dec_run v w :
  _dec (Some v) w = (inr (Some (plain (the_key w) v)), set_fernet (Some (the_key w)) w).
Proof.
  unfold _dec, plain, mbind, M_bind. rewrite bind_eq, get_fernet_the_key.
  unfold try_except. destruct (_is_enc (Some v)) eqn:Hi; [|done].
  rewrite bind_eq. unfold encode, decrypt, decode, lift.
  destruct (encode_utf8 v) as [b|] eqn:Hb; [|done].
  unfold ret at 1. cbv beta iota. rewrite bind_eq. simpl.
  destruct (fernet_decrypt (the_key w) b) as [d|] eqn:Hd; [|done].
  unfold ret at 1. cbv beta iota. rewrite bind_eq. simpl.
  by destruct (decode_utf8 d) as [r|] eqn:Hr.
Qed.

Lemma enc_run v w :
  _enc (Some v) w =
  match encode_utf8 v with
  | Some data =>
    (inr (Some (fernet_encrypt (the_key w) (time_at (ticks w)) (urandom_at (ticks w)) data)),
     tick (set_fernet (Some (the_key w)) w))
  | None => (inr (Some v), set_fernet (Some (the_key w)) w)
  end.
Proof.
  unfold _enc, mbind, M_bind. rewrite bind_eq, get_fernet_the_key.
  unfold try_except, encode, decode, encrypt, lift. rewrite !bind_eq.
  destruct (encode_utf8 v) as [data|] eqn:Hd; [|done].
  unfold ret at 1. cbv beta iota. rewrite bind_eq.
  by rewrite (decode_ascii _ (token_ascii _ _ _ _)).
Qed.

(** X8.  [_dec] never raises and changes nothing but the key cache: it
    returns its argument, or, for a text in token format that the
    cipher accepts under the key of this process and whose plaintext is
    UTF-8, that plaintext. *)
Theorem dec_never_raises (v : str) (w : world) :
  ∃ r, _dec (Some v) w = (inr (Some r), set_fernet (Some (the_key w)) w)
    ∧ (r = v
       ∨ (_is_enc (Some v) = true
          ∧ ∃ b d, encode_utf8 v = Some b ∧ fernet_decrypt (the_key w) b = Some d
                   ∧ decode_utf8 d = Some r)).
Proof.
  exists (plain (the_key w) v). split; [apply dec_run|]. unfold plain.
  destruct (_is_enc (Some v)); [|by left].
  destruct (encode_utf8 v) as [b|] eqn:Hb; [|by left]. simpl.
  destruct (fernet_decrypt (the_key w) b) as [d|] eqn:Hd; [|by left]. simpl.
  destruct (decode_utf8 d) as [r|] eqn:Hr; [|by left]. simpl.
  right. split; [done|]. by exists b, d.
Qed.

(** The key is kept by everything that runs on the connection. *)

Lemma keeps_ret {A} (a : A) : keeps (ret a).
Proof. by intros w. Qed.

Lemma keeps_raise {A} e : keeps (@raise _ A e).
Proof. by intros w. Qed.

Lemma keeps_bind {A B} (m : M A) (k : A → M B) :
  keeps m → (∀ a, keeps (k a)) → keeps (bind m k).
Proof.
  intros Hm Hk w. rewrite bind_eq. specialize (Hm w).
  destruct (m w) as [[e|a] w1]; [done|]. simpl in Hm. rewrite <- Hm. apply Hk.
Qed.

Lemma keeps_try_except {A} (m : M A) h :
  keeps m → (∀ e, keeps (h e)) → keeps (try_except m h).
Proof.
  intros Hm Hh w. unfold try_except. specialize (Hm w).
  destruct (m w) as [[e|a] w1]; [|done]. simpl in Hm. rewrite <- Hm. apply Hh.
Qed.

Lemma keeps_try_except_only {A} cls (m h : M A) :
  keeps m → keeps h → keeps (try_except_only cls m h).
Proof.
  intros Hm Hh. apply keeps_try_except; [done|]. intros e.
  destruct (decide (e = cls)); [done|apply keeps_raise].
Qed.

Lemma keeps_execute s : keeps (execute s).
Proof.
  intros w. unfold execute. destruct (apply s (view w)); [done|].
  by destruct (is_dml s || bool_decide (is_Some (pending w))).
Qed.

Lemma keeps_with_conn {A} (m : M A) : keeps m → keeps (with_conn m).
Proof.
  intros Hm w. rewrite with_conn_eq. specialize (Hm w).
  destruct (m w) as [[e|a] w1]; simpl in *; [done|].
  unfold commit. by destruct (pending w1).
Qed.

Lemma keeps_for {A} (xs : list A) body : (∀ x, keeps (body x)) → keeps (for_ xs body).
Proof.
  intros Hb. induction xs as [|x xs IH]; [apply keeps_ret|].
  simpl. by apply keeps_bind.
Qed.

Lemma keeps_add_column c : keeps (add_column c).
Proof.
  unfold add_column. apply keeps_bind; [by intros w|]. intros cols.
  destruct (has_col c cols); [apply keeps_ret|].
  apply keeps_with_conn, keeps_execute.
Qed.

Lemma keeps_rebuild_groups : keeps rebuild_groups.
Proof.
  unfold rebuild_groups. apply keeps_try_except_only; [|apply keeps_ret].
  apply keeps_bind; [by intros w|]. intros cols.
  destruct (_ && _); [|apply keeps_ret].
  apply keeps_with_conn. repeat (apply keeps_bind; [apply keeps_execute|intros _]).
  apply keeps_execute.
Qed.


Lemma lookup_resecret_in ups m al c u :
  NoDup ups.*2 → (al, c, u) ∈ ups →
  foldl resecret m ups !! u = with_secret al c <$> m !! u.
Proof.
  revert m. induction ups as [|[[al' c'] v] ups IH]; intros m Hnd Hin;
    [by apply elem_of_nil in Hin|].
  rewrite fmap_cons in Hnd. apply NoDup_cons in Hnd as [Hv Hnd].
  apply elem_of_cons in Hin as [[= <- <- <-]|Hin]; cbn [foldl].
  - rewrite lookup_resecret_notin by done. unfold resecret. cbn [fst snd].
    by rewrite lookup_alter_eq.
  - rewrite IH by done. unfold resecret. cbn [fst snd].
    rewrite lookup_alter_ne; [done|]. intros ->. apply Hv.
    apply (list_elem_of_fmap_2 snd _ (al, c, u)), Hin.
Qed.

Context {HS : HostSpec host}.

(** X9.  [_enc] never raises and touches neither the store nor the messages.
    A string that has a UTF-8 encoding comes back as a token (ASCII
    text that begins with the marker), at the cost of one reading of the
    clock; a string that has none (a lone surrogate) comes back as it
    is, to be stored in the clear. *)
Theorem enc_never_raises (v : str) (w : world) :
  ∃ c w', _enc (Some v) w = (inr (Some c), w')
    ∧ _FERNET w' = Some (the_key w)
    ∧ committed w' = committed w ∧ pending w' = pending w
    ∧ journal w' = journal w ∧ shown w' = shown w
    ∧ match encode_utf8 v with
      | Some data =>
        c = fernet_encrypt (the_key w) (time_at (ticks w)) (urandom_at (ticks w)) data
        ∧ _is_enc (Some c) = true ∧ ascii_only c ∧ ticks w' = S (ticks w)
      | None => c = v ∧ ticks w' = ticks w
      end.
Proof.
  rewrite enc_run. destruct (encode_utf8 v) as [data|] eqn:Hd.
  - eexists _, _. split; [reflexivity|]. simpl. do 5 (split; [done|]).
    split; [done|]. split; [|split; [apply token_ascii|done]].
    rewrite is_enc_startswith. apply token_version, clock_range.
  - eexists _, _. split; [reflexivity|]. simpl. by do 6 (split; [done|]).
Qed.

Lemma collect_updates_tokens rows w :
  ∃ ups w', collect_updates rows w = (inr ups, w')
    ∧ the_key w' = the_key w ∧ committed w' = committed w ∧ pending w' = pending w
    ∧ sublist ups.*2 (rows.*1.*1)
    ∧ ∀ al c u, (al, c, u) ∈ ups →
        ∃ v data now iv, (u, al, Some v) ∈ rows ∧ v ≠ [] ∧ _is_enc (Some v) = false
          ∧ encode_utf8 v = Some data ∧ now < 2 ^ 42
          ∧ c = Some (fernet_encrypt (the_key w) now iv data).
Proof.
  revert w. induction rows as [|[[u al] c] rows IH]; intros w.
  { exists [], w. do 4 (split; [done|]). split; [constructor|].
    intros ??? Hin. by apply elem_of_nil in Hin. }
  cbn [collect_updates]. unfold mbind, M_bind. rewrite bind_eq.
  assert (Hnew : ∃ c' w1,
    (if truthy c && negb (_is_enc c) then _enc c else mret c) w = (inr c', w1)
    ∧ the_key w1 = the_key w ∧ committed w1 = committed w ∧ pending w1 = pending w
    ∧ (c' = c
       ∨ (c' ≠ c ∧ ∃ v data now iv, c = Some v ∧ v ≠ [] ∧ _is_enc (Some v) = false
            ∧ encode_utf8 v = Some data ∧ now < 2 ^ 42
            ∧ c' = Some (fernet_encrypt (the_key w) now iv data)))).
  { destruct (truthy c && negb (_is_enc c)) eqn:Hcond.
    - apply andb_true_iff in Hcond as [Htr Hne]. apply negb_true_iff in Hne.
      destruct c as [v|]; [|done]. rewrite enc_run.
      destruct (encode_utf8 v) as [data|] eqn:Hd.
      + eexists _, _. split; [done|]. do 3 (split; [done|]). right.
        assert (Htok : _is_enc (Some (fernet_encrypt (the_key w) (time_at (ticks w))
                                        (urandom_at (ticks w)) data)) = true).
        { rewrite is_enc_startswith. apply token_version, clock_range. }
        split; [congruence|].
        exists v, data, (time_at (ticks w)), (urandom_at (ticks w)).
        split; [done|]. split; [by destruct v|]. split; [done|]. split; [done|].
        split; [apply clock_range|done].
      + eexists _, _. split; [done|]. do 3 (split; [done|]). by left.
    - exists c, w. split; [done|]. do 3 (split; [done|]). by left. }
  destruct Hnew as (c' & w1 & -> & Hk1 & Hco1 & Hpe1 & Hcase).
  destruct (IH w1) as (ups & w2 & Hrec & Hk2 & Hco2 & Hpe2 & Hsub & Hups).
  rewrite bind_eq, Hrec. unfold mret, M_ret, ret.
  eexists _, w2. split; [reflexivity|]. split; [congruence|].
  split; [congruence|]. split; [congruence|].
  destruct Hcase as [->|(Hne & v & data & now & iv & -> & Hv & Hi & Hd & Hnow & ->)].
  - rewrite bool_decide_eq_false_2 by tauto. split.
    + cbn [fmap list_fmap fst]. by apply sublist_cons.
    + intros al' c1 u' Hin. destruct (Hups _ _ _ Hin) as (v & data & now & iv & Hr & Hrest).
      exists v, data, now, iv. split; [by right|]. by rewrite <- Hk1.
  - rewrite bool_decide_eq_true_2 by tauto. split.
    + cbn [fmap list_fmap fst snd]. by apply sublist_skip.
    + intros al' c1 u' Hin. apply elem_of_cons in Hin as [[= -> -> ->]|Hin].
      * exists v, data, now, iv. split; [by left|done].
      * destruct (Hups _ _ _ Hin) as (v' & data' & now' & iv' & Hr & Hrest).
        exists v', data', now', iv'. split; [by right|]. by rewrite <- Hk1.
Qed.

Lemma reencrypted_refl k a : reencrypted k a a.
Proof. unfold reencrypted. by do 3 (split; [done|]); left. Qed.

Lemma encrypt_secrets_frame w r w' :
  pending w = None → encrypt_secrets w = (r, w') →
  the_key w' = the_key w
  ∧ groups (committed w') = groups (committed w)
  ∧ groups_seq (committed w') = groups_seq (committed w)
  ∧ ∀ u, option_Forall2 (reencrypted (the_key w))
           (accounts (committed w) !! u) (accounts (committed w') !! u).
Proof.
  intros Hp. unfold encrypt_secrets, try_except, mbind, M_bind.
  rewrite bind_eq, select_secrets_eq, (view_idle _ Hp).
  assert (Hsame : ∀ u, option_Forall2 (reencrypted (the_key w))
            (accounts (committed w) !! u) (accounts (committed w) !! u)).
  { intros u. destruct (accounts (committed w) !! u); constructor. apply reencrypted_refl. }
  destruct (select_ok (committed w)) eqn:Hok.
  2:{ intros [= <- <-]. done. }
  set (rows := (λ kv : str * account, (kv.1, alias kv.2, roblosecurity kv.2))
                 <$> map_to_list (accounts (committed w))).
  destruct (collect_updates_tokens rows w) as (ups & w1 & Hcu & Hk & Hco & Hpe & Hsub & Hups).
  rewrite bind_eq, Hcu.
  assert (Hp1 : pending w1 = None) by congruence.
  destruct (decide (ups = [])) as [->|Hne].
  - rewrite bool_decide_eq_false_2 by (by intros []). intros [= <- <-].
    split; [done|]. by rewrite Hco.
  - rewrite bool_decide_eq_true_2 by done.
    rewrite with_conn_eq.
    rewrite (for_ext _ (λ p, execute (secret_stmt p))) by (by intros [[] ?]).
    rewrite (for_execute_dml secret_stmt ups w1 (committed w)
               (set_accounts (λ m, foldl resecret m ups) (committed w))).
    2:{ apply Forall_true. by intros [[] ?]. }
    2:{ by rewrite (view_idle _ Hp1). }
    2:{ by apply apply_all_secret. }
    2:{ done. }
    intros [= <- <-]. simpl. do 3 (split; [done|]). intros u.
    assert (Hnd : NoDup ups.*2).
    { refine (sublist_NoDup _ _ _ Hsub). unfold rows.
      rewrite <- !list_fmap_compose.
      exact (NoDup_fst_map_to_list (accounts (committed w))). }
    destruct (decide (u ∈ ups.*2)) as [Hin|Hnin].
    + apply list_elem_of_fmap in Hin as ([[al c] u'] & Heq & Hin). simpl in Heq. subst u'.
      rewrite (lookup_resecret_in _ _ al c) by done.
      destruct (Hups _ _ _ Hin) as (v & data & now & iv & Hr & Hv & Hi & Hd & Hnow & ->).
      apply rows_elem in Hr as (a & Ha & -> & Hsec). rewrite Ha. simpl. constructor.
      unfold reencrypted. simpl. do 3 (split; [done|]). right.
      exists v, data, now, iv. by rewrite <- Hsec.
    + rewrite lookup_resecret_notin by done. apply Hsame.
Qed.


Lemma migrate_table_rows w w1 :
  pending w = None → migrate_table w = (inr (), w1) →
  pending w1 = None ∧ the_key w1 = the_key w
  ∧ (∀ u, option_Forall2 (reencrypted (the_key w))
            (accounts (committed w) !! u) (accounts (committed w1) !! u))
  ∧ (∀ c, has_col c (accounts_cols (committed w)) = true →
          has_col c (accounts_cols (committed w1)) = true).
Proof.
  intros Hp. rewrite migrate_table_stages. unfold mbind, M_bind. intros Hrun.
  apply bind_inr in Hrun as ([] & wa & Ha & Hrun).
  apply bind_inr in Hrun as ([] & wb & Hb & Hrun).
  apply bind_inr in Hrun as ([] & wc & Hc & Hd).
  destruct (add_column_run _ _ _ _ Hp Ha) as (Hpa & Hta & Hxa).
  destruct (Hxa eq_refl) as (Hca & Hma & Haa & Hga & Hna).
  destruct (add_column_run _ _ _ _ Hpa Hb) as (Hpb & Htb & Hxb).
  destruct (Hxb eq_refl) as (Hcb & Hmb & Hab & Hgb & Hnb).
  destruct (rebuild_groups_run _ _ _ Hpb Hc) as (_ & Hpc & Htc & Hac & Hcc & Hsc).
  destruct (encrypt_secrets_run _ _ _ Hpc Hd) as (_ & Hpd & Hcd & _).
  destruct (encrypt_secrets_frame _ _ _ Hpc Hd) as (Hkd & _ & _ & Hfd).
  assert (Hka : the_key wa = the_key w).
  { pose proof (keeps_add_column "roblosecurity" w) as Hk. by rewrite Ha in Hk. }
  assert (Hkb : the_key wb = the_key wa).
  { pose proof (keeps_add_column "group_id" wa) as Hk. by rewrite Hb in Hk. }
  assert (Hkc : the_key wc = the_key wb).
  { pose proof (keeps_rebuild_groups wb) as Hk. by rewrite Hc in Hk. }
  split; [done|]. split; [congruence|]. split.
  - intros u. specialize (Hfd u). rewrite Hac, Hab, Haa in Hfd.
    by rewrite Hkc, Hkb, Hka in Hfd.
  - intros c Hcol. rewrite Hcd, Hcc. by apply Hmb, Hma.
Qed.

(** X10.  The startup migration changes nothing in the accounts but secrets:
    every row keeps its username, alias, profile path and group, no row
    is added or lost, and a secret either stays or is replaced by a
    token of itself under the key of this process (which happens only
    to a non-empty secret that is not in token format). *)
Theorem migrate_table_frame (w w1 : world) :
  pending w = None →
  migrate_table w = (inr (), w1) →
  ∀ u, option_Forall2 (reencrypted (the_key w))
         (accounts (committed w) !! u) (accounts (committed w1) !! u).
Proof. intros Hp Hrun. by destruct (migrate_table_rows w w1 Hp Hrun) as (_ & _ & ? & _). Qed.

Lemma get_account_run u w :
  _get_account u w =
  if sql_has_col "profile_path" (accounts_cols (view w))
     && sql_has_col "roblosecurity" (accounts_cols (view w))
     && sql_has_col "username" (accounts_cols (view w))
  then match accounts (view w) !! u with
       | None => (inl AccountNotFound, w)
       | Some a =>
         match roblosecurity a with
         | Some (c :: s) =>
           (inr (profile_path a, Some (plain (the_key w) (c :: s))),
            set_fernet (Some (the_key w)) w)
         | _ => (inr (profile_path a, None), w)
         end
       end
  else (inl OperationalError, w).
Proof.
  unfold _get_account, mbind, M_bind. rewrite bind_eq. unfold select_account.
  destruct (_ && _); [|done]. unfold str in *.
  destruct (_ !! _) as [a|]; [|done]. simpl.
  destruct (roblosecurity a) as [[|c s]|]; [done| |done].
  cbn [truthy]. rewrite bind_eq, dec_run. done.
Qed.

(** X11.  [_get_account]: an unknown username raises "Account not found"; an
    account whose stored secret is NULL or empty yields no cookie; in
    both cases the process state stays as it was, the cipher key is not
    even loaded.  Otherwise the cookie is the stored secret as [_dec]
    reads it.  The store is never written. *)
Theorem get_account_outcomes (u : str) (w : world) :
  has_col "profile_path" (accounts_cols (view w)) = true →
  has_col "roblosecurity" (accounts_cols (view w)) = true →
  has_col "username" (accounts_cols (view w)) = true →
  match accounts (view w) !! u with
  | None => _get_account u w = (inl AccountNotFound, w)
  | Some a =>
    if truthy (roblosecurity a)
    then ∃ v w', roblosecurity a = Some v
           ∧ _get_account u w = (inr (profile_path a, Some (plain (the_key w) v)), w')
           ∧ committed w' = committed w ∧ pending w' = pending w
           ∧ journal w' = journal w ∧ ticks w' = ticks w
    else _get_account u w = (inr (profile_path a, None), w)
  end.
Proof.
  intros H1 H2 H3. rewrite get_account_run. sql_cols. cbn [andb].
  destruct (accounts (view w) !! u) as [a|]; [|done].
  destruct (roblosecurity a) as [[|c s]|]; [done| |done].
  cbn [truthy]. by eexists _, _.
Qed.

Lemma is_enc_truthy c : _is_enc c = true → truthy c = true.
Proof. unfold _is_enc. by destruct (truthy c). Qed.

Lemma plain_not_enc k v : _is_enc (Some v) = false → plain k v = v.
Proof. unfold plain. by intros ->. Qed.

Context {FS : FernetSpec F}.

Lemma plain_token k now iv data v :
  now < 2 ^ 42 → encode_utf8 v = Some data →
  plain k (fernet_encrypt k now iv data) = v.
Proof.
  intros Hnow Hd. unfold plain.
  rewrite is_enc_startswith, (token_version _ _ _ _ Hnow).
  rewrite (encode_ascii _ (token_ascii _ _ _ _)). simpl.
  rewrite decrypt_encrypt by (by eapply encode_wf). simpl.
  by rewrite (decode_encode _ _ Hd).
Qed.

(** X12.  Encryption at rest is transparent to the reader: for every
    username, [_get_account] gives after the startup migration what it
    gave before it, the same profile path and the same cookie, or the
    same exception. *)
Theorem migrate_table_keeps_get_account (u : str) (w w1 : world) :
  pending w = None →
  migrate_table w = (inr (), w1) →
  has_col "profile_path" (accounts_cols (committed w)) = true →
  has_col "roblosecurity" (accounts_cols (committed w)) = true →
  has_col "username" (accounts_cols (committed w)) = true →
  (_get_account u w1).1 = (_get_account u w).1.
Proof.
  intros Hp Hrun H1 H2 H3.
  destruct (migrate_table_rows w w1 Hp Hrun) as (Hp1 & Hk & Hrows & Hcols).
  rewrite !get_account_run, (view_idle _ Hp), (view_idle _ Hp1).
  pose proof (Hcols _ H1). pose proof (Hcols _ H2). pose proof (Hcols _ H3).
  sql_cols. cbn [andb].
  specialize (Hrows u). rewrite Hk.
  destruct Hrows as [a a' (Hal & Hpp & Hg & Hsec)|]; [|done].
  rewrite Hpp.
  destruct Hsec as [->|(v & data & now & iv & Hv & Hne & Hi & Hd & Hnow & ->)].
  - by destruct (roblosecurity a) as [[|c s]|].
  - rewrite Hv.
    assert (Ht : truthy (Some (fernet_encrypt (the_key w) now iv data)) = true).
    { apply is_enc_truthy. rewrite is_enc_startswith. by apply token_version. }
    destruct (fernet_encrypt (the_key w) now iv data) as [|c s] eqn:Htok; [done|].
    rewrite <- Htok, (plain_token _ _ _ _ v) by done.
    destruct v as [|c0 s0]; [done|]. simpl. by rewrite plain_not_enc.
Qed.

End SecretFacts.
End SecretFacts.

(** ** Start-up *)

Module StartupFacts.
Import ManagerFacts MigrateFacts GroupFacts SecretFacts.
Section StartupFacts.
Context {F : Fernet} {host : Host F} {E : Sqlite}.

Lemma create_table_run w :
  pending w = None →
  ∃ w1, create_table w = (inr (), w1) ∧ pending w1 = None
    ∧ _FERNET w1 = _FERNET w ∧ ticks w1 = ticks w
    ∧ committed w1
      = mkDB (match accounts_cols (committed w) with
              | [] => ["username"; "alias"; "profile_path"]
              | cols => cols
              end)
             (match accounts_cols (committed w) with
              | [] => ∅
              | _ => accounts (committed w)
              end)
             true
             (match groups_cols (committed w) with
              | [] => ["id"; "name"]
              | cols => cols
              end)
             (match groups_cols (committed w) with
              | [] => ∅
              | _ => groups (committed w)
              end)
             (match groups_cols (committed w) with
              | [] => 0%Z
              | _ => groups_seq (committed w)
              end)
             (groups_new (committed w)).
Proof.
  intros Hp. unfold create_table, mbind, M_bind. rewrite with_conn_eq, bind_eq.
  erewrite (execute_ddl_idle CreateAccounts); [|done|done|reflexivity].
  rewrite bind_eq.
  erewrite (execute_ddl_idle CreateLastPlayed); [|done|done|reflexivity].
  erewrite (execute_ddl_idle CreateGroups); [|done|done|reflexivity].
  eexists. split; [done|]. simpl. do 3 (split; [done|]).
  destruct (committed w) as [ac a lp gc g gs gn]. simpl.
  destruct ac, gc; done.
Qed.


(** X13.  [create_table] creates what is missing and nothing else: afterwards
    the three tables exist; a table that existed keeps its columns and
    its rows; running it again changes nothing. *)
Theorem create_table_keeps_tables (w : world) :
  pending w = None →
  ∃ w1, create_table w = (inr (), w1) ∧ pending w1 = None
    ∧ accounts_cols (committed w1) ≠ [] ∧ groups_cols (committed w1) ≠ []
    ∧ has_last_played (committed w1) = true
    ∧ (accounts_cols (committed w) ≠ [] →
       accounts_cols (committed w1) = accounts_cols (committed w)
       ∧ accounts (committed w1) = accounts (committed w))
    ∧ (groups_cols (committed w) ≠ [] →
       groups_cols (committed w1) = groups_cols (committed w)
       ∧ groups (committed w1) = groups (committed w)
       ∧ groups_seq (committed w1) = groups_seq (committed w))
    ∧ ∃ w2, create_table w1 = (inr (), w2) ∧ committed w2 = committed w1.
Proof.
  intros Hp. destruct (create_table_run w Hp) as (w1 & Hrun & Hp1 & _ & _ & Hc).
  exists w1. split; [done|]. split; [done|].
  destruct (create_table_run w1 Hp1) as (w2 & Hrun2 & Hp2 & _ & _ & Hc2).
  rewrite Hc. simpl.
  split; [by destruct (accounts_cols (committed w))|].
  split; [by destruct (groups_cols (committed w))|].
  split; [done|].
  split; [by destruct (accounts_cols (committed w))|].
  split; [by destruct (groups_cols (committed w))|].
  exists w2. split; [done|]. rewrite Hc2, Hc. simpl.
  destruct (accounts_cols (committed w)), (groups_cols (committed w)); done.
Qed.

Lemma rebuild_groups_legacy w :
  pending w = None →
  groups_cols (committed w) ≠ [] →
  has_col "id" (groups_cols (committed w)) = false →
  has_col "name" (groups_cols (committed w)) = true →
  ∃ w', rebuild_groups w = (inr (), w') ∧ pending w' = None
    ∧ committed w' = rebuilt (committed w).
Proof.
  intros Hp Hne Hid Hname. rewrite rebuild_groups_eq. cbv zeta. rewrite (view_idle _ Hp).
  rewrite bool_decide_eq_true_2, Hid by done. cbn [negb andb].
  destruct (groups_cols (committed w)) as [|g0 gcols] eqn:Hg; [done|].
  set (db1 := match groups_new (committed w) with
              | Some _ => committed w
              | None => set_groups_new (Some (∅, 0%Z)) (committed w)
              end).
  assert (Hg1 : groups_cols db1 = g0 :: gcols).
  { unfold db1. by destruct (groups_new (committed w)). }
  assert (Hn1 : groups_new db1 = Some (default (∅, 0%Z) (groups_new (committed w)))).
  { unfold db1. destruct (groups_new (committed w)) eqn:Hn; simpl; [by rewrite Hn|done]. }
  assert (Ha1 : accounts db1 = accounts (committed w)
                ∧ accounts_cols db1 = accounts_cols (committed w)
                ∧ groups db1 = groups (committed w)
                ∧ has_last_played db1 = has_last_played (committed w)).
  { unfold db1. by destruct (groups_new (committed w)). }
  destruct Ha1 as (Ha1 & Hc1 & Hr1 & Hl1).
  set (t := default (∅, 0%Z) (groups_new (committed w))) in *.
  rewrite with_conn_eq. unfold mbind, M_bind. rewrite bind_eq.
  rewrite (execute_ddl_idle _ _ db1) by done. rewrite bind_eq.
  set (db2 := set_groups_new
                (Some (foldl insert_or_ignore t
                         (distinct_names (groups db1)))) db1).
  rewrite (execute_dml _ _ db2); [|done|].
  2:{ cbn [view publish pending default from_option committed]. simpl.
      rewrite Hn1, Hg1. by rewrite (has_col_sql _ _ Hname). }
  rewrite bind_eq.
  rewrite (execute_joins _ _ db2 (set_groups [] ∅ 0 db2)); [|done|].
  2:{ simpl. by rewrite Hg1. }
  pose (t2 := foldl insert_or_ignore t
                (distinct_names (groups db1))).
  rewrite (execute_joins _ _ (set_groups [] ∅ 0 db2)
             (set_groups_new None (set_groups ["id"; "name"] t2.1 t2.2 (set_groups [] ∅ 0 db2))));
    [|done|].
  2:{ simpl. fold t2. by destruct t2. }
  eexists. split; [done|]. split; [done|]. simpl.
  unfold rebuilt. cbv zeta. fold t. unfold t2, set_groups_new, set_groups, db2.
  cbn [accounts_cols accounts has_last_played set_groups_new].
  by rewrite Ha1, Hc1, Hr1, Hl1.
Qed.

Context {HS : HostSpec host}.

(** X14.  Start-up, [create_table] and then [migrate_table], on an empty
    database file or on one an earlier release left behind (an accounts
    table with usernames and aliases, in which the columns
    [roblosecurity] and [group_id] are either missing or spelt exactly
    so, and a groups table with names): both return, and leave the
    schema every other operation relies on, with no open transaction
    and with no secret left in the clear that could be encrypted. *)
Theorem startup_makes_ready (w : world) :
  pending w = None →
  (accounts_cols (committed w) = []
   ∨ (has_col "username" (accounts_cols (committed w)) = true
      ∧ has_col "alias" (accounts_cols (committed w)) = true
      ∧ exact_case "roblosecurity" (accounts_cols (committed w))
      ∧ exact_case "group_id" (accounts_cols (committed w)))) →
  (groups_cols (committed w) = []
   ∨ has_col "name" (groups_cols (committed w)) = true) →
  ∃ w', (create_table;; migrate_table) w = (inr (), w')
    ∧ pending w' = None
    ∧ ready (committed w') = true
    ∧ all_settled (committed w').
Proof.
  intros Hp Hacc Hgrp.
  destruct (create_table_run w Hp) as (w0 & Hrun0 & Hp0 & _ & _ & Hc0).
  unfold mbind at 1. unfold M_bind at 1. rewrite bind_eq, Hrun0.
  assert (Hx0 : exact_case "roblosecurity" (accounts_cols (committed w0))
                ∧ exact_case "group_id" (accounts_cols (committed w0))).
  { rewrite Hc0. simpl. destruct Hacc as [->|(_ & _ & ? & ?)]; [split; by vm_compute|].
    by destruct (accounts_cols (committed w)). }
  assert (Hu0 : has_col "username" (accounts_cols (committed w0)) = true
                ∧ has_col "alias" (accounts_cols (committed w0)) = true).
  { rewrite Hc0. simpl. destruct Hacc as [->|(? & ? & _)]; [done|].
    by destruct (accounts_cols (committed w)). }
  assert (Hn0 : has_col "name" (groups_cols (committed w0)) = true).
  { rewrite Hc0. simpl. destruct Hgrp as [->|?]; [done|].
    by destruct (groups_cols (committed w)). }
  clear Hc0 Hrun0 Hacc Hgrp. destruct Hu0 as [Hu0 Hal0].
  assert (Hne0 : accounts_cols (committed w0) ≠ []).
  { intros Hnil. by rewrite Hnil in Hu0. }
  destruct (migrate_table_returns w0 Hp0 Hne0 (proj1 Hx0) (proj2 Hx0)) as [w1 Hrun].
  exists w1. split; [done|].
  revert Hrun. rewrite migrate_table_stages. unfold mbind, M_bind. intros Hrun.
  apply bind_inr in Hrun as ([] & wa & Ha & Hrun).
  apply bind_inr in Hrun as ([] & wb & Hb & Hrun).
  apply bind_inr in Hrun as ([] & wc & Hc & Hd).
  destruct (add_column_run _ _ _ _ Hp0 Ha) as (Hpa & Hta & Hxa).
  destruct (Hxa eq_refl) as (Hca & Hma & Haa & Hga & Hna).
  destruct (add_column_run _ _ _ _ Hpa Hb) as (Hpb & Htb & Hxb).
  destruct (Hxb eq_refl) as (Hcb & Hmb & Hab & Hgb & Hnb).
  destruct (rebuild_groups_run _ _ _ Hpb Hc) as (_ & Hpc & Htc & Hac & Hcc & Hsc).
  destruct (encrypt_secrets_run _ _ _ Hpc Hd) as (_ & Hpd & Hcd & Hgd & Hnd & Hsd & Hfd).
  assert (Hgc : has_col "id" (groups_cols (committed wc)) = true
                ∧ has_col "name" (groups_cols (committed wc)) = true).
  { assert (Hnb' : has_col "name" (groups_cols (committed wb)) = true) by by rewrite Hgb, Hga.
    destruct (has_col "id" (groups_cols (committed wb))) eqn:Hidb.
    - destruct (rebuild_groups_settled wb Hpb) as (wc' & Hc' & Hcom & _).
      { right. by left. }
      rewrite Hc in Hc'. injection Hc' as <-. by rewrite Hcom.
    - destruct (rebuild_groups_legacy wb Hpb) as (wc' & Hc' & _ & Hcom); [|done|done|].
      { intros Hnil. by rewrite Hnil in Hnb'. }
      rewrite Hc in Hc'. injection Hc' as <-. by rewrite Hcom. }
  assert (Hsel : select_ok (committed wc) = true).
  { unfold select_ok. rewrite Hcc.
    rewrite (has_col_sql _ _ (Hmb _ (Hma _ Hu0))), (has_col_sql _ _ (Hmb _ (Hma _ Hal0))).
    by rewrite (has_col_sql _ _ (Hmb _ Hca)). }
  split; [done|]. split; [|by apply Hsd].
  unfold ready. rewrite Hcd, Hgd, Hcc.
  rewrite (Hmb _ (Hma _ Hu0)), (Hmb _ (Hma _ Hal0)), (Hmb _ Hca), Hcb.
  by destruct Hgc as [-> ->].
Qed.


Lemma add_column_groups c w r w' :
  pending w = None → add_column c w = (r, w') →
  groups (committed w') = groups (committed w)
  ∧ groups_seq (committed w') = groups_seq (committed w).
Proof.
  intros Hp. unfold add_column, mbind, M_bind, bind, table_info_accounts.
  assert (Hv : view w = committed w) by (unfold view; by rewrite Hp).
  destruct (has_col c (accounts_cols (view w))) eqn:Hc.
  { by intros [= <- <-]. }
  unfold with_conn, execute. rewrite Hv in *. simpl apply.
  destruct (accounts_cols (committed w)) as [|c0 cols] eqn:Hcols.
  { by intros [= <- <-]. }
  destruct (sql_has_col c (c0 :: cols)).
  { by intros [= <- <-]. }
  rewrite Hp. simpl. by intros [= <- <-].
Qed.

Lemma name_taken_true n (rows : group_rows) :
  name_taken n rows = true ↔ ∃ i, rows !! i = Some (Some n).
Proof.
  unfold name_taken. rewrite bool_decide_eq_true, map_Exists_lookup. split.
  - intros (i & v & Hi & ->). by exists i.
  - intros [i Hi]. by exists i, (Some n).
Qed.

Lemma elem_of_distinct {A} `{EqDecision A} (seen l : list A) x :
  x ∈ distinct seen l ↔ x ∈ l ∧ x ∉ seen.
Proof.
  revert seen. induction l as [|y l IH]; intros seen; simpl.
  - rewrite elem_of_nil. tauto.
  - destruct (decide (y ∈ seen)) as [Hy|Hy].
    + rewrite IH, elem_of_cons. split; [tauto|]. intros [[->|?] ?]; tauto.
    + rewrite !elem_of_cons, IH, not_elem_of_cons. split.
      * intros [->|(? & ? & ?)]; tauto.
      * intros [[->|?] ?]; [by left|]. destruct (decide (x = y)); tauto.
Qed.

Lemma elem_of_distinct_names (rows : group_rows) v :
  v ∈ distinct_names rows ↔ ∃ i, rows !! i = Some v.
Proof.
  unfold distinct_names. rewrite elem_of_distinct, list_elem_of_fmap. split.
  - intros [([i v'] & -> & Hin) _]. rewrite merge_sort_Permutation in Hin.
    apply elem_of_map_to_list in Hin. by exists i.
  - intros [i Hi]. split; [|apply not_elem_of_nil]. exists (i, v). split; [done|].
    rewrite merge_sort_Permutation. by apply elem_of_map_to_list.
Qed.

Lemma insert_or_ignore_step (t : group_rows * Z) name :
  let t' := insert_or_ignore t name in
  (∀ v, (∃ i, t'.1 !! i = Some v) ↔ (∃ i, t.1 !! i = Some v) ∨ v = name)
  ∧ (names_unique t.1 → names_unique t'.1)
  ∧ ((∀ i, is_Some (t.1 !! i) → (i ≤ t.2)%Z) → (∀ i, is_Some (t'.1 !! i) → (i ≤ t'.2)%Z)).
Proof.
  destruct t as [rows seq]. cbv zeta. unfold insert_or_ignore.
  destruct (next_id_fresh rows seq) as (Hfresh & Hseq & Hlt).
  assert (Hins : ∀ x v, (∃ i, <[next_id rows seq := x]> rows !! i = Some v)
                        ↔ (∃ i, rows !! i = Some v) ∨ v = x).
  { intros x v. split.
    - intros [i Hi]. destruct (decide (i = next_id rows seq)) as [->|Hne].
      + rewrite lookup_insert_eq in Hi. right. congruence.
      + rewrite lookup_insert_ne in Hi by done. left. by exists i.
    - intros [[i Hi]| ->].
      + exists i. rewrite lookup_insert_ne; [done|]. intros <-. congruence.
      + exists (next_id rows seq). by rewrite lookup_insert_eq. }
  assert (Hok : ∀ x, (∀ i, is_Some (rows !! i) → (i ≤ seq)%Z) →
                ∀ i, is_Some (<[next_id rows seq := x]> rows !! i) → (i ≤ next_id rows seq)%Z).
  { intros x Hs i Hi. destruct (decide (i = next_id rows seq)) as [->|Hne]; [lia|].
    rewrite lookup_insert_ne in Hi by done. specialize (Hlt _ Hi). lia. }
  destruct name as [n|].
  - destruct (name_taken n rows) eqn:Htaken; simpl.
    + split; [|done]. intros v. split; [by left|]. intros [?| ->]; [done|].
      by apply name_taken_true.
    + split; [apply Hins|]. split; [|apply Hok].
      intros Hu i j m. destruct (decide (i = next_id rows seq)) as [->|Hi];
        destruct (decide (j = next_id rows seq)) as [->|Hj]; [done| | |].
      * rewrite lookup_insert_eq, lookup_insert_ne by done. intros [= <-] Hj'.
        assert (name_taken n rows = true) by (apply name_taken_true; by exists j).
        congruence.
      * rewrite lookup_insert_eq, lookup_insert_ne by done. intros Hi' [= <-].
        assert (name_taken n rows = true) by (apply name_taken_true; by exists i).
        congruence.
      * rewrite !lookup_insert_ne by done. apply Hu.
  - simpl. split; [apply Hins|]. split; [|apply Hok].
    intros Hu i j m. destruct (decide (i = next_id rows seq)) as [->|Hi];
      destruct (decide (j = next_id rows seq)) as [->|Hj]; [done| | |].
    + by rewrite lookup_insert_eq.
    + by rewrite lookup_insert_ne, lookup_insert_eq.
    + rewrite !lookup_insert_ne by done. apply Hu.
Qed.

Lemma insert_or_ignore_fold l (t : group_rows * Z) :
  let t' := foldl insert_or_ignore t l in
  (∀ v, (∃ i, t'.1 !! i = Some v) ↔ (∃ i, t.1 !! i = Some v) ∨ v ∈ l)
  ∧ (names_unique t.1 → names_unique t'.1)
  ∧ ((∀ i, is_Some (t.1 !! i) → (i ≤ t.2)%Z) → (∀ i, is_Some (t'.1 !! i) → (i ≤ t'.2)%Z)).
Proof.
  revert t. induction l as [|x l IH]; intros t; cbv zeta.
  { simpl. split; [|done]. intros v. rewrite elem_of_nil. tauto. }
  cbn [foldl]. destruct (insert_or_ignore_step t x) as (H1 & H2 & H3).
  destruct (IH (insert_or_ignore t x)) as (I1 & I2 & I3).
  split; [|split; [tauto|tauto]].
  intros v. rewrite I1, H1, elem_of_cons. tauto.
Qed.

(** X15.  The rebuild of a legacy groups table (names without ids) by the
    startup migration keeps the groups: the table has an [id] column
    afterwards, it holds the names the legacy table held, no others and
    each once, and its ids are the ones AUTOINCREMENT handed out. *)
Theorem migrate_table_keeps_group_names (w w1 : world) :
  pending w = None →
  migrate_table w = (inr (), w1) →
  has_col "name" (groups_cols (committed w)) = true →
  has_col "id" (groups_cols (committed w)) = false →
  groups_new (committed w) = None →
  has_col "id" (groups_cols (committed w1)) = true
  ∧ (∀ v, (∃ i, groups (committed w1) !! i = Some v)
          ↔ (∃ i, groups (committed w) !! i = Some v))
  ∧ names_unique (groups (committed w1))
  ∧ seq_ok (committed w1).
Proof.
  intros Hp Hrun Hname Hid Hnew.
  revert Hrun. rewrite migrate_table_stages. unfold mbind, M_bind. intros Hrun.
  apply bind_inr in Hrun as ([] & wa & Ha & Hrun).
  apply bind_inr in Hrun as ([] & wb & Hb & Hrun).
  apply bind_inr in Hrun as ([] & wc & Hc & Hd).
  destruct (add_column_run _ _ _ _ Hp Ha) as (Hpa & Hta & Hxa).
  destruct (Hxa eq_refl) as (Hca & Hma & Haa & Hga & Hna & _).
  destruct (add_column_groups _ _ _ _ Hp Ha) as (Hra & Hsa).
  destruct (add_column_run _ _ _ _ Hpa Hb) as (Hpb & Htb & Hxb).
  destruct (Hxb eq_refl) as (Hcb & Hmb & Hab & Hgb & Hnb & _).
  destruct (add_column_groups _ _ _ _ Hpa Hb) as (Hrb & Hsb).
  destruct (rebuild_groups_run _ _ _ Hpb Hc) as (_ & Hpc & _).
  destruct (encrypt_secrets_run _ _ _ Hpc Hd) as (_ & Hpd & Hcd & Hgd & _).
  destruct (encrypt_secrets_frame _ _ _ Hpc Hd) as (_ & Hrd & Hsd & _).
  destruct (rebuild_groups_legacy wb Hpb) as (wc' & Hc' & _ & Hcom).
  { rewrite Hgb, Hga. intros Hnil. by rewrite Hnil in Hname. }
  { by rewrite Hgb, Hga. }
  { by rewrite Hgb, Hga. }
  rewrite Hc in Hc'. injection Hc' as <-.
  unfold seq_ok. rewrite Hgd, Hrd, Hsd, Hcom. unfold rebuilt. cbv zeta.
  rewrite Hnb, Hna, Hnew, Hrb, Hra. cbn [default from_option groups groups_seq groups_cols].
  destruct (insert_or_ignore_fold
              (distinct_names (groups (committed w))) (∅, 0%Z))
    as (H1 & H2 & H3).
  split; [done|]. split; [|split].
  - intros v. rewrite H1. cbn [fst]. split.
    + intros [[i Hi]|Hin]; [simpl in Hi; by rewrite lookup_empty in Hi|].
      by apply elem_of_distinct_names in Hin.
    + intros Hi. right. by apply elem_of_distinct_names.
  - apply H2. intros i j n Hi. simpl in Hi. by rewrite lookup_empty in Hi.
  - apply H3. intros i [x Hi]. simpl in Hi. by rewrite lookup_empty in Hi.
Qed.

End StartupFacts.
End StartupFacts.

(** ** The window frame *)

Module WindowFacts.
Import Window.

Local Open Scope Z_scope.

Lemma resize_direction_names rect margin pos_x pos_y d :
  _get_resize_direction rect margin pos_x pos_y = Some d →
  d ∈ [lit "top_left"; lit "top_right"; lit "bottom_left"; lit "bottom_right";
       lit "left"; lit "right"; lit "top"; lit "bottom"].
Proof.
  unfold _get_resize_direction. generalize (width rect) (height rect). intros W H Hd.
  repeat match type of Hd with
         | (if ?b then _ else _) = _ => destruct b; [injection Hd as <-; set_solver|]
         end.
  done.
Qed.

(** X16.  Where [_get_resize_direction] finds an edge.  It finds none
    exactly for the points strictly inside the margins; any other point
    gets one of the eight names, and the name mentions an edge exactly
    when the point is within the margin of that edge (the left and the
    top edge winning over the right and the bottom one in a window
    narrower than two margins). *)
Theorem resize_direction_edges (rect : QRect) (margin pos_x pos_y : Z) :
  (_get_resize_direction rect margin pos_x pos_y = None
   ↔ margin < pos_x < width rect - margin ∧ margin < pos_y < height rect - margin)
  ∧ ∀ d, _get_resize_direction rect margin pos_x pos_y = Some d →
      d ∈ [lit "top_left"; lit "top_right"; lit "bottom_left"; lit "bottom_right";
           lit "left"; lit "right"; lit "top"; lit "bottom"]
      ∧ (contains d (lit "left") = true ↔ pos_x ≤ margin)
      ∧ (contains d (lit "right") = true ↔ margin < pos_x ∧ width rect - margin ≤ pos_x)
      ∧ (contains d (lit "top") = true ↔ pos_y ≤ margin)
      ∧ (contains d (lit "bottom") = true ↔ margin < pos_y ∧ height rect - margin ≤ pos_y).
Proof.
  split.
  - unfold _get_resize_direction.
    generalize (width rect) (height rect). intros W H.
    destruct (Z.leb_spec pos_x margin), (Z.leb_spec pos_y margin),
      (Z.geb_spec pos_x (W - margin)), (Z.geb_spec pos_y (H - margin));
      cbn [andb]; split;
      first [ intros Hn; discriminate Hn | intros; lia | intros; split; lia | reflexivity ].
  - intros d Hd. split; [by eapply resize_direction_names|]. revert Hd.
    unfold _get_resize_direction.
    generalize (width rect) (height rect). intros W H.
    destruct (Z.leb_spec pos_x margin), (Z.leb_spec pos_y margin),
      (Z.geb_spec pos_x (W - margin)), (Z.geb_spec pos_y (H - margin));
      cbn [andb]; intros Hd; first [discriminate Hd | injection Hd as <-];
      repeat split; intros;
      first [ lia
            | vm_compute; reflexivity
            | match goal with
              | Hc : contains _ _ = true |- _ => vm_compute in Hc; discriminate Hc
              end ].
Qed.

Lemma wrap_int z : is_int z = true → wrap z = z.
Proof.
  unfold is_int, wrap, INT_MIN, INT_MAX. intros [H1 H2]%andb_true_iff.
  apply Z.leb_le in H1, H2. rewrite Z.mod_small by lia. lia.
Qed.

Lemma wrap_range z : INT_MIN ≤ wrap z ≤ INT_MAX.
Proof.
  unfold wrap, INT_MIN, INT_MAX.
  pose proof (Z.mod_pos_bound (z - -2147483648) 4294967296 ltac:(lia)). lia.
Qed.

Ltac eval_contains :=
  repeat match goal with
  | |- context [contains ?a ?b] =>
    let v := eval vm_compute in (contains a b) in
    change (contains a b) with v
  end.

Lemma is_int_range z : is_int z = true ↔ INT_MIN ≤ z ≤ INT_MAX.
Proof. unfold is_int. rewrite andb_true_iff, !Z.leb_le. tauto. Qed.

Lemma is_int_out z : is_int z = false ↔ z < INT_MIN ∨ INT_MAX < z.
Proof.
  unfold is_int. rewrite andb_false_iff, !Z.leb_gt. tauto.
Qed.

Lemma wrap_801 : wrap 801 = 801.
Proof. reflexivity. Qed.

Lemma wrap_501 : wrap 501 = 501.
Proof. reflexivity. Qed.

(** X17.  Resizing by dragging an edge or a corner found by
    [_get_resize_direction], for a geometry and a pointer position as
    Qt hands them out (C [int]s).  When a rectangle is set, it is never
    narrower than 800 nor lower than 500 (by [QRect]'s own wrapping
    arithmetic); the edge opposite to the dragged one stays where it
    was; and the dragged edge follows the pointer whenever the width,
    respectively the height, that [QRect] computes for this is at least
    800, respectively 500.  No rectangle is set, the setter raising
    [OverflowError], only when the edge that is to be moved to enforce
    the minimum would leave the range of a C [int]. *)
Theorem resize_window_keeps_minimum (rect geometry : QRect)
    (margin pos_x pos_y : Z) (d : str) (global_x global_y : Z) :
  _get_resize_direction rect margin pos_x pos_y = Some d →
  is_rect geometry = true →
  is_int global_x = true →
  is_int global_y = true →
  match _resize_window geometry d global_x global_y with
  | Some r =>
    is_rect r = true
    ∧ 800 ≤ width r ∧ 500 ≤ height r
    ∧ (if contains d (lit "left") then right r = right geometry
       else left r = left geometry)
    ∧ (if contains d (lit "top") then bottom r = bottom geometry
       else top r = top geometry)
    ∧ (contains d (lit "right") = true → 800 ≤ wrap (global_x - left geometry + 1) →
       right r = global_x)
    ∧ (contains d (lit "left") = true → 800 ≤ wrap (right geometry - global_x + 1) →
       left r = global_x)
    ∧ (contains d (lit "bottom") = true → 500 ≤ wrap (global_y - top geometry + 1) →
       bottom r = global_y)
    ∧ (contains d (lit "top") = true → 500 ≤ wrap (bottom geometry - global_y + 1) →
       top r = global_y)
  | None =>
    (contains d (lit "left") = true ∧ right geometry - 800 < INT_MIN)
    ∨ (contains d (lit "left") = false ∧ INT_MAX < left geometry + 800)
    ∨ (contains d (lit "top") = true ∧ bottom geometry - 500 < INT_MIN)
    ∨ (contains d (lit "top") = false ∧ INT_MAX < top geometry + 500)
  end.
Proof.
  intros Hd Hg Hx Hy. apply resize_direction_names in Hd.
  destruct geometry as [l t r b]. unfold is_rect in Hg. cbn [left right top bottom] in Hg.
  apply andb_true_iff in Hg as [[[Hl Ht]%andb_true_iff Hr]%andb_true_iff Hb].
  pose proof (proj1 (is_int_range _) Hl) as Hl'.
  pose proof (proj1 (is_int_range _) Ht) as Ht'.
  pose proof (proj1 (is_int_range _) Hr) as Hr'.
  pose proof (proj1 (is_int_range _) Hb) as Hb'.
  pose proof (proj1 (is_int_range _) Hx) as Hx'.
  pose proof (proj1 (is_int_range _) Hy) as Hy'.
  unfold INT_MIN, INT_MAX in *.
  repeat (apply elem_of_cons in Hd as [->|Hd]); [..|by apply elem_of_nil in Hd];
    unfold _resize_window; eval_contains; cbv zeta;
    unfold setLeft, setRight, setTop, setBottom;
    cbn [left right top bottom]; rewrite ?Hx, ?Hy;
    cbn [mbind option_bind left right top bottom];
    unfold width, height; cbn [left right top bottom].
  all: repeat (match goal with
               | |- context [if ?c then _ else _] =>
                 lazymatch c with
                 | (?a <? ?b) => destruct (Z.ltb_spec a b)
                 | is_int ?e =>
                   let H := fresh "Hi" in
                   destruct (is_int e) eqn:H;
                   [apply is_int_range in H|apply is_int_out in H]
                 end
               end;
               cbn [mbind option_bind left right top bottom]).
  all: unfold INT_MIN, INT_MAX in *.
  all: try (first [ left; split; [reflexivity|lia]
                  | right; left; split; [reflexivity|lia]
                  | right; right; left; split; [reflexivity|lia]
                  | right; right; right; split; [reflexivity|lia] ]).
  all: unfold is_rect; cbn [left right top bottom];
       rewrite ?Hl, ?Ht, ?Hr, ?Hb, ?Hx, ?Hy;
       repeat match goal with
       | |- context [wrap ?e] =>
         lazymatch e with
         | 801 => fail
         | 501 => fail
         | _ => first [replace e with 801 by lia | replace e with 501 by lia]
         end
       end;
       rewrite ?wrap_801, ?wrap_501;
       repeat match goal with
       | H : _ ≤ ?e ≤ _ |- context [is_int ?e] =>
         rewrite (proj2 (is_int_range e)) by (unfold INT_MIN, INT_MAX; exact H)
       end;
       repeat split; intros; first [lia | discriminate | reflexivity].
Qed.

End WindowFacts.

(** ** The accounts tree *)

Module TreeFacts.
Import ManagerFacts MigrateFacts GroupFacts.
Import Tree.
Section TreeFacts.
Context {F : Fernet} {host : Host F} {E : Sqlite}.

Lemma add_children_fold {A} (f : A → option Z) (c : A → item) l nodes :
  foldl (λ nodes x, add_child (f x) (c x) nodes) nodes l
  = (λ n, (n.1, n.2 ++ (c <$> filter (λ x, f x = n.1) l))) <$> nodes.
Proof.
  revert nodes. induction l as [|x l IH]; intros nodes; cbn [foldl].
  - induction nodes as [|[k ks] nodes IHn]; [done|].
    rewrite fmap_cons, <- IHn. simpl. by rewrite app_nil_r.
  - rewrite IH. unfold add_child. rewrite <- list_fmap_compose.
    induction nodes as [|[k ks] nodes IHn]; [done|].
    rewrite !fmap_cons, IHn. f_equal. simpl.
    destruct (decide (k = f x)) as [->|Hne]; simpl.
    + rewrite filter_cons_True by done. by rewrite fmap_cons, <- app_assoc.
    + rewrite filter_cons_False by (by intros ?). done.
Qed.

Lemma load_accounts_tree_shape db :
  load_accounts_tree db
  = (λ k, GroupItem k (kids db k)) <$> (None :: (Some <$> (select_groups db).*1)).
Proof.
  unfold load_accounts_tree. cbv zeta.
  rewrite (add_children_fold (λ ua, parent_key db ua.2) (λ ua, AccountItem ua.1 [])).
  rewrite <- list_fmap_compose. rewrite !fmap_cons. f_equal.
  rewrite <- !list_fmap_compose. done.
Qed.


Lemma elem_of_select_accounts db u a :
  (u, a) ∈ select_accounts db ↔ accounts db !! u = Some a.
Proof.
  unfold select_accounts. rewrite merge_sort_Permutation. apply elem_of_map_to_list.
Qed.

Lemma elem_of_select_groups db g n :
  (g, n) ∈ select_groups db ↔ groups db !! g = Some n.
Proof.
  unfold select_groups. rewrite merge_sort_Permutation. apply elem_of_map_to_list.
Qed.

Lemma elem_of_kids db k u ks :
  AccountItem u ks ∈ kids db k
  ↔ ks = [] ∧ ∃ a, accounts db !! u = Some a ∧ parent_key db a = k.
Proof.
  unfold kids. rewrite list_elem_of_fmap. split.
  - intros ([u' a] & [= -> ->] & Hin). apply list_elem_of_filter in Hin as [Hk Hin].
    split; [done|]. exists a. split; [by apply elem_of_select_accounts|done].
  - intros (-> & a & Ha & Hk). exists (u, a). split; [done|].
    apply list_elem_of_filter. split; [done|]. by apply elem_of_select_accounts.
Qed.

Lemma parent_key_node db a k :
  parent_key db a = k → k ∈ None :: (Some <$> (select_groups db).*1).
Proof.
  intros <-. unfold parent_key. destruct (group_id a) as [|g|]; [by left| |by left].
  destruct (bool_decide (is_Some (groups db !! g))) eqn:Hg; [|by left].
  apply bool_decide_eq_true in Hg as [n Hn]. right.
  apply list_elem_of_fmap. exists g. split; [done|].
  apply list_elem_of_fmap. exists (g, n). split; [done|]. by apply elem_of_select_groups.
Qed.

Lemma ident_node db k :
  ident (GroupItem k (kids db k)) = match k with Some g => PInt g | None => PNone end.
Proof. by destruct k. Qed.

(** The entries of the [updates] list that the reconcile builds from the
    freshly loaded tree. *)
Lemma tree_updates_loaded db g u :
  (g, u) ∈ tree_updates (load_accounts_tree db)
  ↔ ∃ a, accounts db !! u = Some a ∧ g = shown_group db a.
Proof.
  rewrite tree_updates_elem, load_accounts_tree_shape. split.
  - intros (it & ks & Hit & <- & Hc). apply list_elem_of_fmap in Hit as (k & -> & Hk).
    cbn [children] in Hc. apply elem_of_kids in Hc as (-> & a & Ha & Hp).
    exists a. split; [done|]. rewrite ident_node. unfold shown_group. by rewrite Hp.
  - intros (a & Ha & ->). exists (GroupItem (parent_key db a) (kids db (parent_key db a))), [].
    split; [|split].
    + apply list_elem_of_fmap. exists (parent_key db a). split; [done|].
      by eapply parent_key_node.
    + by rewrite ident_node.
    + cbn [children]. apply elem_of_kids. split; [done|]. by exists a.
Qed.

Lemma bound_shown_group db a : bound (shown_group db a) = shown_group db a.
Proof. unfold shown_group. by destruct (parent_key db a). Qed.

(** Writing the same target into a row any number of times. *)
Lemma regroup_settles (t : account → pyval) (m0 : gmap str account) ups m :
  (∀ g u a, (g, u) ∈ ups → m0 !! u = Some a → bound g = t a) →
  (∀ u, m !! u = m0 !! u ∨ m !! u = (λ a, with_group (t a) a) <$> m0 !! u) →
  ∀ u, foldl regroup m ups !! u
       = if bool_decide (u ∈ ups.*2) then (λ a, with_group (t a) a) <$> m0 !! u
         else m !! u.
Proof.
  revert m. induction ups as [|[g v] ups IH]; intros m Hups Hm u; [done|].
  cbn [foldl]. rewrite IH.
  - rewrite fmap_cons. cbn [snd].
    destruct (decide (u ∈ ups.*2)) as [Hin|Hnin].
    + rewrite !bool_decide_eq_true_2; [done|by right|done].
    + rewrite (bool_decide_eq_false_2 (u ∈ ups.*2)) by done.
      unfold regroup. cbn [fst snd].
      destruct (decide (u = v)) as [->|Hne].
      * rewrite bool_decide_eq_true_2 by (by left). rewrite lookup_alter_eq.
        destruct (Hm v) as [-> | ->]; destruct (m0 !! v) as [a|] eqn:Ha; simpl; try done.
        -- f_equal. rewrite (Hups g v a); [done|by left|done].
        -- f_equal. rewrite (Hups g v a); [done|by left|done].
      * rewrite lookup_alter_ne by done.
        rewrite bool_decide_eq_false_2; [done|].
        intros [?|?]%elem_of_cons; done.
  - intros g' u' a Hin. apply Hups. by right.
  - intros u'. unfold regroup. cbn [fst snd].
    destruct (decide (u' = v)) as [->|Hne].
    + right. rewrite lookup_alter_eq.
      destruct (Hm v) as [-> | ->]; destruct (m0 !! v) as [a|] eqn:Ha; simpl; try done.
      * f_equal. rewrite (Hups g v a); [done|by left|done].
      * f_equal. rewrite (Hups g v a); [done|by left|done].
    + rewrite lookup_alter_ne by done. apply Hm.
Qed.

Lemma str_le_total a b : str_le a b = true ∨ str_le b a = true.
Proof.
  revert b. induction a as [|x a IH]; intros [|y b]; simpl; [by left..|by right|].
  destruct (N.ltb_spec x y); [by left|]. destruct (N.ltb_spec y x); [by right|].
  assert (x = y) as -> by lia. rewrite N.eqb_refl. simpl. apply IH.
Qed.

Lemma str_le_trans a b c : str_le a b = true → str_le b c = true → str_le a c = true.
Proof.
  revert b c. induction a as [|x a IH]; intros [|y b] [|z c]; simpl; try done.
  rewrite !orb_true_iff, !andb_true_iff, !N.ltb_lt, !N.eqb_eq.
  intros [Hxy|[-> Hab]] [Hyz|[-> Hbc]].
  - left. lia.
  - by left.
  - by left.
  - right. split; [done|]. by eapply IH.
Qed.

Lemma name_le_total a b : name_le a b = true ∨ name_le b a = true.
Proof. destruct a, b; simpl; auto using str_le_total. Qed.

Lemma name_le_trans a b c : name_le a b = true → name_le b c = true → name_le a c = true.
Proof. destruct a, b, c; simpl; try done. apply str_le_trans. Qed.

Lemma select_groups_ids db : NoDup (select_groups db).*1.
Proof.
  unfold select_groups. rewrite merge_sort_Permutation. apply NoDup_fst_map_to_list.
Qed.

Lemma select_accounts_names db : NoDup (select_accounts db).*1.
Proof.
  unfold select_accounts. rewrite merge_sort_Permutation. apply NoDup_fst_map_to_list.
Qed.

Lemma tree_updates_loaded_nodup db : NoDup (tree_updates (load_accounts_tree db)).
Proof.
  unfold tree_updates. rewrite load_accounts_tree_shape. apply NoDup_bind.
  - intros x1 x2 [g u] H1 H2 Hy1 Hy2.
    apply list_elem_of_fmap in H1 as (k1 & -> & _).
    apply list_elem_of_fmap in H2 as (k2 & -> & _).
    apply list_elem_of_bind in Hy1 as (c1 & Hc1 & _).
    apply list_elem_of_bind in Hy2 as (c2 & Hc2 & _).
    destruct c1 as [|u1 ?]; [by apply elem_of_nil in Hc1|].
    destruct c2 as [|u2 ?]; [by apply elem_of_nil in Hc2|].
    apply list_elem_of_singleton in Hc1 as [= Hg1 _].
    apply list_elem_of_singleton in Hc2 as [= Hg2 _].
    subst g.
    assert (k1 = k2) as -> by (destruct k1, k2; congruence). done.
  - intros x Hx. apply list_elem_of_fmap in Hx as (k & -> & _). cbn [children].
    unfold kids. rewrite list_fmap_bind.
    pose proof (select_accounts_names db) as Hnd.
    induction (select_accounts db) as [|[u a] l IH]; [constructor|].
    rewrite fmap_cons in Hnd. apply NoDup_cons in Hnd as [Hu Hnd].
    rewrite filter_cons. destruct (decide _); [|by apply IH].
    cbn [mbind list_bind]. change (NoDup ((ident (GroupItem k (kids db k)), u)
      :: (filter (λ ua : str * account, parent_key db ua.2 = k) l
          ≫= (λ child, match child with
                       | AccountItem username _ => [(ident (GroupItem k (kids db k)), username)]
                       | GroupItem _ _ => []
                       end) ∘ (λ ua : str * account, AccountItem ua.1 [])))).
    apply NoDup_cons. split; [|by apply IH].
    intros Hin. apply list_elem_of_bind in Hin as ([u' a'] & Hc & Hf).
    apply list_elem_of_singleton in Hc as [= ->].
    apply list_elem_of_filter in Hf as [_ Hf]. apply Hu.
    apply (list_elem_of_fmap_2 fst _ (u', a')), Hf.
  - apply NoDup_fmap_2; [by intros ?? [= ->]|]. apply NoDup_cons. split.
    + intros Hin. by apply list_elem_of_fmap in Hin as (? & ? & _).
    + apply NoDup_fmap_2; [by intros ?? [= ->]|]. apply select_groups_ids.
Qed.

(** X18.  The tree [load_accounts] builds.  At the top level stands the
    Ungrouped node and then one node per group, in the order of the
    group names; every account of the store is the child of exactly one
    of them: of the node of its group when that group exists, of the
    Ungrouped node otherwise (no group, or a [group_id] that names no
    row of the groups table). *)
Theorem load_accounts_tree_places (db : DB) :
  ident <$> load_accounts_tree db = PNone :: ((λ g, PInt g.1) <$> select_groups db)
  ∧ StronglySorted (λ x y, Is_true (name_le x.2 y.2)) (select_groups db)
  ∧ (∀ g n, (g, n) ∈ select_groups db ↔ groups db !! g = Some n)
  ∧ (∀ g u, (g, u) ∈ tree_updates (load_accounts_tree db)
            ↔ ∃ a, accounts db !! u = Some a ∧ g = shown_group db a)
  ∧ NoDup (tree_updates (load_accounts_tree db)).*2.
Proof.
  split; [|split; [|split; [|split]]].
  - rewrite load_accounts_tree_shape, <- list_fmap_compose, fmap_cons. f_equal.
    by rewrite <- !list_fmap_compose.
  - unfold select_groups. apply StronglySorted_merge_sort.
    + intros x y z Hxy Hyz. apply Is_true_true. apply Is_true_true in Hxy, Hyz.
      by eapply name_le_trans.
    + intros x y. destruct (name_le_total x.2 y.2) as [H1|H1]; [left|right];
        by apply Is_true_true.
  - apply elem_of_select_groups.
  - apply tree_updates_loaded.
  - apply NoDup_fmap_2_strong; [|apply tree_updates_loaded_nodup].
    intros [g1 u1] [g2 u2] H1 H2 Heq. simpl in Heq. subst u2.
    apply tree_updates_loaded in H1 as (a1 & Ha1 & ->).
    apply tree_updates_loaded in H2 as (a2 & Ha2 & ->). congruence.
Qed.

(** X19.  Reconciling the store with the tree that was just loaded from it:
    an account whose group exists keeps its [group_id]; one whose
    [group_id] names no existing group (or is no integer) was loaded
    under the Ungrouped node and is written back with NULL.  So when no
    account references a missing group, the reconcile leaves every
    account row as it was. *)
Theorem sync_after_load_heals (w : world) :
  pending w = None →
  ready (committed w) = true →
  ∃ w', _sync_groups_from_tree (load_accounts_tree (committed w)) w = (inr (), w')
    ∧ accounts (committed w')
      = (λ a, with_group (shown_group (committed w) a) a) <$> accounts (committed w)
    ∧ groups (committed w') = groups (committed w)
    ∧ pending w' = None
    ∧ (no_dangling (committed w) → accounts (committed w') = accounts (committed w)).
Proof.
  intros Hp Hr. set (db := committed w). set (tree := load_accounts_tree db).
  assert (Hheal : ∃ w', _sync_groups_from_tree tree w = (inr (), w')
            ∧ accounts (committed w')
              = (λ a, with_group (shown_group db a) a) <$> accounts db
            ∧ groups (committed w') = groups db ∧ pending w' = None).
  { destruct (decide (tree_updates tree = [])) as [Hnil|Hne].
    - exists w. split; [unfold _sync_groups_from_tree; by rewrite Hnil|].
      split; [|done]. apply map_eq. intros u. rewrite lookup_fmap.
      destruct (accounts db !! u) as [a|] eqn:Ha; [|done]. exfalso.
      assert (Hin : (shown_group db a, u) ∈ tree_updates tree).
      { apply tree_updates_loaded. by exists a. }
      rewrite Hnil in Hin. by apply elem_of_nil in Hin.
    - apply ready_cols in Hr as (_ & _ & _ & Hc & _).
      rewrite sync_run by (by rewrite ?view_idle). rewrite (view_idle _ Hp).
      eexists. split; [done|]. cbn [committed publish staged accounts set_accounts groups pending].
      split; [|done]. apply map_eq. intros u. fold db.
      rewrite (regroup_settles (shown_group db) (accounts db)).
      + rewrite lookup_fmap. destruct (decide (u ∈ (tree_updates tree).*2)) as [Hin|Hnin].
        * by rewrite bool_decide_eq_true_2.
        * rewrite bool_decide_eq_false_2 by done.
          destruct (accounts db !! u) as [a|] eqn:Ha; [|done]. exfalso. apply Hnin.
          apply (list_elem_of_fmap_2 snd _ (shown_group db a, u)).
          apply tree_updates_loaded. by exists a.
      + intros g u' a Hin Ha. apply tree_updates_loaded in Hin as (a' & Ha' & ->).
        rewrite bound_shown_group. congruence.
      + intros u'. by left. }
  destruct Hheal as (w' & Hrun & Hacc & Hg & Hp').
  exists w'. do 4 (split; [done|]). intros Hnd. rewrite Hacc.
  apply map_eq. intros u. rewrite lookup_fmap.
  destruct (accounts db !! u) as [a|] eqn:Ha; [|done]. simpl. f_equal.
  unfold shown_group, parent_key.
  destruct (Hnd u a Ha) as [Hnone|(i & Hi & Hs)].
  - rewrite Hnone. destruct a. simpl in *. by subst.
  - rewrite Hi, bool_decide_eq_true_2 by done. destruct a. simpl in *. by subst.
Qed.

End TreeFacts.
End TreeFacts.

(** ** The key file *)

Module KeyFileFacts.
Import KeyFile.
Section KeyFileFacts.
Context {F : Fernet} {D : Disk} {C : Crypt32} {K : FernetKeys F}.
Context {DS : DiskSpec D} {KS : KeySpec C K}.

Lemma triple_inv {X Y Z} (a a' : X) (b b' : Y) (c c' : Z) :
  (a, b, c) = (a', b', c') → a = a' ∧ b = b' ∧ c = c'.
Proof.
  intros Heq. split; [exact (f_equal (λ t, t.1.1) Heq)|].
  split; [exact (f_equal (λ t, t.1.2) Heq)|exact (f_equal snd Heq)].
Qed.

Lemma key_truthy b k : Fernet_new b = Some k → truthy (Some b) = true.
Proof. destruct b; [|done]. by rewrite key_not_empty. Qed.

Lemma truthy_Some (o : option bytes) :
  truthy o = true → ∃ b, o = Some b ∧ b ≠ [].
Proof. destruct o as [[|x b]|]; try done. intros _. by exists (x :: b). Qed.

Lemma move_old_key_present d : exists_ KEY_FILE d = true → move_old_key d = d.
Proof. intros He. unfold move_old_key. by rewrite He, andb_false_r. Qed.

(** A disk whose key file holds [k] gives [k], and is left alone. *)
Lemma load_key_holds k d w : holds_key k d → load_key d w = (Some k, d, w).
Proof.
  intros (He & stored & Hr & Hcase). unfold load_key.
  rewrite (makedirs_exists d He), (move_old_key_present d He).
  unfold read_key. cbv zeta. rewrite He, Hr.
  destruct Hcase as [(u & Hu & Hne & Hk)|(Hu & Hk & Hp)].
  - rewrite Hu. destruct u as [|x u]; [done|]. cbn [truthy negb default from_option id].
    by rewrite Hk.
  - rewrite Hu, Hk, Hp. rewrite (key_truthy _ _ Hk). cbn [negb default from_option id].
    by rewrite Hk.
Qed.

Lemma written_key_holds k kb d d' :
  Fernet_new kb = Some k →
  write KEY_FILE (if truthy (_win_protect kb) then default [] (_win_protect kb) else kb) d
  = Done d' →
  holds_key k d'.
Proof.
  intros Hk Hw. apply write_read in Hw as [Hr He]. split; [done|].
  eexists. split; [exact Hr|].
  destruct (truthy (_win_protect kb)) eqn:Hp.
  - left. apply truthy_Some in Hp as (p & Hp & _). rewrite Hp. simpl.
    exists kb. split; [by apply unprotect_protect|]. split; [|done].
    intros ->. by rewrite key_not_empty in Hk.
  - right. split; [|done]. apply key_is_no_blob. by rewrite Hk.
Qed.

(** When the [try] block completes, the key file holds the key it
    returns. *)
Lemma load_key_leaves k d w d1 w1 :
  load_key d w = (Some k, d1, w1) → holds_key k d1.
Proof.
  unfold load_key. destruct (makedirs d) as [d0|d0]; [|done].
  generalize (move_old_key d0). clear d d0. intros d.
  unfold read_key. cbv zeta. destruct (exists_ KEY_FILE d) eqn:He.
  2:{ cbn [truthy negb].
      destruct (write _ _ d) as [d3|d3] eqn:Hw; [|done]. intros (Hk & <- & <-)%triple_inv.
      by eapply written_key_holds. }
  destruct (read KEY_FILE d) as [stored|] eqn:Hr; [|done].
  destruct (truthy (_win_unprotect stored)) eqn:Hu.
  { rewrite Hu. cbn [negb]. intros (Hk & <- & <-)%triple_inv.
    apply truthy_Some in Hu as (u & Hu & Hne). rewrite Hu in Hk. simpl in Hk.
    split; [done|]. exists stored. split; [done|]. left. by exists u. }
  destruct (Fernet_new stored) as [k0|] eqn:Hk0.
  2:{ cbn [truthy negb].
      destruct (write _ _ d) as [d3|d3] eqn:Hw; [|done]. intros (Hk & <- & <-)%triple_inv.
      by eapply written_key_holds. }
  destruct (truthy (_win_protect stored)) eqn:Hp.
  - destruct (write KEY_FILE (default [] (_win_protect stored)) d) as [d'|d'] eqn:Hw.
    + rewrite (key_truthy _ _ Hk0). cbn [negb default from_option id].
      intros (Hk & <- & <-)%triple_inv. eapply (written_key_holds k stored); [done|].
      by rewrite Hp.
    + cbn [truthy negb].
      destruct (write _ _ d') as [d3|d3] eqn:Hw'; [|done]. intros (Hk & <- & <-)%triple_inv.
      by eapply written_key_holds.
  - rewrite (key_truthy _ _ Hk0). cbn [negb default from_option id].
    intros (Hk & <- & <-)%triple_inv. split; [done|]. exists stored. split; [done|]. right. done.
Qed.

(** X20.  The key outlives the process.  When the first call of [_get_fernet]
    in a process gets its key from the [try] block (it did not fall
    back to a key kept in memory only), the first call in any later
    process that finds the disk as this one left it gets the same key,
    without writing to the disk and without reading the random source. *)
Theorem key_survives_restart (k : key) (d d1 : disk) (w w1 : world) :
  _FERNET w = None →
  load_key d w = (Some k, d1, w1) →
  _get_fernet d w = (Some k, d1, set_fernet (Some k) w1)
  ∧ ∀ w2, _FERNET w2 = None →
          _get_fernet d1 w2 = (Some k, d1, set_fernet (Some k) w2).
Proof.
  intros Hf Hload. split.
  - unfold _get_fernet. by rewrite Hf, Hload.
  - intros w2 Hf2. unfold _get_fernet. rewrite Hf2.
    by rewrite (load_key_holds k d1 w2 (load_key_leaves _ _ _ _ _ Hload)).
Qed.

(** X21.  A key file whose wrapped content is no key is never repaired: the
    first call of [_get_fernet] leaves the disk as it is and works with
    a key from the random source that is kept in memory only, so what
    one process encrypts the next cannot decrypt. *)
Theorem wrapped_garbage_is_kept (d : disk) (w : world) (stored u : bytes) :
  _FERNET w = None →
  exists_ KEY_FILE d = true →
  read KEY_FILE d = Some stored →
  _win_unprotect stored = Some u →
  u ≠ [] →
  Fernet_new u = None →
  _get_fernet d w
  = (Fernet_new (generate_key (ticks w)), d,
     match Fernet_new (generate_key (ticks w)) with
     | Some f => set_fernet (Some f) (tick w)
     | None => tick w
     end).
Proof.
  intros Hf He Hr Hu Hne Hk. unfold _get_fernet, load_key. rewrite Hf.
  rewrite (makedirs_exists d He), (move_old_key_present d He).
  unfold read_key. cbv zeta. rewrite He, Hr, Hu. destruct u as [|x u]; [done|].
  cbn [truthy negb default from_option id]. rewrite Hk.
  by destruct (Fernet_new (generate_key (ticks w))).
Qed.

Context {R : Reliable D}.

(** X22.  The key file of an earlier release is adopted.  With a valid key at
    the old place and no key file at the new one, on a disk that does
    not fail, the first call of [_get_fernet] works with that key,
    without reading the random source; afterwards the old file is gone
    and the new one holds the key, wrapped where the data protection
    works. *)
Theorem legacy_key_is_moved (d : disk) (w : world) (old_key : bytes) (k : key) :
  _FERNET w = None →
  exists_ KEY_FILE_OLD d = true →
  exists_ KEY_FILE d = false →
  read KEY_FILE_OLD d = Some old_key →
  Fernet_new old_key = Some k →
  ∃ d', _get_fernet d w = (Some k, d', set_fernet (Some k) w)
    ∧ exists_ KEY_FILE_OLD d' = false
    ∧ holds_key k d'
    ∧ ∃ stored, read KEY_FILE d' = Some stored
        ∧ (_win_unprotect stored = Some old_key ∨ stored = old_key).
Proof.
  intros Hf Hold Hnew Hr Hk.
  destruct (makedirs_done d) as [d0 Hm].
  destruct (makedirs_keeps _ _ KEY_FILE_OLD Hm) as [He0 Hr0].
  destruct (makedirs_keeps _ _ KEY_FILE Hm) as [Hn0 _].
  set (protected := if truthy (_win_protect old_key)
                    then default [] (_win_protect old_key) else old_key).
  destruct (write_done KEY_FILE protected d0) as [d1 Hw].
  destruct (remove_done KEY_FILE_OLD d1) as [d2 Hrm].
  assert (Hmove : move_old_key d0 = d2).
  { unfold move_old_key. rewrite He0, Hold, Hn0, Hnew, Hr0, Hr. cbn [andb negb].
    fold protected. by rewrite Hw, Hrm. }
  assert (Hholds1 : holds_key k d1) by (by eapply written_key_holds).
  destruct (remove_other _ KEY_FILE _ _ Hrm) as [He2 Hr2]; [done|].
  assert (Hholds : holds_key k d2).
  { destruct Hholds1 as (He & stored & Hs & Hcase). split; [congruence|].
    exists stored. split; [congruence|done]. }
  exists d2. split; [|split; [by eapply remove_gone|split; [done|]]].
  - unfold _get_fernet. rewrite Hf. unfold load_key at 1. rewrite Hm, Hmove.
    pose proof (load_key_holds k d2 w Hholds) as Hl. unfold load_key in Hl.
    rewrite (makedirs_exists d2 (proj1 Hholds)) in Hl.
    rewrite (move_old_key_present d2 (proj1 Hholds)) in Hl.
    destruct (read_key d2) as [[kb|] d3]; [|done].
    destruct (negb (truthy kb)).
    + destruct (write _ _ d3); apply triple_inv in Hl as (Hk' & _ & Hw'); [|done].
      exfalso. clear -Hw'. destruct w. unfold tick in Hw'. simpl in Hw'.
      injection Hw' as Ht. lia.
    + by apply triple_inv in Hl as (-> & <- & _).
  - apply write_read in Hw as [Hrd _]. exists protected. split; [congruence|].
    unfold protected. destruct (truthy (_win_protect old_key)) eqn:Hp; [|by right].
    left. apply truthy_Some in Hp as (p & Hp & _). rewrite Hp. simpl.
    by apply unprotect_protect.
Qed.

End KeyFileFacts.
End KeyFileFacts.

(** ** The sample disk keeps the contract of the file system *)

Module FixtureFacts.
Import KeyFile Fixture.

Local Open Scope N_scope.

#[global] Instance disk_spec : DiskSpec plain_disk.
Proof.
  split.
  - intros d d' p [= ->]. done.
  - intros d _. done.
  - intros p b d d' [= <-]. destruct p; simpl; done.
  - intros p q b d d' [= <-] Hpq. destruct p, q; done.
  - intros p d d' [= <-]. destruct p; done.
  - intros p q d d' [= <-] Hpq. destruct p, q; done.
Qed.

#[global] Instance disk_reliable : Reliable plain_disk.
Proof.
  split.
  - intros d. by eexists.
  - intros p b d. by eexists.
  - intros p d. by eexists.
  - intros p d Hp. by apply bool_decide_eq_true in Hp.
Qed.

#[global] Instance key_spec : KeySpec dpapi keys.
Proof.
  split.
  - intros b p [= <-]. done.
  - intros b [k Hk]. destruct b as [|c0 b]; [done|].
    destruct (decide (c0 = 0)) as [->|Hne].
    + exfalso. simpl in Hk. destruct b as [|c1 [|c2 [|c3 rest]]]; try done.
    + unfold _win_unprotect. simpl. by destruct c0.
  - done.
Qed.

End FixtureFacts.

(** ** The results on the sample environment *)

Module Runs.
Import Sample SampleFacts ManagerFacts MigrateFacts LauncherFacts.

Local Open Scope N_scope.

Example good_token_text :
  good_token = lit "gAAAAABpBfyA23psanlsezR7dnJsdQ==".
Proof. reflexivity. Qed.

Example corrupted_token_text :
  corrupted_token = lit "gAAAAABpBfyA23psanlsBzR7dnJsdQ==".
Proof. reflexivity. Qed.

Example quote_plus_text :
  quote_plus (lit "18 18~" ++ [233]) = Some (lit "18+18~%C3%A9").
Proof. reflexivity. Qed.

Example strip_text : strip ([32; 28] ++ lit " Main" ++ [0x3000]) = lit "Main".
Proof. reflexivity. Qed.

Lemma dec_enc_roundtrip_witness :
  ((_enc (Some (lit "secret-token")) ≫= _dec) (fresh db0)).1
  = inr (Some (lit "secret-token")).
Proof.
  exact (@dec_enc_roundtrip cipher host cipher_spec host_spec
           (lit "secret-token") (fresh db0)).
Defined.

Lemma dec_passthrough_witness :
  startswith [] (lit "gAAAA") = false
  ∧ (_dec (Some []) (fresh db0)).1 = inr (Some []).
Proof.
  split; [reflexivity|].
  apply (@dec_passthrough cipher host [] (fresh db0)). reflexivity.
Defined.

Example dec_passthrough_legacy_secret :
  (_dec (Some (lit "_|WARNING:-DO-NOT-SHARE-THIS")) keyed).1
  = inr (Some (lit "_|WARNING:-DO-NOT-SHARE-THIS")).
Proof. reflexivity. Qed.

(** C3 fails on the code.  The token that [_enc] produced for
    ["secret-token"], with its twenty-first character altered, still begins
    with the marker and is rejected by the cipher; yet [_dec] raises
    nothing and returns that very token, exactly as it returns a string
    that was never encrypted. *)
Lemma dec_corrupted_token_silent :
  (_enc (Some (lit "secret-token")) (fresh db0)).1 = inr (Some good_token)
  ∧ List.length corrupted_token = List.length good_token
  ∧ corrupted_token ≠ good_token
  ∧ _is_enc (Some corrupted_token) = true
  ∧ fernet_decrypt boot_key corrupted_token = None
  ∧ _dec (Some corrupted_token) keyed = (inr (Some corrupted_token), keyed)
  ∧ _dec (Some (lit "plain")) keyed = (inr (Some (lit "plain")), keyed).
Proof.
  split; [vm_compute; reflexivity|]. split; [reflexivity|].
  split; [intros Heq; vm_compute in Heq; discriminate Heq|].
  repeat split; vm_compute; reflexivity.
Qed.

Lemma dec_undecryptable_unchanged_witness :
  _FERNET keyed = Some 7
  ∧ _is_enc (Some corrupted_token) = true
  ∧ (∀ b, encode_utf8 corrupted_token = Some b → fernet_decrypt 7 b = None)
  ∧ _dec (Some corrupted_token) keyed = (inr (Some corrupted_token), keyed).
Proof.
  assert (Hb : ∀ b, encode_utf8 corrupted_token = Some b → fernet_decrypt 7 b = None).
  { intros b Hb. vm_compute in Hb. injection Hb as <-. reflexivity. }
  split; [reflexivity|]. split; [reflexivity|]. split; [exact Hb|].
  exact (@dec_undecryptable_unchanged cipher host corrupted_token keyed 7
           eq_refl eq_refl Hb).
Defined.

Lemma sync_groups_from_tree_assigns_witness :
  ready (view (fresh db0)) = true
  ∧ NoDup (tree_updates tree0).*2
  ∧ ∃ w', _sync_groups_from_tree tree0 (fresh db0) = (inr (), w')
    ∧ (∀ gid kids u ks a,
         GroupItem gid kids ∈ tree0 → AccountItem u ks ∈ kids →
         accounts (view (fresh db0)) !! u = Some a →
         accounts (committed w') !! u
         = Some (with_group (match gid with Some g => PInt g | None => PNone end) a))
    ∧ (∀ u, (∀ it ks, it ∈ tree0 → AccountItem u ks ∉ children it) →
            accounts (view w') !! u = accounts (view (fresh db0)) !! u)
    ∧ ((tree_updates tree0 = [] ∧ w' = fresh db0)
       ∨ (journal w' = journal (fresh db0) ++ [committed w'] ∧ pending w' = None)).
Proof.
  assert (Hnd : NoDup (tree_updates tree0).*2).
  { apply (bool_decide_unpack (NoDup _)). vm_compute. exact I. }
  split; [reflexivity|]. split; [exact Hnd|].
  exact (@sync_groups_from_tree_assigns cipher engine tree0 (fresh db0) eq_refl Hnd).
Defined.

(** C2 fails on the code as worded.  In [nested_tree] no account occurs
    twice, and [bob] and [carol] are children of the node of group 2,
    which is itself a child of the node of group 1.  The reconcile
    returns normally and commits, yet [bob] still has group 1 and
    [carol] no group: the function reads the children of the top-level
    items and nothing below them. *)
Lemma sync_nested_group_not_reconciled :
  ready (view (fresh db0)) = true
  ∧ NoDup (flat_map usernames nested_tree)
  ∧ (∃ kids, GroupItem (Some 1%Z) kids ∈ nested_tree
       ∧ GroupItem (Some 2%Z) [AccountItem (lit "bob") []; AccountItem (lit "carol") []]
         ∈ kids)
  ∧ ∃ w', _sync_groups_from_tree nested_tree (fresh db0) = (inr (), w')
    ∧ journal w' = journal (fresh db0) ++ [committed w']
    ∧ group_id <$> accounts (committed w') !! lit "alice" = Some (PInt 1)
    ∧ group_id <$> accounts (committed w') !! lit "bob" = Some (PInt 1)
    ∧ group_id <$> accounts (committed w') !! lit "carol" = Some PNone.
Proof.
  split; [reflexivity|]. split.
  { apply (bool_decide_unpack (NoDup _)). vm_compute. exact I. }
  split.
  { eexists. split; [apply elem_of_cons; right; apply elem_of_cons; by left|].
    apply elem_of_cons; right. apply elem_of_cons. by left. }
  eexists. split; [vm_compute; reflexivity|]. vm_compute. done.
Qed.

Example sync_groups_from_tree_run :
  ∃ w', _sync_groups_from_tree tree0 (fresh db0) = (inr (), w')
    ∧ group_id <$> accounts (committed w') !! lit "alice" = Some (PInt 1)
    ∧ group_id <$> accounts (committed w') !! lit "bob" = Some (PInt 2)
    ∧ group_id <$> accounts (committed w') !! lit "carol" = Some (PInt 1)
    ∧ List.length (journal w') = 1%nat.
Proof. eexists. split; [vm_compute; reflexivity|]. vm_compute. done. Qed.

Lemma sync_groups_from_tree_frame_witness :
  ready (view (fresh db0)) = true
  ∧ ∃ w', _sync_groups_from_tree [GroupItem (Some 2%Z) [AccountItem (lit "bob") []]]
            (fresh db0) = (inr (), w')
    ∧ (∀ u, option_Forall2 same_but_group
              (accounts (view (fresh db0)) !! u) (accounts (view w') !! u))
    ∧ (∀ u, u ∉ flat_map usernames [GroupItem (Some 2%Z) [AccountItem (lit "bob") []]] →
            accounts (view w') !! u = accounts (view (fresh db0)) !! u)
    ∧ groups (view w') = groups (view (fresh db0))
    ∧ accounts_cols (view w') = accounts_cols (view (fresh db0)).
Proof.
  split; [reflexivity|].
  exact (@sync_groups_from_tree_frame cipher engine
           [GroupItem (Some 2%Z) [AccountItem (lit "bob") []]] (fresh db0) eq_refl).
Defined.

Lemma delete_group_reassigns_then_removes_witness :
  ready (view (fresh db0)) = true
  ∧ ∃ db1 db2 w',
    _delete_group (GroupItem (Some 1%Z) []) (fresh db0) = (inr (), w')
    ∧ trail w' = trail (fresh db0) ++ [db1; db2]
    ∧ journal w' = journal (fresh db0) ++ [db2]
    ∧ committed w' = db2
    ∧ pending w' = None
    ∧ apply (UngroupMembers (PInt 1)) (view (fresh db0)) = inr db1
    ∧ apply (DeleteGroup (PInt 1)) db1 = inr db2
    ∧ groups db1 = groups (view (fresh db0))
    ∧ (∀ u a, accounts db1 !! u = Some a → group_id a ≠ PInt 1)
    ∧ groups db2 = delete 1%Z (groups (view (fresh db0)))
    ∧ accounts db2 = accounts db1
    ∧ (∀ u a, accounts db2 !! u = Some a → group_id a ≠ PInt 1)
    ∧ (∀ u a, accounts (view (fresh db0)) !! u = Some a → group_id a = PInt 1 →
              accounts db2 !! u = Some (with_group PNone a))
    ∧ (∀ u a, accounts (view (fresh db0)) !! u = Some a → group_id a ≠ PInt 1 →
              accounts db2 !! u = Some a)
    ∧ (no_dangling (view (fresh db0)) → no_dangling db1 ∧ no_dangling db2).
Proof.
  split; [reflexivity|].
  exact (@delete_group_reassigns_then_removes cipher engine 1%Z [] (fresh db0) eq_refl).
Defined.

(** The two states of that transaction on the sample store: first the
    members of Main are without a group while Main is still there, then
    Main is gone. *)
Example delete_group_trail :
  let w' := (_delete_group (GroupItem (Some 1%Z) []) (fresh db0)).2 in
  (λ db, (group_id <$> accounts db !! lit "alice", groups db !! 1%Z)) <$> trail w'
  = [ (Some PNone, Some (Some (lit "Main"))); (Some PNone, None) ]
  ∧ journal w' = [committed w'].
Proof. vm_compute. done. Qed.

Example db0_no_dangling : no_dangling db0.
Proof.
  intros u a Hu.
  destruct (decide (u = lit "alice")) as [->|?];
    [vm_compute in Hu; injection Hu as <-; right; exists 1%Z; split; [reflexivity|exists (Some (lit "Main")); reflexivity]|].
  destruct (decide (u = lit "bob")) as [->|?];
    [vm_compute in Hu; injection Hu as <-; right; exists 1%Z; split; [reflexivity|exists (Some (lit "Main")); reflexivity]|].
  destruct (decide (u = lit "carol")) as [->|?];
    [vm_compute in Hu; injection Hu as <-; by left|].
  unfold db0 in Hu. simpl in Hu. by rewrite !lookup_insert_ne, lookup_empty in Hu.
Qed.


Example create_group_new_name :
  ∃ w', _create_group_from_menu (Accepted (lit "Farm")) (fresh db0) = (inr (), w')
    ∧ groups (committed w') !! 3%Z = Some (Some (lit "Farm"))
    ∧ shown w' = [].
Proof. eexists. split; [vm_compute; reflexivity|]. vm_compute. done. Qed.

Lemma migrate_table_idempotent_witness :
  pending (fresh legacy_db) = None
  ∧ migrate_table (fresh legacy_db) = (inr (), (migrate_table (fresh legacy_db)).2)
  ∧ (∃ w2, migrate_table (migrate_table (fresh legacy_db)).2 = (inr (), w2)
         ∧ committed w2 = committed (migrate_table (fresh legacy_db)).2
         ∧ pending w2 = None
         ∧ ticks w2 = ticks (migrate_table (fresh legacy_db)).2)
  ∧ (∀ u a, accounts (committed (fresh legacy_db)) !! u = Some a →
            _is_enc (roblosecurity a) = true →
            accounts (committed (migrate_table (fresh legacy_db)).2) !! u = Some a).
Proof.
  assert (Hrun : migrate_table (fresh legacy_db)
                 = (inr (), (migrate_table (fresh legacy_db)).2))
    by (vm_compute; reflexivity).
  split; [reflexivity|]. split; [exact Hrun|].
  exact (@migrate_table_idempotent cipher host engine host_spec
           (fresh legacy_db) _ eq_refl Hrun).
Defined.

Example migrate_table_legacy_run :
  let db := committed (migrate_table (fresh legacy_db)).2 in
  ready db = true
  ∧ roblosecurity <$> accounts db !! lit "alice" = Some (Some good_token)
  ∧ groups db = {[ 1%Z := Some (lit "Main") ]}.
Proof. vm_compute. done. Qed.

Example startup_on_empty_store :
  let empty := mkDB [] ∅ false [] ∅ 0 None in
  ∃ w', (create_table;; migrate_table) (fresh empty) = (inr (), w')
        ∧ ready (committed w') = true ∧ pending w' = None.
Proof. eexists. split; [vm_compute; reflexivity|]. split; reflexivity. Qed.

Example get_auth_ticket_ok :
  (_get_auth_ticket (lit "cookie") (lit "1818") (fresh db0)).1 = inr (lit "T1CK")
  ∧ List.length (sent (_get_auth_ticket (lit "cookie") (lit "1818") (fresh db0)).2) = 2%nat.
Proof. vm_compute. done. Qed.

Example get_auth_ticket_no_token :
  (@_get_auth_ticket cipher silent_server (lit "cookie") (lit "1818") (fresh db0)).1
  = inl MissingCsrfToken
  ∧ List.length (sent (@_get_auth_ticket cipher silent_server (lit "cookie") (lit "1818")
                    (fresh db0)).2) = 1%nat.
Proof. vm_compute. done. Qed.

(** C8 fails on the code as worded.  With the ticket [a+b] the program
    puts [gameinfo:a+b] into the descriptor, while percent-encoding the
    launch parameters gives [gameinfo:a%2Bb]. *)
Lemma build_uri_ticket_not_encoded :
  (_build_roblox_player_uri (lit "a+b") (lit "1818") (fresh db0)).1
  = inr (launch_descriptor (lit "a+b") (lit "1762000000000") (lit "1818") (lit "123456"))
  ∧ percent_encoded_descriptor (lit "a+b") (lit "1818")
      (lit "1762000000000") (lit "123456")
    = Some (launch_descriptor (lit "a%2Bb") (lit "1762000000000") (lit "1818")
              (lit "123456"))
  ∧ launch_descriptor (lit "a+b") (lit "1762000000000") (lit "1818") (lit "123456")
    ≠ launch_descriptor (lit "a%2Bb") (lit "1762000000000") (lit "1818") (lit "123456").
Proof.
  split; [vm_compute; reflexivity|]. split; [vm_compute; reflexivity|].
  intros Heq. vm_compute in Heq. discriminate Heq.
Qed.

Example build_uri_text :
  (_build_roblox_player_uri (lit "T1CK") (lit "1818") (fresh db0)).1
  = inr (lit "roblox-player:1+launchmode:play+gameinfo:T1CK+launchtime:1762000000000+placelauncherurl:https%3A%2F%2Fassetgame.roblox.com%2Fgame%2FPlaceLauncher.ashx%3Frequest%3DRequestGame%26placeId%3D1818+browsertrackerid:123456+robloxLocale:en_us+gameLocale:en_us+channel:+LaunchExp:InApp").
Proof. reflexivity. Qed.

End Runs.

(** ** Further runs on the sample environment *)

Module Cases.
Import Sample SampleFacts ManagerFacts MigrateFacts.
Import GroupFacts SecretFacts StartupFacts WindowFacts Window.

Local Open Scope N_scope.

Lemma move_selected_to_group_effect_witness :
  pending (fresh db0) = None
  ∧ ready (committed (fresh db0)) = true
  ∧ ∃ w', _move_selected_to_group (Some (AccountItem (lit "carol") [])) 2 (fresh db0)
          = (inr (), w')
    ∧ accounts (committed w')
      = alter (with_group (PInt 2)) (lit "carol") (accounts (committed (fresh db0)))
    ∧ groups (committed w') = groups (committed (fresh db0))
    ∧ journal w' = journal (fresh db0) ++ [committed w']
    ∧ pending w' = None
    ∧ (is_Some (groups (committed (fresh db0)) !! 2%Z) →
       no_dangling (committed (fresh db0)) → no_dangling (committed w')).
Proof.
  split; [reflexivity|]. split; [reflexivity|].
  exact (@move_selected_to_group_effect cipher engine
           (Some (AccountItem (lit "carol") [])) 2 (fresh db0) eq_refl eq_refl).
Defined.

Lemma move_then_remove_restores_witness :
  pending (fresh db0) = None
  ∧ ready (committed (fresh db0)) = true
  ∧ lit "carol" ≠ []
  ∧ accounts (committed (fresh db0)) !! lit "carol" = Some (Account None None None PNone)
  ∧ ∃ w', (_move_selected_to_group (Some (AccountItem (lit "carol") [])) 2;;
           _remove_selected_from_group (Some (AccountItem (lit "carol") []))) (fresh db0)
          = (inr (), w')
    ∧ accounts (committed w') = accounts (committed (fresh db0))
    ∧ groups (committed w') = groups (committed (fresh db0))
    ∧ pending w' = None.
Proof.
  assert (Hne : lit "carol" ≠ []) by (vm_compute; congruence).
  split; [reflexivity|]. split; [reflexivity|]. split; [exact Hne|].
  split; [reflexivity|].
  exact (@move_then_remove_restores cipher engine (lit "carol") [] 2
           (Account None None None PNone) (fresh db0) eq_refl eq_refl Hne eq_refl eq_refl).
Defined.

Lemma create_group_adds_fresh_witness :
  pending (fresh db0) = None
  ∧ ready (committed (fresh db0)) = true
  ∧ strip (lit " Farm ") ≠ []
  ∧ name_taken (strip (lit " Farm ")) (groups (committed (fresh db0))) = false
  ∧ (∃ w' i, _create_group_from_menu (Accepted (lit " Farm ")) (fresh db0) = (inr (), w')
     ∧ groups (committed (fresh db0)) !! i = None
     ∧ (groups_seq (committed (fresh db0)) < i ≤ largest_rowid)%Z
     ∧ groups (committed w')
       = <[i := Some (strip (lit " Farm "))]> (groups (committed (fresh db0)))
     ∧ accounts (committed w') = accounts (committed (fresh db0))
     ∧ shown w' = shown (fresh db0)
     ∧ journal w' = journal (fresh db0) ++ [committed w']
     ∧ (seq_ok (committed (fresh db0)) → seq_ok (committed w'))
     ∧ (no_dangling (committed (fresh db0)) →
        no_dangling (committed w')
        ∧ ∀ u a, accounts (committed w') !! u = Some a → group_id a ≠ PInt i))
  ∧ _create_group_from_menu (Accepted (lit " Farm ")) (fresh full_db)
    = (inl OperationalError, fresh full_db).
Proof.
  assert (Hne : strip (lit " Farm ") ≠ []) by (vm_compute; congruence).
  assert (Hn : name_taken (strip (lit " Farm ")) (groups (committed (fresh db0))) = false)
    by (vm_compute; reflexivity).
  split; [reflexivity|]. split; [reflexivity|]. split; [exact Hne|]. split; [exact Hn|].
  split.
  - exact (@create_group_adds_fresh cipher engine (lit " Farm ") (fresh db0)
             eq_refl eq_refl Hne Hn).
  - exact (@create_group_adds_fresh cipher engine (lit " Farm ") (fresh full_db)
             eq_refl eq_refl Hne Hn).
Defined.

Example db0_seq_ok : seq_ok db0.
Proof.
  intros i [v Hi]. unfold db0 in *. simpl in *.
  destruct (decide (i = 1%Z)) as [->|?]; [lia|].
  destruct (decide (i = 2%Z)) as [->|?]; [lia|].
  by rewrite !lookup_insert_ne, lookup_empty in Hi.
Qed.

Lemma deleted_group_id_not_reused_witness :
  pending (fresh db0) = None
  ∧ ready (committed (fresh db0)) = true
  ∧ seq_ok (committed (fresh db0))
  ∧ (groups_seq (committed (fresh db0)) < largest_rowid)%Z
  ∧ is_Some (groups (committed (fresh db0)) !! 2%Z)
  ∧ strip (lit "Farm") ≠ []
  ∧ name_taken (strip (lit "Farm")) (delete 2%Z (groups (committed (fresh db0)))) = false
  ∧ ∃ w' i, (_delete_group (GroupItem (Some 2%Z) []);;
             _create_group_from_menu (Accepted (lit "Farm"))) (fresh db0) = (inr (), w')
    ∧ groups (committed w')
      = <[i := Some (strip (lit "Farm"))]> (delete 2%Z (groups (committed (fresh db0))))
    ∧ (2 < i ≤ largest_rowid)%Z
    ∧ seq_ok (committed w').
Proof.
  assert (Hs : is_Some (groups (committed (fresh db0)) !! 2%Z))
    by (exists (Some (lit "Alts")); reflexivity).
  assert (Hne : strip (lit "Farm") ≠ []) by (vm_compute; congruence).
  assert (Hn : name_taken (strip (lit "Farm"))
                 (delete 2%Z (groups (committed (fresh db0)))) = false)
    by (vm_compute; reflexivity).
  split; [reflexivity|]. split; [reflexivity|]. split; [exact db0_seq_ok|].
  split; [reflexivity|].
  split; [exact Hs|]. split; [exact Hne|]. split; [exact Hn|].
  exact (@deleted_group_id_not_reused cipher engine 2%Z [] (lit "Farm") (fresh db0)
           eq_refl eq_refl db0_seq_ok eq_refl Hs Hne Hn).
Defined.

Lemma create_group_blank_ignored_witness :
  forallb isspace ([32; 9] ++ [0x3000]) = true
  ∧ _create_group_from_menu (Accepted ([32; 9] ++ [0x3000])) (fresh db0)
    = (inr (), fresh db0)
  ∧ _create_group_from_menu Rejected (fresh db0) = (inr (), fresh db0).
Proof.
  split; [reflexivity|].
  exact (@create_group_blank_ignored cipher engine ([32; 9] ++ [0x3000])
           (fresh db0) eq_refl).
Defined.

Lemma rename_group_effect_witness :
  pending (fresh db0) = None
  ∧ ready (committed (fresh db0)) = true
  ∧ strip (lit " Alts") ≠ []
  ∧ groups (committed (fresh db0)) !! 1%Z = Some (Some (lit "Main"))
  ∧ _rename_group (GroupItem (Some 1%Z) []) (Accepted (lit " Alts")) (fresh db0)
    = (inr (), show (MsgWarning "Group Exists" (group_exists_text (strip (lit " Alts"))))
                 (fresh db0)).
Proof.
  assert (Hne : strip (lit " Alts") ≠ []) by (vm_compute; congruence).
  split; [reflexivity|]. split; [reflexivity|]. split; [exact Hne|]. split; [reflexivity|].
  exact (@rename_group_effect cipher engine 1%Z [] (lit " Alts") (Some (lit "Main"))
           (fresh db0) eq_refl eq_refl Hne eq_refl).
Defined.

Lemma prompt_set_alias_effect_witness :
  pending (fresh db0) = None
  ∧ ready (committed (fresh db0)) = true
  ∧ lit "alice" ≠ []
  ∧ ∃ w', _prompt_set_alias (Some (AccountItem (lit "alice") []))
            (λ current, Accepted (current ++ lit " 2 ")) (fresh db0) = (inr (), w')
    ∧ accounts (committed w')
      = alter (with_alias (Some (strip (lit "main 2 ")))) (lit "alice")
          (accounts (committed (fresh db0)))
    ∧ groups (committed w') = groups (committed (fresh db0))
    ∧ journal w' = journal (fresh db0) ++ [committed w']
    ∧ pending w' = None.
Proof.
  assert (Hne : lit "alice" ≠ []) by (vm_compute; congruence).
  split; [reflexivity|]. split; [reflexivity|]. split; [exact Hne|].
  exact (@prompt_set_alias_effect cipher engine (lit "alice") []
           (λ current, Accepted (current ++ lit " 2 ")) (fresh db0) eq_refl eq_refl Hne).
Defined.


Lemma enc_never_raises_witness :
  ∃ c w', _enc (Some (lit "secret-token")) (fresh db0) = (inr (Some c), w')
    ∧ _FERNET w' = Some (the_key (fresh db0))
    ∧ committed w' = committed (fresh db0) ∧ pending w' = pending (fresh db0)
    ∧ journal w' = journal (fresh db0) ∧ shown w' = shown (fresh db0)
    ∧ match encode_utf8 (lit "secret-token") with
      | Some data =>
        c = fernet_encrypt (the_key (fresh db0)) (time_at (ticks (fresh db0)))
              (urandom_at (ticks (fresh db0))) data
        ∧ _is_enc (Some c) = true ∧ ascii_only c ∧ ticks w' = S (ticks (fresh db0))
      | None => c = lit "secret-token" ∧ ticks w' = ticks (fresh db0)
      end.
Proof.
  exact (@enc_never_raises cipher host host_spec (lit "secret-token") (fresh db0)).
Defined.

Lemma migrate_table_frame_witness :
  pending (fresh legacy_db) = None
  ∧ migrate_table (fresh legacy_db) = (inr (), (migrate_table (fresh legacy_db)).2)
  ∧ ∀ u, option_Forall2 (reencrypted (the_key (fresh legacy_db)))
           (accounts (committed (fresh legacy_db)) !! u)
           (accounts (committed (migrate_table (fresh legacy_db)).2) !! u).
Proof.
  assert (Hrun : migrate_table (fresh legacy_db)
                 = (inr (), (migrate_table (fresh legacy_db)).2))
    by (vm_compute; reflexivity).
  split; [reflexivity|]. split; [exact Hrun|].
  exact (@migrate_table_frame cipher host engine host_spec (fresh legacy_db) _
           eq_refl Hrun).
Defined.

Lemma get_account_outcomes_witness :
  has_col "profile_path" (accounts_cols (view (fresh legacy_db))) = true
  ∧ has_col "roblosecurity" (accounts_cols (view (fresh legacy_db))) = true
  ∧ has_col "username" (accounts_cols (view (fresh legacy_db))) = true
  ∧ ∃ v w', Some (lit "secret-token") = Some v
      ∧ _get_account (lit "alice") (fresh legacy_db)
        = (inr (None, Some (plain (the_key (fresh legacy_db)) v)), w')
      ∧ committed w' = committed (fresh legacy_db)
      ∧ pending w' = pending (fresh legacy_db)
      ∧ journal w' = journal (fresh legacy_db)
      ∧ ticks w' = ticks (fresh legacy_db).
Proof.
  do 3 (split; [reflexivity|]).
  exact (@get_account_outcomes cipher host (lit "alice") (fresh legacy_db)
           eq_refl eq_refl eq_refl).
Defined.

Lemma migrate_table_keeps_get_account_witness :
  pending (fresh legacy_db) = None
  ∧ migrate_table (fresh legacy_db) = (inr (), (migrate_table (fresh legacy_db)).2)
  ∧ has_col "profile_path" (accounts_cols (committed (fresh legacy_db))) = true
  ∧ has_col "roblosecurity" (accounts_cols (committed (fresh legacy_db))) = true
  ∧ has_col "username" (accounts_cols (committed (fresh legacy_db))) = true
  ∧ (_get_account (lit "alice") (migrate_table (fresh legacy_db)).2).1
    = (_get_account (lit "alice") (fresh legacy_db)).1.
Proof.
  assert (Hrun : migrate_table (fresh legacy_db)
                 = (inr (), (migrate_table (fresh legacy_db)).2))
    by (vm_compute; reflexivity).
  split; [reflexivity|]. split; [exact Hrun|]. do 3 (split; [reflexivity|]).
  exact (@migrate_table_keeps_get_account cipher host engine host_spec cipher_spec
           (lit "alice") (fresh legacy_db) _ eq_refl Hrun eq_refl eq_refl eq_refl).
Defined.

Example get_account_after_migration :
  (_get_account (lit "alice") (migrate_table (fresh legacy_db)).2).1
  = inr (None, Some (lit "secret-token"))
  ∧ (_get_account (lit "bob") (migrate_table (fresh legacy_db)).2).1
    = inl AccountNotFound.
Proof. vm_compute. done. Qed.

Lemma create_table_keeps_tables_witness :
  pending (fresh legacy_db) = None
  ∧ ∃ w1, create_table (fresh legacy_db) = (inr (), w1) ∧ pending w1 = None
    ∧ accounts_cols (committed w1) ≠ [] ∧ groups_cols (committed w1) ≠ []
    ∧ has_last_played (committed w1) = true
    ∧ (accounts_cols (committed (fresh legacy_db)) ≠ [] →
       accounts_cols (committed w1) = accounts_cols (committed (fresh legacy_db))
       ∧ accounts (committed w1) = accounts (committed (fresh legacy_db)))
    ∧ (groups_cols (committed (fresh legacy_db)) ≠ [] →
       groups_cols (committed w1) = groups_cols (committed (fresh legacy_db))
       ∧ groups (committed w1) = groups (committed (fresh legacy_db))
       ∧ groups_seq (committed w1) = groups_seq (committed (fresh legacy_db)))
    ∧ ∃ w2, create_table w1 = (inr (), w2) ∧ committed w2 = committed w1.
Proof.
  split; [reflexivity|].
  exact (@create_table_keeps_tables cipher engine (fresh legacy_db) eq_refl).
Defined.

Lemma startup_makes_ready_witness :
  (pending (fresh (mkDB [] ∅ false [] ∅ 0 None)) = None
   ∧ accounts_cols (committed (fresh (mkDB [] ∅ false [] ∅ 0 None))) = []
   ∧ groups_cols (committed (fresh (mkDB [] ∅ false [] ∅ 0 None))) = []
   ∧ ∃ w', (create_table;; migrate_table) (fresh (mkDB [] ∅ false [] ∅ 0 None))
           = (inr (), w')
     ∧ pending w' = None
     ∧ ready (committed w') = true
     ∧ all_settled (committed w'))
  ∧ (pending (fresh legacy_db) = None
     ∧ has_col "username" (accounts_cols (committed (fresh legacy_db))) = true
     ∧ has_col "alias" (accounts_cols (committed (fresh legacy_db))) = true
     ∧ exact_case "roblosecurity" (accounts_cols (committed (fresh legacy_db)))
     ∧ exact_case "group_id" (accounts_cols (committed (fresh legacy_db)))
     ∧ has_col "name" (groups_cols (committed (fresh legacy_db))) = true
     ∧ ∃ w', (create_table;; migrate_table) (fresh legacy_db) = (inr (), w')
       ∧ pending w' = None
       ∧ ready (committed w') = true
       ∧ all_settled (committed w')).
Proof.
  assert (Hr : exact_case "roblosecurity" (accounts_cols (committed (fresh legacy_db))))
    by (vm_compute; reflexivity).
  assert (Hg : exact_case "group_id" (accounts_cols (committed (fresh legacy_db))))
    by (vm_compute; reflexivity).
  split.
  - do 3 (split; [reflexivity|]).
    exact (@startup_makes_ready cipher host engine host_spec
             (fresh (mkDB [] ∅ false [] ∅ 0 None)) eq_refl (or_introl eq_refl)
             (or_introl eq_refl)).
  - do 3 (split; [reflexivity|]). split; [exact Hr|]. split; [exact Hg|].
    split; [reflexivity|].
    exact (@startup_makes_ready cipher host engine host_spec
             (fresh legacy_db) eq_refl
             (or_intror (conj eq_refl (conj eq_refl (conj Hr Hg))))
             (or_intror eq_refl)).
Defined.

(** A store whose secrets column is spelt in capitals: the program does
    not find [roblosecurity] among the column names, SQLite refuses to
    add a column of that name, and start-up fails. *)
Example startup_duplicate_column :
  let db := mkDB ["username"; "alias"; "ROBLOSECURITY"] ∅ false [] ∅ 0 None in
  has_col "roblosecurity" (accounts_cols db) = false
  ∧ sql_has_col "roblosecurity" (accounts_cols db) = true
  ∧ ((create_table;; migrate_table) (fresh db)).1 = inl OperationalError.
Proof. vm_compute. done. Qed.

Lemma migrate_table_keeps_group_names_witness :
  pending (fresh legacy_db) = None
  ∧ migrate_table (fresh legacy_db) = (inr (), (migrate_table (fresh legacy_db)).2)
  ∧ has_col "name" (groups_cols (committed (fresh legacy_db))) = true
  ∧ has_col "id" (groups_cols (committed (fresh legacy_db))) = false
  ∧ groups_new (committed (fresh legacy_db)) = None
  ∧ has_col "id" (groups_cols (committed (migrate_table (fresh legacy_db)).2)) = true
  ∧ (∀ v, (∃ i, groups (committed (migrate_table (fresh legacy_db)).2) !! i = Some v)
          ↔ (∃ i, groups (committed (fresh legacy_db)) !! i = Some v))
  ∧ names_unique (groups (committed (migrate_table (fresh legacy_db)).2))
  ∧ seq_ok (committed (migrate_table (fresh legacy_db)).2).
Proof.
  assert (Hrun : migrate_table (fresh legacy_db)
                 = (inr (), (migrate_table (fresh legacy_db)).2))
    by (vm_compute; reflexivity).
  split; [reflexivity|]. split; [exact Hrun|]. do 3 (split; [reflexivity|]).
  exact (@migrate_table_keeps_group_names cipher host engine host_spec
           (fresh legacy_db) _ eq_refl Hrun eq_refl eq_refl eq_refl).
Defined.

(** A column spelt otherwise than the program spells it is still the
    column the statements mean: the secret of a store whose alias
    column is [Alias] is encrypted like any other. *)
Example migrate_other_spelling :
  let db := mkDB ["username"; "Alias"; "profile_path"; "roblosecurity"; "group_id"]
                 (<[ lit "alice" := Account None None (Some (lit "secret-token")) PNone ]> ∅)
                 true ["id"; "name"] ∅ 0 None in
  has_col "alias" (accounts_cols db) = false
  ∧ (migrate_table (fresh db)).1 = inr ()
  ∧ roblosecurity <$> accounts (committed (migrate_table (fresh db)).2) !! lit "alice"
    = Some (Some good_token).
Proof. vm_compute. done. Qed.

(** The rebuild hands out the new ids in the order of a scan of the
    legacy table, a repeated name counting where it comes first. *)
Example rebuild_ids_in_scan_order :
  let db := mkDB ["username"; "alias"; "profile_path"; "roblosecurity"; "group_id"]
                 ∅ true ["name"]
                 (<[ 1%Z := Some (lit "Main") ]>
                  (<[ 2%Z := Some (lit "Alts") ]>
                   (<[ 3%Z := Some (lit "Main") ]> ∅)))
                 0 None in
  distinct_names (groups db) = [Some (lit "Main"); Some (lit "Alts")]
  ∧ groups (committed (migrate_table (fresh db)).2)
    = <[ 1%Z := Some (lit "Main") ]> (<[ 2%Z := Some (lit "Alts") ]> ∅).
Proof. vm_compute. done. Qed.

(** The sample engine stores text that reads as an integer as that
    integer: the reconcile of an account shown under an account item
    named [2] makes it a member of group 2. *)
Example text_group_id_affinity :
  integer_affinity (lit "2") = PInt 2
  ∧ integer_affinity (lit "-17") = PInt (-17)
  ∧ integer_affinity (lit "two") = PStr (lit "two")
  ∧ group_id <$> accounts (committed
      (_sync_groups_from_tree [AccountItem (lit "2") [AccountItem (lit "carol") []]]
         (fresh db0)).2) !! lit "carol"
    = Some (PInt 2).
Proof. vm_compute. done. Qed.

Lemma resize_window_keeps_minimum_witness :
  _get_resize_direction (mkRect 0 0 1259 639) 10 5 300 = Some (lit "left")
  ∧ is_rect (mkRect 100 100 1359 739) = true
  ∧ is_int 700 = true
  ∧ is_int 0 = true
  ∧ match _resize_window (mkRect 100 100 1359 739) (lit "left") 700 0 with
    | Some r =>
      (is_rect r = true
       ∧ 800 ≤ width r ∧ 500 ≤ height r
       ∧ (if contains (lit "left") (lit "left")
          then right r = right (mkRect 100 100 1359 739)
          else left r = left (mkRect 100 100 1359 739))
       ∧ (if contains (lit "left") (lit "top")
          then bottom r = bottom (mkRect 100 100 1359 739)
          else top r = top (mkRect 100 100 1359 739))
       ∧ (contains (lit "left") (lit "right") = true →
          800 ≤ wrap (700 - left (mkRect 100 100 1359 739) + 1) → right r = 700)
       ∧ (contains (lit "left") (lit "left") = true →
          800 ≤ wrap (right (mkRect 100 100 1359 739) - 700 + 1) → left r = 700)
       ∧ (contains (lit "left") (lit "bottom") = true →
          500 ≤ wrap (0 - top (mkRect 100 100 1359 739) + 1) → bottom r = 0)
       ∧ (contains (lit "left") (lit "top") = true →
          500 ≤ wrap (bottom (mkRect 100 100 1359 739) - 0 + 1) → top r = 0))%Z
    | None =>
      ((contains (lit "left") (lit "left") = true
        ∧ right (mkRect 100 100 1359 739) - 800 < INT_MIN)
       ∨ (contains (lit "left") (lit "left") = false
          ∧ INT_MAX < left (mkRect 100 100 1359 739) + 800)
       ∨ (contains (lit "left") (lit "top") = true
          ∧ bottom (mkRect 100 100 1359 739) - 500 < INT_MIN)
       ∨ (contains (lit "left") (lit "top") = false
          ∧ INT_MAX < top (mkRect 100 100 1359 739) + 500))%Z
    end.
Proof.
  do 4 (split; [reflexivity|]).
  exact (resize_window_keeps_minimum (mkRect 0 0 1259 639) (mkRect 100 100 1359 739)
           10 5 300 (lit "left") 700 0 eq_refl eq_refl eq_refl eq_refl).
Defined.

Example resize_window_clamped :
  _resize_window (mkRect 100 100 1359 739) (lit "left") 700 0
  = Some (mkRect 559 100 1359 739).
Proof. reflexivity. Qed.

(** With the pointer at the left end of the range the width that
    [QRect] computes has wrapped around and is negative: the left edge
    is put back 800 to the left of the right edge. *)
Example resize_window_wrapped :
  width (mkRect (-2147483648) 100 1359 739) = (-2147482288)%Z
  ∧ _resize_window (mkRect 100 100 1359 739) (lit "left") (-2147483648) 100
    = Some (mkRect 559 100 1359 739).
Proof. split; reflexivity. Qed.

(** A window at the right end of the range cannot be given its minimum
    width: the setter raises. *)
Example resize_window_overflow :
  _resize_window (mkRect 2147483000 100 2147483647 739) (lit "right") 2147483100 100
  = None.
Proof. reflexivity. Qed.

End Cases.

(** ** The accounts tree of the sample store *)

Module TreeCases.
Import Sample SampleFacts ManagerFacts MigrateFacts.
Import GroupFacts TreeFacts Tree.

Local Open Scope N_scope.

Example load_accounts_tree_db0 :
  load_accounts_tree db0
  = [ GroupItem None [AccountItem (lit "carol") []];
      GroupItem (Some 2%Z) [];
      GroupItem (Some 1%Z) [AccountItem (lit "alice") []; AccountItem (lit "bob") []] ].
Proof. vm_compute. reflexivity. Qed.

Lemma sync_after_load_heals_witness :
  pending (fresh db0) = None
  ∧ ready (committed (fresh db0)) = true
  ∧ ∃ w', _sync_groups_from_tree (load_accounts_tree (committed (fresh db0))) (fresh db0)
          = (inr (), w')
    ∧ accounts (committed w')
      = (λ a, with_group (shown_group (committed (fresh db0)) a) a)
          <$> accounts (committed (fresh db0))
    ∧ groups (committed w') = groups (committed (fresh db0))
    ∧ pending w' = None
    ∧ (no_dangling (committed (fresh db0)) →
       accounts (committed w') = accounts (committed (fresh db0))).
Proof.
  split; [reflexivity|]. split; [reflexivity|].
  exact (@sync_after_load_heals cipher engine (fresh db0) eq_refl eq_refl).
Defined.

Example sync_after_load_dangling :
  let db := set_accounts (alter (with_group (PInt 9)) (lit "bob")) db0 in
  group_id <$> accounts db !! lit "bob" = Some (PInt 9)
  ∧ group_id <$> accounts (committed (_sync_groups_from_tree (load_accounts_tree db)
                                        (fresh db)).2) !! lit "bob"
    = Some PNone.
Proof. vm_compute. done. Qed.

End TreeCases.

(** ** The key file on the sample disk *)

Module KeyFileCases.
Import Sample SampleFacts.
Import KeyFile KeyFileFacts Fixture FixtureFacts.

Local Open Scope N_scope.

Lemma key_survives_restart_witness :
  _FERNET (fresh db0) = None
  ∧ load_key no_files (fresh db0)
    = (Some 0, Files None (Some (0 :: generate_key 0)), tick (fresh db0))
  ∧ _get_fernet no_files (fresh db0)
    = (Some 0, Files None (Some (0 :: generate_key 0)),
       set_fernet (Some 0) (tick (fresh db0)))
  ∧ ∀ w2, _FERNET w2 = None →
          _get_fernet (Files None (Some (0 :: generate_key 0))) w2
          = (Some 0, Files None (Some (0 :: generate_key 0)), set_fernet (Some 0) w2).
Proof.
  assert (Hl : load_key no_files (fresh db0)
               = (Some 0, Files None (Some (0 :: generate_key 0)), tick (fresh db0)))
    by (vm_compute; reflexivity).
  split; [reflexivity|]. split; [exact Hl|].
  exact (@key_survives_restart cipher plain_disk dpapi keys disk_spec key_spec
           0 no_files _ (fresh db0) _ eq_refl Hl).
Defined.

Lemma wrapped_garbage_is_kept_witness :
  _FERNET (fresh db0) = None
  ∧ exists_ KEY_FILE junk_files = true
  ∧ read KEY_FILE junk_files = Some (0 :: lit "junk")
  ∧ _win_unprotect (0 :: lit "junk") = Some (lit "junk")
  ∧ lit "junk" ≠ []
  ∧ Fernet_new (lit "junk") = None
  ∧ _get_fernet junk_files (fresh db0)
    = (Fernet_new (generate_key (ticks (fresh db0))), junk_files,
       match Fernet_new (generate_key (ticks (fresh db0))) with
       | Some f => set_fernet (Some f) (tick (fresh db0))
       | None => tick (fresh db0)
       end).
Proof.
  assert (Hne : lit "junk" ≠ []) by (vm_compute; congruence).
  do 4 (split; [reflexivity|]). split; [exact Hne|]. split; [reflexivity|].
  exact (@wrapped_garbage_is_kept cipher plain_disk dpapi keys disk_spec
           junk_files (fresh db0) (0 :: lit "junk") (lit "junk")
           eq_refl eq_refl eq_refl eq_refl Hne eq_refl).
Defined.

Lemma legacy_key_is_moved_witness :
  _FERNET (fresh db0) = None
  ∧ exists_ KEY_FILE_OLD legacy_files = true
  ∧ exists_ KEY_FILE legacy_files = false
  ∧ read KEY_FILE_OLD legacy_files = Some (generate_key 5)
  ∧ Fernet_new (generate_key 5) = Some 160
  ∧ ∃ d', _get_fernet legacy_files (fresh db0) = (Some 160, d', set_fernet (Some 160) (fresh db0))
    ∧ exists_ KEY_FILE_OLD d' = false
    ∧ holds_key 160 d'
    ∧ ∃ stored, read KEY_FILE d' = Some stored
        ∧ (_win_unprotect stored = Some (generate_key 5) ∨ stored = generate_key 5).
Proof.
  assert (Hk : Fernet_new (generate_key 5) = Some 160) by (vm_compute; reflexivity).
  do 4 (split; [reflexivity|]). split; [exact Hk|].
  exact (@legacy_key_is_moved cipher plain_disk dpapi keys disk_spec key_spec
           disk_reliable legacy_files (fresh db0) (generate_key 5) 160
           eq_refl eq_refl eq_refl eq_refl Hk).
Defined.

End KeyFileCases.
